(** * Mini-RPC: the call lifecycle of the client and the server dispatcher

    A shallow embedding of the Go sources

    - [codec/codec.go]  the [Header], the [Codec] interface, the codec registry;
    - [codec/gob.go]    the gob codec over a buffered writer;
    - [server.go]       [Option], [ServeConn], [serveCodec], [readRequest], ...;
    - the client        [Call], [Client], [registerCall], [send], [receive],
                        [Go], [parseOptions], [NewClient], ...

    Conventions.

    - A Go [uint64] is a [Z] in [0, 2^64); the increment wraps ([wrap64]).
    - A Go [error] is an [option error]: [None] is [nil].
    - A method with a pointer receiver or an out parameter takes the state
      and returns the new state beside its results.
    - The two mutexes of the client ([sending], [mu]) and the one of the
      server ([sending]) make the bodies they guard atomic; the embedding
      takes each guarded body as one function from state to state.  A
      concurrent run of a client is a sequence of steps ([Op], [run]): a call
      of [Go], which holds [sending] from registration to the end of the
      write, a turn of the loop of [receive], [terminateCalls], [Close].
    - [*Call] pointers are indices into a store of calls ([calls]), channels
      are indices into a store of channels ([chans]); a channel records its
      capacity and the calls delivered on it, in order.  A send that finds the
      buffer full waits for the receiver in Go; what the receiver gets is the
      recorded sequence.
    - Messages written with [log] are not part of the state.  [Call], which
      waits on the channel of a call, [Accept] and [main] are not embedded.
    - What the program takes from [encoding/gob], [encoding/json], [bufio],
      [fmt] and [net] is modelled on a stream of items, one item per encoded
      value (see [codec.Item]); which values gob refuses to encode and how
      [fmt] renders a format without operands are parameters. *)

From Stdlib Require Import ZArith Lia.
From stdpp Require Import base option list gmap strings pretty.

Local Open Scope Z_scope.

(** ** Values shared by the packages *)

(** Go's [error] values met in the program.  [ErrShutdown] is the sentinel of
    the client, [io_EOF] and [io_ErrUnexpectedEOF] those of package [io];
    [errors_New s] is a fresh error with text [s] (also what [fmt.Errorf]
    returns for a format without the wrapping verb). *)
Inductive error : Type :=
  | ErrShutdown
  | io_EOF
  | io_ErrUnexpectedEOF
  | errors_New (text : string).

(** [err.Error()] *)
Definition Error_text (e : error) : string :=
  match e with
  | ErrShutdown => "connection is shut down"
  | io_EOF => "EOF"
  | io_ErrUnexpectedEOF => "unexpected EOF"
  | errors_New s => s
  end.

#[global] Instance error_eq_dec : EqDecision error.
Proof. solve_decision. Defined.

(** The [interface{}] values that travel as arguments and replies. *)
Inductive Value : Type :=
  | VNil
  | VString (s : string)
  | VInt (z : Z)
  | VStruct0                      (* struct{}{} *)
  | VFunc (name : string).        (* a func value *)

#[global] Instance Value_eq_dec : EqDecision Value.
Proof. solve_decision. Defined.

(** Two values of the same dynamic type. *)
Definition same_type (a b : Value) : bool :=
  match a, b with
  | VNil, VNil | VString _, VString _ | VInt _, VInt _
  | VStruct0, VStruct0 | VFunc _, VFunc _ => true
  | _, _ => false
  end.

Definition wrap64 (z : Z) : Z := z mod 2 ^ 64.

(** What a run of a loop or of an entry point gives: a result, a panic, or
    nothing yet because the fuel of the model ran out. *)
Inductive result (A : Type) : Type :=
  | Ok (a : A)
  | Panicked (msg : string)
  | OutOfFuel.
Arguments Ok {A} a.
Arguments Panicked {A} msg.
Arguments OutOfFuel {A}.

(** ** Package codec *)

Module codec.

(** *** codec.go *)

Record Header : Type := mkHeader {
  ServiceMethod : string;
  Seq : Z;                      (* uint64 *)
  Error : string;
}.

#[global] Instance Header_eq_dec : EqDecision Header.
Proof. solve_decision. Defined.

Definition zeroHeader : Header := mkHeader "" 0 "".

(** [type Codec interface]: every method takes the codec state and gives
    the new one.  [ReadHeader] fills a header or fails; [ReadBody] takes the
    destination ([None] for [nil]) and gives its content after the call. *)
Class Codec (C : Type) : Type := {
  Close : C → C * option error;
  ReadHeader : C → C * (Header + error);
  ReadBody : C → option Value → C * option Value * option error;
  Write : C → Header → Value → C * option error;
}.

(** [type Type string] *)
Definition GobType : string := "application/gob".
Definition JsonType : string := "application/json".

(** *** The byte stream under a codec

    One [Item] per encoded value: the JSON record of the handshake, a gob
    encoded header, a gob encoded body, or bytes that decode to nothing. *)
Inductive Item : Type :=
  | WJson (magicNumber : Z) (codecType : string)
  | WHeader (h : Header)
  | WBody (v : Value)
  | WJunk.

#[global] Instance Item_eq_dec : EqDecision Item.
Proof. solve_decision. Defined.

(** [io.ReadWriteCloser]: what is still to be read, what was written, and
    whether [Close] was called. *)
Record Conn : Type := mkConn {
  input : list Item;
  output : list Item;
  closed : bool;
}.

Definition errClosed : error := errors_New "use of closed network connection".
Definition errBadItem : error := errors_New "gob: type mismatch in decoder".
Definition errBadJson : error := errors_New "json: cannot unmarshal into Go value".

(** [conn.Read], one encoded value at a time. *)
Definition conn_Read (c : Conn) : Conn * (Item + error) :=
  if closed c then (c, inr errClosed)
  else match input c with
       | [] => (c, inr io_EOF)
       | it :: rest => (mkConn rest (output c) (closed c), inl it)
       end.

(** [conn.Write] *)
Definition conn_Write (c : Conn) (p : list Item) : Conn * option error :=
  if closed c then (c, Some errClosed)
  else (mkConn (input c) (output c ++ p) (closed c), None).

(** [conn.Close] *)
Definition conn_Close (c : Conn) : Conn * option error :=
  (mkConn (input c) (output c) true,
   if closed c then Some errClosed else None).

(** [bufio.Writer]: the bytes not yet flushed and the sticky error. *)
Record Writer : Type := mkWriter {
  buffered : list Item;
  werr : option error;
}.

(** *** gob.go *)

(** [dec] reads [conn] and [enc] writes [buf]; they have no state of their
    own in the embedding. *)
Record GobCodec : Type := mkGobCodec {
  conn : Conn;
  buf : Writer;
}.

Definition NewGobCodec (c : Conn) : GobCodec :=
  mkGobCodec c (mkWriter [] None).

Section Gob.

(** The error of [gob.Encoder.Encode] on a body, [None] when gob encodes
    the value. *)
Variable gob_refuses : Value → option error.

(** [buf.Write] *)
Definition buf_Write (c : GobCodec) (p : list Item) : GobCodec * option error :=
  match werr (buf c) with
  | Some e => (c, Some e)
  | None => (mkGobCodec (conn c) (mkWriter (buffered (buf c) ++ p) None), None)
  end.

(** [buf.Flush] *)
Definition buf_Flush (c : GobCodec) : GobCodec * option error :=
  match werr (buf c) with
  | Some e => (c, Some e)
  | None =>
      match buffered (buf c) with
      | [] => (c, None)
      | p =>
          match conn_Write (conn c) p with
          | (conn', Some e) => (mkGobCodec conn' (mkWriter p (Some e)), Some e)
          | (conn', None) => (mkGobCodec conn' (mkWriter [] None), None)
          end
      end
  end.

(** [enc.Encode(h)] for a header *)
Definition enc_Encode_header (c : GobCodec) (h : Header) : GobCodec * option error :=
  buf_Write c [WHeader h].

(** [enc.Encode(body)] *)
Definition enc_Encode_body (c : GobCodec) (body : Value) : GobCodec * option error :=
  match gob_refuses body with
  | Some e => (c, Some e)
  | None => buf_Write c [WBody body]
  end.

Definition GobCodec_Close (c : GobCodec) : GobCodec * option error :=
  let '(conn', e) := conn_Close (conn c) in
  (mkGobCodec conn' (buf c), e).

(** [dec.Decode(h)] *)
Definition GobCodec_ReadHeader (c : GobCodec) : GobCodec * (Header + error) :=
  match conn_Read (conn c) with
  | (conn', inl (WHeader h)) => (mkGobCodec conn' (buf c), inl h)
  | (conn', inl _) => (mkGobCodec conn' (buf c), inr errBadItem)
  | (conn', inr e) => (mkGobCodec conn' (buf c), inr e)
  end.

(** [dec.Decode(body)]: a [nil] destination discards the next value,
    whatever it is; another destination takes a body of its type. *)
Definition GobCodec_ReadBody (c : GobCodec) (body : option Value)
  : GobCodec * option Value * option error :=
  match conn_Read (conn c) with
  | (conn', inl (WBody v)) =>
      match body with
      | None => (mkGobCodec conn' (buf c), None, None)
      | Some d =>
          if same_type d v then (mkGobCodec conn' (buf c), Some v, None)
          else (mkGobCodec conn' (buf c), Some d, Some errBadItem)
      end
  | (conn', inl (WHeader _)) =>
      match body with
      | None => (mkGobCodec conn' (buf c), None, None)
      | Some d => (mkGobCodec conn' (buf c), Some d, Some errBadItem)
      end
  | (conn', inl _) => (mkGobCodec conn' (buf c), body, Some errBadItem)
  | (conn', inr e) => (mkGobCodec conn' (buf c), body, Some e)
  end.

(** [Write]: the deferred function runs last, flushing and, when [err]
    is set, closing. *)
Definition GobCodec_Write (c : GobCodec) (h : Header) (body : Value)
  : GobCodec * option error :=
  let '(c1, err) :=
    match enc_Encode_header c h with
    | (c', Some e) => (c', Some e)
    | (c', None) =>
        match enc_Encode_body c' body with
        | (c'', Some e) => (c'', Some e)
        | (c'', None) => (c'', None)
        end
    end in
  let c2 := fst (buf_Flush c1) in
  let c3 := match err with
            | Some _ => fst (GobCodec_Close c2)
            | None => c2
            end in
  (c3, err).

(** [GobCodec] implements [Codec]. *)
Definition GobCodec_Codec : Codec GobCodec := {|
  Close := GobCodec_Close;
  ReadHeader := GobCodec_ReadHeader;
  ReadBody := GobCodec_ReadBody;
  Write := GobCodec_Write;
|}.

End Gob.

(** [NewCodecFuncMap], as [init] leaves it. *)
Definition NewCodecFuncMap : gmap string (Conn → GobCodec) :=
  {[ GobType := NewGobCodec ]}.

End codec.

(** ** server.go *)

Definition MagicNumber : Z := 0x3bef5c.

(** [type Option struct]; the field [MagicNumber] is [Option_MagicNumber]
    here, the name being taken by the constant. *)
Record Option : Type := mkOption {
  Option_MagicNumber : Z;         (* int *)
  CodecType : string;
}.

#[global] Instance Option_eq_dec : EqDecision Option.
Proof. solve_decision. Defined.

Definition DefaultOption : Option := mkOption MagicNumber codec.GobType.

(** [json.NewDecoder(conn).Decode(&opt)]: the next item has to be a JSON
    record whose number fits an [int]. *)
Definition json_Decode (c : codec.Conn) : codec.Conn * (Option + error) :=
  match codec.conn_Read c with
  | (c', inl (codec.WJson m t)) =>
      if bool_decide (- 2 ^ 63 ≤ m < 2 ^ 63) then (c', inl (mkOption m t))
      else (c', inr codec.errBadJson)
  | (c', inl _) => (c', inr codec.errBadJson)
  | (c', inr e) => (c', inr e)
  end.

(** [json.NewEncoder(conn).Encode(opt)] *)
Definition json_Encode (c : codec.Conn) (o : Option) : codec.Conn * option error :=
  codec.conn_Write c [codec.WJson (Option_MagicNumber o) (CodecType o)].

(** [invalidRequest], the placeholder sent when a request is in error. *)
Definition invalidRequest : Value := VStruct0.

(** [type request struct]; [replyv] is unset until the request is handled. *)
Record request : Type := mkRequest {
  h : codec.Header;
  argv : Value;
  replyv : option Value;
}.

Section Server.

Context {C : Type} `{!codec.Codec C}.

(** [readRequestHeader] returns [(&h, nil)] or [(nil, err)]. *)
Definition readRequestHeader (cc : C) : C * (codec.Header + error) :=
  match codec.ReadHeader cc with
  | (cc', inr err) => (cc', inr err)
  | (cc', inl hd) => (cc', inl hd)
  end.

(** [readRequest] returns the pair [(req, err)] of the source: the error of
    [ReadBody] is logged and the pair returned is [(req, nil)]. *)
Definition readRequest (cc : C) : C * option request * option error :=
  match readRequestHeader cc with
  | (cc1, inr err) => (cc1, None, Some err)
  | (cc1, inl hd) =>
      let '(cc2, v, _) := codec.ReadBody cc1 (Some (VString "")) in
      (cc2, Some (mkRequest hd (default (VString "") v) None), None)
  end.

(** [sendResponse]: an error of [Write] is logged. *)
Definition sendResponse (cc : C) (hd : codec.Header) (body : Value) : C :=
  fst (codec.Write cc hd body).

(** The reply of the placeholder handler: [fmt.Sprintf("geerpc resp %d", seq)]. *)
Definition placeholder_reply (seq : Z) : Value :=
  VString ("geerpc resp " +:+ pretty seq).

(** [handleRequest] *)
Definition handleRequest (cc : C) (req : request) : C :=
  let req' := mkRequest (h req) (argv req) (Some (placeholder_reply (codec.Seq (h req)))) in
  sendResponse cc (h req') (default VNil (replyv req')).

(** [serveCodec].  A worker started with [go] runs to its end where it is
    started, which is one of the schedules the [sending] mutex allows, so
    [wg.Wait] finds every worker finished. *)
Fixpoint serveCodec (fuel : nat) (cc : C) : result C :=
  match fuel with
  | O => OutOfFuel
  | S fuel' =>
      match readRequest cc with
      | (cc1, None, Some _) => Ok (fst (codec.Close cc1))
      | (cc1, Some req, Some err) =>
          let hd := codec.mkHeader (codec.ServiceMethod (h req)) (codec.Seq (h req))
                                   (Error_text err) in
          serveCodec fuel' (sendResponse cc1 hd invalidRequest)
      | (cc1, Some req, None) => serveCodec fuel' (handleRequest cc1 req)
      | (cc1, None, None) => Panicked "nil pointer dereference"
      end
  end.

End Server.

Section ServeConn.

Variable gob_refuses : Value → option error.

#[local] Instance gob_codec : codec.Codec codec.GobCodec :=
  codec.GobCodec_Codec gob_refuses.

(** [ServeConn]: the deferred [conn.Close] runs on every path; the codecs of
    the registry are gob codecs, whose connection is the one passed in. *)
Definition ServeConn (fuel : nat) (conn : codec.Conn) : result codec.Conn :=
  let close c := Ok (fst (codec.conn_Close c)) in
  match json_Decode conn with
  | (conn1, inr _) => close conn1
  | (conn1, inl opt) =>
      if bool_decide (Option_MagicNumber opt ≠ MagicNumber) then close conn1
      else
        match codec.NewCodecFuncMap !! CodecType opt with
        | None => close conn1
        | Some f =>
            match serveCodec fuel (f conn1) with
            | Ok cc => close (codec.conn cc)
            | Panicked msg => Panicked msg
            | OutOfFuel => OutOfFuel
            end
        end
  end.

End ServeConn.

(** ** The client *)

(** [type Call struct]; [Done] is the index of the channel in [chans]. *)
Record Call : Type := mkCall {
  Seq : Z;                        (* uint64 *)
  ServiceMethod : string;
  Args : Value;
  Reply : option Value;           (* the destination; [None] is [nil] *)
  Error : option error;
  Done : nat;
}.

(** A [chan *Call]: its capacity and the calls sent on it. *)
Record Chan : Type := mkChan {
  cap : nat;
  sent : list nat;
}.

(** [type Client struct], less the two mutexes. *)
Record Client (C : Type) : Type := mkClient {
  cc : C;
  opt : Option;
  header : codec.Header;
  seq : Z;                        (* uint64 *)
  pending : gmap Z nat;           (* map[uint64]*Call *)
  closing : bool;
  shutdown : bool;
}.
Arguments mkClient {C}.
Arguments cc {C}.
Arguments opt {C}.
Arguments header {C}.
Arguments seq {C}.
Arguments pending {C}.
Arguments closing {C}.
Arguments shutdown {C}.

(** A client together with the calls and the channels it points to. *)
Record World (C : Type) : Type := mkWorld {
  client : Client C;
  calls : list Call;
  chans : list Chan;
}.
Arguments mkWorld {C}.
Arguments client {C}.
Arguments calls {C}.
Arguments chans {C}.

(** A client at work: the stores, and the error the loop of [receive] has
    left with while [terminateCalls] has not run yet. *)
Record Running (C : Type) : Type := mkRunning {
  world : World C;
  leaving : option error;
}.
Arguments mkRunning {C}.
Arguments world {C}.
Arguments leaving {C}.

Section Client.

Context {C : Type} `{!codec.Codec C}.

(** [fmt.Sprintf(format)] with no operand. *)
Variable fmt_Sprintf : string → string.

Definition set_cc (c : Client C) (x : C) : Client C :=
  mkClient x (opt c) (header c) (seq c) (pending c) (closing c) (shutdown c).

Definition set_header (c : Client C) (x : codec.Header) : Client C :=
  mkClient (cc c) (opt c) x (seq c) (pending c) (closing c) (shutdown c).

Definition set_seq (c : Client C) (x : Z) : Client C :=
  mkClient (cc c) (opt c) (header c) x (pending c) (closing c) (shutdown c).

Definition set_pending (c : Client C) (x : gmap Z nat) : Client C :=
  mkClient (cc c) (opt c) (header c) (seq c) x (closing c) (shutdown c).

Definition set_closing (c : Client C) (x : bool) : Client C :=
  mkClient (cc c) (opt c) (header c) (seq c) (pending c) x (shutdown c).

Definition set_shutdown (c : Client C) (x : bool) : Client C :=
  mkClient (cc c) (opt c) (header c) (seq c) (pending c) (closing c) x.

Definition with_client (w : World C) (c : Client C) : World C :=
  mkWorld c (calls w) (chans w).

(** [call.Seq = x], [call.Reply = x], [call.Error = x] through the pointer. *)
Definition set_Seq (x : Z) (c : Call) : Call :=
  mkCall x (ServiceMethod c) (Args c) (Reply c) (Error c) (Done c).

Definition set_Reply (x : option Value) (c : Call) : Call :=
  mkCall (Seq c) (ServiceMethod c) (Args c) x (Error c) (Done c).

Definition set_Error (x : option error) (c : Call) : Call :=
  mkCall (Seq c) (ServiceMethod c) (Args c) (Reply c) x (Done c).

Definition update_call (w : World C) (p : nat) (f : Call → Call) : World C :=
  mkWorld (client w) (alter f p (calls w)) (chans w).

(** [call.done()]: [call.Done <- call] *)
Definition done (w : World C) (p : nat) : World C :=
  match calls w !! p with
  | Some c =>
      mkWorld (client w) (calls w)
              (alter (λ ch, mkChan (cap ch) (sent ch ++ [p])) (Done c) (chans w))
  | None => w
  end.

(** [Close] *)
Definition Close (w : World C) : World C * option error :=
  if closing (client w) then (w, Some ErrShutdown)
  else
    let c1 := set_closing (client w) true in
    let '(cc', e) := codec.Close (cc c1) in
    (with_client w (set_cc c1 cc'), e).

(** [IsAvailable] *)
Definition IsAvailable (w : World C) : bool :=
  negb (shutdown (client w)) && negb (closing (client w)).

(** [registerCall] *)
Definition registerCall (w : World C) (call : nat) : World C * (Z * option error) :=
  if closing (client w) || shutdown (client w) then (w, (0, Some ErrShutdown))
  else
    let s := seq (client w) in
    let w1 := update_call w call (set_Seq s) in
    let c2 := set_pending (client w1) (<[s := call]> (pending (client w1))) in
    let c3 := set_seq c2 (wrap64 (seq c2 + 1)) in
    (with_client w1 c3, (s, None)).

(** [removeCall] *)
Definition removeCall (w : World C) (s : Z) : World C * option nat :=
  let call := pending (client w) !! s in
  (with_client w (set_pending (client w) (delete s (pending (client w)))), call).

(** [terminateCalls]: the calls of [pending] in some order. *)
Definition terminateCalls (w : World C) (err : error) : World C :=
  let w1 := with_client w (set_shutdown (client w) true) in
  foldl (λ w' sp, done (update_call w' sp.2 (set_Error (Some err))) sp.2)
        w1 (map_to_list (pending (client w1))).

(** [send] *)
Definition send (w : World C) (call : nat) : World C :=
  match registerCall w call with
  | (w1, (_, Some err)) => done (update_call w1 call (set_Error (Some err))) call
  | (w1, (s, None)) =>
      let sm := default "" (ServiceMethod <$> calls w1 !! call) in
      let args := default VNil (Args <$> calls w1 !! call) in
      let hd := codec.mkHeader sm s "" in
      let c2 := set_header (client w1) hd in
      match codec.Write (cc c2) hd args with
      | (cc', Some err) =>
          match removeCall (with_client w1 (set_cc c2 cc')) s with
          | (w3, Some call') =>
              done (update_call w3 call' (set_Error (Some err))) call'
          | (w3, None) => w3
          end
      | (cc', None) => with_client w1 (set_cc c2 cc')
      end
  end.

(** One turn of the loop of [receive]: the state and the [err] the loop
    tests next. *)
Definition receive_turn (w : World C) : World C * option error :=
  match codec.ReadHeader (cc (client w)) with
  | (cc1, inr err) => (with_client w (set_cc (client w) cc1), Some err)
  | (cc1, inl hd) =>
      match removeCall (with_client w (set_cc (client w) cc1)) (codec.Seq hd) with
      | (w1, None) =>
          let '(cc2, _, err) := codec.ReadBody (cc (client w1)) None in
          (with_client w1 (set_cc (client w1) cc2), err)
      | (w1, Some call) =>
          if bool_decide (codec.Error hd ≠ "") then
            let w2 := update_call w1 call
                        (set_Error (Some (errors_New (fmt_Sprintf (codec.Error hd))))) in
            let '(cc2, _, err) := codec.ReadBody (cc (client w2)) None in
            (done (with_client w2 (set_cc (client w2) cc2)) call, err)
          else
            let dest := calls w1 !! call ≫= Reply in
            let '(cc2, v, err) := codec.ReadBody (cc (client w1)) dest in
            let w2 := update_call (with_client w1 (set_cc (client w1) cc2)) call
                        (set_Reply v) in
            let w3 := match err with
                      | Some e =>
                          update_call w2 call
                            (set_Error (Some (errors_New ("reading body " +:+ Error_text e))))
                      | None => w2
                      end in
            (done w3 call, err)
      end
  end.

(** The loop of [receive]: the state and the error it stops on. *)
Fixpoint receive_loop (fuel : nat) (w : World C) : result (World C * error) :=
  match fuel with
  | O => OutOfFuel
  | S fuel' =>
      match receive_turn w with
      | (w', Some err) => Ok (w', err)
      | (w', None) => receive_loop fuel' w'
      end
  end.

(** [receive] *)
Definition receive (fuel : nat) (w : World C) : result (World C) :=
  match receive_loop fuel w with
  | Ok (w', err) => Ok (terminateCalls w' err)
  | Panicked msg => Panicked msg
  | OutOfFuel => OutOfFuel
  end.

(** [cap(done)]; an index that is no channel of the store has no buffer. *)
Definition cap_of (w : World C) (ch : nat) : nat :=
  default O (cap <$> chans w !! ch).

(** The first half of [Go]: the channel is checked or made and the [Call]
    built.  [done_] is [None] for a [nil] channel; [log.Panic] ends the
    entry point. *)
Definition Go_call (w : World C) (serviceMethod : string) (args : Value)
    (reply : option Value) (done_ : option nat) : result (World C * nat) :=
  let made :=
    match done_ with
    | None =>
        Ok (mkWorld (client w) (calls w) (chans w ++ [mkChan 10 []]), length (chans w))
    | Some ch =>
        if bool_decide (cap_of w ch = O)
        then Panicked "rpc client: done channel is unbuffered"
        else Ok (w, ch)
    end in
  match made with
  | Ok (w1, ch) =>
      Ok (mkWorld (client w1)
                  (calls w1 ++ [mkCall 0 serviceMethod args reply None ch])
                  (chans w1),
          length (calls w1))
  | Panicked msg => Panicked msg
  | OutOfFuel => OutOfFuel
  end.

(** [Go]: the state and the call returned. *)
Definition Go (w : World C) (serviceMethod : string) (args : Value)
    (reply : option Value) (done_ : option nat) : result (World C * nat) :=
  match Go_call w serviceMethod args reply done_ with
  | Ok (w2, call) => Ok (send w2 call, call)
  | Panicked msg => Panicked msg
  | OutOfFuel => OutOfFuel
  end.

(** [newClientCodec]; the [receive] it starts runs as steps of its own. *)
Definition newClientCodec (c : C) (o : Option) : World C :=
  mkWorld (mkClient c o codec.zeroHeader 1 ∅ false false) [] [].

(** *** Runs of a client

    The steps the goroutines of a program take on one client: a caller
    invokes [Go] or [Close] or makes a channel; the goroutine of [receive]
    takes a turn of its loop or, once a turn has ended in an error, runs
    [terminateCalls], after which it takes no step ([shutdown] is set by
    [terminateCalls] alone).  Callers may step between the failed turn and
    [terminateCalls].  A [Go] that panics changes nothing. *)
Inductive Op : Type :=
  | OpGo (serviceMethod : string) (args : Value) (reply : option Value)
         (done_ : option nat)
  | OpMake (n : nat)
  | OpReceive
  | OpClose.

Definition step (r : Running C) (o : Op) : Running C :=
  let w := world r in
  match o with
  | OpGo sm a rp d =>
      match Go w sm a rp d with
      | Ok (w', _) => mkRunning w' (leaving r)
      | _ => r
      end
  | OpMake n =>
      mkRunning (mkWorld (client w) (calls w) (chans w ++ [mkChan n []])) (leaving r)
  | OpReceive =>
      if shutdown (client w) then r
      else match leaving r with
           | Some err => mkRunning (terminateCalls w err) None
           | None => let '(w', err) := receive_turn w in mkRunning w' err
           end
  | OpClose => mkRunning (fst (Close w)) (leaving r)
  end.

Definition run (r : Running C) (ops : list Op) : Running C := foldl step r ops.

(** A client whose loop of [receive] is at work. *)
Definition start (w : World C) : Running C := mkRunning w None.

(** The sequence number [registerCall] hands out in a step, if any. *)
Definition registered (w : World C) (o : Op) : list Z :=
  match o with
  | OpGo sm a r d =>
      match Go_call w sm a r d with
      | Ok (w2, call) =>
          match registerCall w2 call with
          | (_, (s, None)) => [s]
          | _ => []
          end
      | _ => []
      end
  | _ => []
  end.

(** The sequence numbers handed out along a run, in order. *)
Fixpoint issued (r : Running C) (ops : list Op) : list Z :=
  match ops with
  | [] => []
  | o :: ops' => registered (world r) o ++ issued (step r o) ops'
  end.

(** How many times call [p] was sent on its channel. *)
Definition completions (w : World C) (p : nat) : nat :=
  match calls w !! p with
  | Some c =>
      match chans w !! Done c with
      | Some ch => count_occ Nat.eq_dec (sent ch) p
      | None => O
      end
  | None => O
  end.

(** The shape of the stores a run keeps: the channel of every call is a
    channel of the store, the calls sent on a channel are calls of the
    store, and a pending entry points to a call that carries its key. *)
Record well_formed (w : World C) : Prop := mk_well_formed {
  wf_done : ∀ p c, calls w !! p = Some c → (Done c < length (chans w))%nat;
  wf_sent : ∀ i ch q, chans w !! i = Some ch → q ∈ sent ch → (q < length (calls w))%nat;
  wf_pending : ∀ s p, pending (client w) !! s = Some p →
                 ∃ c, calls w !! p = Some c ∧ Seq c = s;
}.

(** No call was signalled twice, and as long as the client is not shut down
    no pending call was signalled. *)
Record signalled_once (w : World C) : Prop := mk_signalled_once {
  so_most : ∀ p, (completions w p ≤ 1)%nat;
  so_pending : shutdown (client w) = false →
               ∀ s p, pending (client w) !! s = Some p → completions w p = O;
}.

(** No pending entry points to [p]. *)
Definition unregistered (w : World C) (p : nat) : Prop :=
  ∀ s, pending (client w) !! s ≠ Some p.

(** Updates of a call that leave its channel, or its sequence number, alone. *)
Definition keeps_Done (f : Call → Call) : Prop := ∀ c, Done (f c) = Done c.

Definition keeps_Seq (f : Call → Call) : Prop := ∀ c, Seq (f c) = Seq c.

End Client.

(** [parseOptions]: [None] in the list is a [nil] pointer.  The option given
    is updated in place and returned.  The test of [opts[0] == nil] comes
    before that of the length, as in the source. *)
Definition parseOptions (opts : list (option Option)) : option Option * option error :=
  match opts with
  | [] | None :: _ => (Some DefaultOption, None)
  | Some o :: rest =>
      if bool_decide (length opts ≠ 1%nat)
      then (None, Some (errors_New "number of options is more than 1"))
      else
        let o1 := mkOption (Option_MagicNumber DefaultOption) (CodecType o) in
        let o2 := if bool_decide (CodecType o1 = "")
                  then mkOption (Option_MagicNumber o1) (CodecType DefaultOption)
                  else o1 in
        (Some o2, None)
  end.

(** [NewClient]: on failure the connection is what is left of it. *)
Definition NewClient (conn : codec.Conn) (o : Option)
  : (World codec.GobCodec + codec.Conn) * option error :=
  match codec.NewCodecFuncMap !! CodecType o with
  | None =>
      (inr conn, Some (errors_New ("invalid codec type " +:+ CodecType o)))
  | Some f =>
      match json_Encode conn o with
      | (conn1, Some err) => (inr (fst (codec.conn_Close conn1)), Some err)
      | (conn1, None) => (inl (newClientCodec (f conn1) o), None)
      end
  end.

(** [Dial], given what [net.Dial] returned. *)
Definition Dial (dialed : codec.Conn + error) (opts : list (option Option))
  : (World codec.GobCodec + option codec.Conn) * option error :=
  match parseOptions opts with
  | (_, Some err) => (inr None, Some err)
  | (None, None) => (inr None, None)
  | (Some o, None) =>
      match dialed with
      | inr err => (inr None, Some err)
      | inl conn =>
          match NewClient conn o with
          | (inl w, _) => (inl w, None)
          | (inr conn', err) =>
              (inr (Some (fst (codec.conn_Close conn'))), err)
          end
      end
  end.

(** ** What the peers of a connection see *)

(** The items [serveCodec] writes back on a stream of requests: a header is
    answered with the same header and the reply of the placeholder handler,
    the item after the header is taken as its body, and the first item that
    is no header ends the service. *)
Fixpoint expected_responses (inp : list codec.Item) : list codec.Item :=
  match inp with
  | codec.WHeader hd :: rest =>
      codec.WHeader hd :: codec.WBody (placeholder_reply (codec.Seq hd))
      :: match rest with
         | [] => []
         | _ :: rest' => expected_responses rest'
         end
  | _ => []
  end.

(** The items [serveCodec] leaves unread: those after the item that ended
    the service. *)
Fixpoint left_unread (inp : list codec.Item) : list codec.Item :=
  match inp with
  | codec.WHeader hd :: rest =>
      match rest with
      | [] => []
      | _ :: rest' => left_unread rest'
      end
  | [] => []
  | _ :: rest => rest
  end.

(** The stream of a list of requests, and the stream of the answers the
    placeholder handler gives to them. *)
Definition request_stream (reqs : list (codec.Header * Value)) : list codec.Item :=
  reqs ≫= λ r, [codec.WHeader r.1; codec.WBody r.2].

Definition response_stream (reqs : list (codec.Header * Value)) : list codec.Item :=
  reqs ≫= λ r, [codec.WHeader r.1; codec.WBody (placeholder_reply (codec.Seq r.1))].

(** The peer writes [items]: they arrive after what is still to be read. *)
Definition conn_deliver (c : codec.Conn) (items : list codec.Item) : codec.Conn :=
  codec.mkConn (codec.input c ++ items) (codec.output c) (codec.closed c).

Definition deliver (w : World codec.GobCodec) (items : list codec.Item)
  : World codec.GobCodec :=
  mkWorld (mkClient (codec.mkGobCodec (conn_deliver (codec.conn (cc (client w))) items)
                                      (codec.buf (cc (client w))))
                    (opt (client w)) (header (client w)) (seq (client w))
                    (pending (client w)) (closing (client w)) (shutdown (client w)))
          (calls w) (chans w).

(** A gob codec on an open connection with nothing buffered. *)
Definition healthy (c : codec.GobCodec) : Prop :=
  codec.closed (codec.conn c) = false
  ∧ codec.buf c = codec.mkWriter [] None.

(** The stream of a list of answers, each a header and a string. *)
Definition answer_items (answers : list (codec.Header * string)) : list codec.Item :=
  answers ≫= λ a, [codec.WHeader a.1; codec.WBody (VString a.2)].

(** What is still to be read on the connection of a client. *)
Definition unread (w : World codec.GobCodec) : list codec.Item :=
  codec.input (codec.conn (cc (client w))).

(** The requests a run of [Go] calls puts on the wire, the first numbered
    [s]: [send] writes the header with the number of [registerCall], then
    the argument, and [registerCall] counts up with wrap-around. *)
Fixpoint request_items (s : Z) (reqs : list (string * Value * option Value))
  : list codec.Item :=
  match reqs with
  | [] => []
  | r :: rest =>
      codec.WHeader (codec.mkHeader r.1.1 s "") :: codec.WBody r.1.2
      :: request_items (wrap64 (s + 1)) rest
  end.

(** The answers of the server to these requests. *)
Fixpoint session_answers (s : Z) (reqs : list (string * Value * option Value))
  : list (codec.Header * string) :=
  match reqs with
  | [] => []
  | r :: rest =>
      (codec.mkHeader r.1.1 s "", "geerpc resp " +:+ pretty s)
      :: session_answers (wrap64 (s + 1)) rest
  end.

Section ClientCall.

Context {C : Type} `{!codec.Codec C}.

(** The first half of [Call]: a channel of capacity 1 is made and handed to
    [Go], which cannot panic on it. *)
Definition Call_issue (w : World C) (serviceMethod : string) (args : Value)
    (reply : option Value) : World C * nat :=
  let w1 := mkWorld (client w) (calls w) (chans w ++ [mkChan 1 []]) in
  match Go w1 serviceMethod args reply (Some (length (chans w))) with
  | Ok (w2, call) => (w2, call)
  | _ => (w1, length (calls w))
  end.

(** The second half of [Call]: [call := <-done] takes the first call sent on
    the channel and [Call] returns its [Error]; [None] while nothing was
    sent, when [Call] waits. *)
Definition Call_return (w : World C) (call : nat) : option (option error) :=
  match calls w !! call ≫= (λ c, chans w !! Done c) with
  | Some ch =>
      match sent ch with
      | q :: _ => Error <$> calls w !! q
      | [] => None
      end
  | None => None
  end.

(** The calls that were created with channel [i]. *)
Definition users (w : World C) (i : nat) : list nat :=
  filter (λ q, Done <$> calls w !! q = Some i) (List.seq 0%nat (length (calls w))).

(** A call is only ever sent on its own channel. *)
Definition sent_on_own_channel (w : World C) : Prop :=
  ∀ i ch q, chans w !! i = Some ch → q ∈ sent ch →
            Done <$> calls w !! q = Some i.

(** Every call of the store was signalled once or is still pending. *)
Definition accounted (w : World C) : Prop :=
  ∀ p, (p < length (calls w))%nat →
    completions w p = 1%nat
    ∨ (shutdown (client w) = false ∧ ∃ s, pending (client w) !! s = Some p).

(** The keys of the registry are sequence numbers already handed out. *)
Definition keys_below (w : World C) : Prop :=
  ∀ s p, pending (client w) !! s = Some p → 0 ≤ s < seq (client w).

End ClientCall.

(** ** Sample data on which the definitions are run *)

(** A gob that encodes everything but func values. *)
Definition gob_plain (v : Value) : option error :=
  match v with
  | VFunc _ => Some (errors_New "gob: unsupported type func()")
  | _ => None
  end.

Definition open_conn (inp : list codec.Item) : codec.Conn :=
  codec.mkConn inp [] false.

Definition hdr (s : Z) (e : string) : codec.Header := codec.mkHeader "Foo.Sum" s e.

#[local] Instance sample_codec : codec.Codec codec.GobCodec :=
  codec.GobCodec_Codec gob_plain.

(** [fmt.Sprintf] on formats that hold no verb. *)
Definition fmt_plain (format : string) : string := format.

(** A new client on a connection that will deliver [inp]. *)
Definition sample_client (inp : list codec.Item) : World codec.GobCodec :=
  newClientCodec (codec.NewGobCodec (open_conn inp)) DefaultOption.

Definition go (n : Z) : Op := OpGo "Foo.Sum" (VInt n) (Some (VString "")) None.

(** The same client after two calls, numbered 1 and 2, both pending. *)
Definition sample_pending (inp : list codec.Item) : World codec.GobCodec :=
  world (run fmt_plain (start (sample_client inp)) [go 1; go 2]).

(** [w] with a third call built by [Go] whose argument is a func value, before
    [send] runs. *)
Definition Go_call_world (w : World codec.GobCodec) : World codec.GobCodec :=
  match Go_call w "Foo.Sum" (VFunc "f") None None with
  | Ok (w2, _) => w2
  | _ => w
  end.

(** Two calls, and a new client after them. *)
Definition sample_requests : list (string * Value * option Value) :=
  [("Foo.Sum", VInt 1, Some (VString "")); ("Foo.Cat", VString "x", Some (VString ""))].

Definition sample_session : World codec.GobCodec :=
  world (run fmt_plain (start (sample_client []))
           ((λ r, OpGo r.1.1 r.1.2 r.2 None) <$> sample_requests)).

(** * Properties *)

(** ** The gob codec *)

Section GobProperties.

Variable gob_refuses : Value → option error.

Lemma buf_Flush_flushed (c : codec.GobCodec) :
  codec.werr (codec.buf (codec.buf_Flush c).1) = None →
  codec.buffered (codec.buf (codec.buf_Flush c).1) = [].
Proof.
  unfold codec.buf_Flush.
  destruct (codec.werr (codec.buf c)) as [e|] eqn:Hw; [simpl; congruence|].
  destruct (codec.buffered (codec.buf c)) as [|it p] eqn:Hb; [done|].
  unfold codec.conn_Write. destruct (codec.closed (codec.conn c)); simpl; [discriminate|done].
Qed.

Lemma buf_Flush_output (c : codec.GobCodec) :
  codec.closed (codec.conn c) = false →
  codec.werr (codec.buf c) = None →
  codec.output (codec.conn (codec.buf_Flush c).1)
    = codec.output (codec.conn c) ++ codec.buffered (codec.buf c)
  ∧ codec.closed (codec.conn (codec.buf_Flush c).1) = false.
Proof.
  intros Hc Hw. unfold codec.buf_Flush. rewrite Hw.
  destruct (codec.buffered (codec.buf c)) as [|it p] eqn:Hb.
  - simpl. by rewrite app_nil_r.
  - unfold codec.conn_Write. rewrite Hc. done.
Qed.

Lemma GobCodec_Close_closed (c : codec.GobCodec) :
  codec.closed (codec.conn (codec.GobCodec_Close c).1) = true
  ∧ codec.output (codec.conn (codec.GobCodec_Close c).1) = codec.output (codec.conn c)
  ∧ codec.buf (codec.GobCodec_Close c).1 = codec.buf c.
Proof. done. Qed.

(** C8.  [Write] of the gob codec returns [nil] only if the encoding of the
    header and the encoding of the body both succeeded (and then it does);
    on every path the buffer is flushed before [Write] returns, so that
    nothing stays buffered in a healthy writer and, on an open connection,
    everything that was encoded has reached the connection; and when an
    encoding failed the codec is closed, after the flush, when the error is
    returned. *)
Theorem GobCodec_Write_flushes_and_closes
    (c : codec.GobCodec) (hd : codec.Header) (body : Value) :
  let r := codec.GobCodec_Write gob_refuses c hd body in
  let eh := codec.enc_Encode_header c hd in
  let eb := codec.enc_Encode_body gob_refuses eh.1 body in
  let enc := if eh.2 is Some _ then eh else eb in
  (r.2 = None ↔ eh.2 = None ∧ eb.2 = None)
  ∧ r.2 = enc.2
  ∧ r.1 = (if enc.2 is Some _
           then (codec.GobCodec_Close (codec.buf_Flush enc.1).1).1
           else (codec.buf_Flush enc.1).1)
  ∧ (codec.werr (codec.buf r.1) = None → codec.buffered (codec.buf r.1) = [])
  ∧ (codec.closed (codec.conn c) = false → codec.werr (codec.buf c) = None →
       codec.output (codec.conn r.1)
       = codec.output (codec.conn c) ++ codec.buffered (codec.buf c)
           ++ codec.WHeader hd :: (if gob_refuses body is Some _ then []
                                   else [codec.WBody body]))
  ∧ (r.2 ≠ None → codec.closed (codec.conn r.1) = true).
Proof.
  intros r eh eb enc.
  assert (Hr : r = (if enc.2 is Some _
                    then (codec.GobCodec_Close (codec.buf_Flush enc.1).1).1
                    else (codec.buf_Flush enc.1).1, enc.2)).
  { subst r enc eb eh. unfold codec.GobCodec_Write.
    destruct (codec.enc_Encode_header c hd) as [c1 [e1|]]; [done|].
    simpl. by destruct (codec.enc_Encode_body gob_refuses c1 body) as [c2 [e2|]]. }
  rewrite Hr. clear Hr r. simpl.
  split; [|split; [done|split; [done|]]].
  { subst enc. destruct (eh.2) as [e1|] eqn:E.
    - rewrite E. split; [discriminate | intros [? _]; discriminate].
    - split; [done | by intros [_ ?]]. }
  assert (Hflushed : ∀ c', codec.werr (codec.buf (codec.buf_Flush c').1) = None →
            codec.buffered (codec.buf (codec.buf_Flush c').1) = [])
    by apply buf_Flush_flushed.
  split; [|split].
  - destruct (enc.2); [|by apply Hflushed].
    intros Hw. apply (Hflushed enc.1), Hw.
  - intros Hc Hw. subst enc eb eh.
    unfold codec.enc_Encode_header, codec.enc_Encode_body, codec.buf_Write.
    rewrite Hw. simpl.
    destruct (gob_refuses body) as [e|]; simpl.
    + set (c1 := codec.mkGobCodec _ _).
      destruct (buf_Flush_output c1 Hc eq_refl) as [Ho _].
      by rewrite Ho.
    + set (c1 := codec.mkGobCodec _ _).
      destruct (buf_Flush_output c1 Hc eq_refl) as [Ho _].
      rewrite Ho. simpl. by rewrite <- app_assoc.
  - destruct (enc.2); [|done]. intros _.
    apply GobCodec_Close_closed.
Qed.

End GobProperties.

(** ** The server *)

Section ServerProperties.

Context {C : Type} `{!codec.Codec C}.

(** X3.  [readRequest] returns no request or no error, never both: the
    branch of [serveCodec] that answers with [invalidRequest] is not taken. *)
Theorem readRequest_request_or_error (cc : C) :
  (readRequest cc).1.2 = None ∨ (readRequest cc).2 = None.
Proof.
  unfold readRequest, readRequestHeader.
  destruct (codec.ReadHeader cc) as [cc1 [hd|e]]; [|by left].
  destruct (codec.ReadBody cc1 (Some (VString ""))) as [[cc2 v] e]. by right.
Qed.

(** A body that fails to decode leaves [readRequest] returning the request
    and no error, whatever the error of [ReadBody] was. *)
Lemma readRequest_body_error (cc cc1 cc2 : C) (hd : codec.Header)
    (v : option Value) (e : option error) :
  codec.ReadHeader cc = (cc1, inl hd) →
  codec.ReadBody cc1 (Some (VString "")) = (cc2, v, e) →
  readRequest cc = (cc2, Some (mkRequest hd (default (VString "") v) None), None).
Proof.
  intros Hh Hb. unfold readRequest, readRequestHeader. by rewrite Hh, Hb.
Qed.

(** So the request is handled as any other: its answer is the header as it
    was read, with the placeholder reply. *)
Lemma serveCodec_body_error (fuel : nat) (cc cc1 cc2 : C) (hd : codec.Header)
    (v : option Value) (e : option error) :
  codec.ReadHeader cc = (cc1, inl hd) →
  codec.ReadBody cc1 (Some (VString "")) = (cc2, v, e) →
  serveCodec (S fuel) cc
  = serveCodec fuel (codec.Write cc2 hd (placeholder_reply (codec.Seq hd))).1.
Proof.
  intros Hh Hb. simpl. by rewrite (readRequest_body_error _ _ _ _ _ _ Hh Hb).
Qed.

End ServerProperties.

Section ServeConnProperties.

Variable gob_refuses : Value → option error.

Lemma NewCodecFuncMap_lookup (t : string) :
  codec.NewCodecFuncMap !! t
  = if decide (t = codec.GobType) then Some codec.NewGobCodec else None.
Proof.
  unfold codec.NewCodecFuncMap. destruct (decide (t = codec.GobType)) as [->|Hne].
  - apply lookup_singleton_eq.
  - by apply lookup_singleton_ne.
Qed.

Lemma json_Decode_output (conn : codec.Conn) :
  codec.output (json_Decode conn).1 = codec.output conn.
Proof.
  unfold json_Decode, codec.conn_Read.
  destruct (codec.closed conn); [done|].
  destruct (codec.input conn) as [|[m t|hd|v|] rest]; try done.
  simpl. by case_bool_decide.
Qed.

(** C4.  When the Option record fails to decode, or its magic number is not
    [0x3bef5c], or no codec constructor is registered for its codec type,
    [ServeConn] returns, whatever the fuel, with the connection closed and
    with nothing written on it. *)
Theorem ServeConn_rejects_without_response (fuel : nat) (conn : codec.Conn) :
  ((∃ e, (json_Decode conn).2 = inr e)
   ∨ (∃ o, (json_Decode conn).2 = inl o
           ∧ (Option_MagicNumber o ≠ MagicNumber
              ∨ codec.NewCodecFuncMap !! CodecType o = None))) →
  ∃ conn', ServeConn gob_refuses fuel conn = Ok conn'
           ∧ codec.closed conn' = true
           ∧ codec.output conn' = codec.output conn.
Proof.
  intros Hrej. pose proof (json_Decode_output conn) as Hout.
  unfold ServeConn. destruct (json_Decode conn) as [conn1 [o|e]]; simpl in *.
  - destruct Hrej as [[e He]|[o' [Ho Hbad]]]; [done|].
    injection Ho as <-.
    case_bool_decide as Hm; [by eexists|].
    destruct Hbad as [Hbad|Hbad]; [done|]. rewrite Hbad. by eexists.
  - by eexists.
Qed.

End ServeConnProperties.

(** The three ways of C4 on connections that run. *)
Lemma ServeConn_rejects_without_response_witness :
  (∃ conn', ServeConn gob_plain 0 (open_conn [codec.WJunk; codec.WHeader (hdr 1 "")])
            = Ok conn'
            ∧ codec.closed conn' = true ∧ codec.output conn' = [])
  ∧ (∃ conn', ServeConn gob_plain 5
                (open_conn [codec.WJson 0x3bef5d codec.GobType; codec.WHeader (hdr 1 "");
                            codec.WBody (VString "a")])
              = Ok conn'
              ∧ codec.closed conn' = true ∧ codec.output conn' = [])
  ∧ (∃ conn', ServeConn gob_plain 5
                (open_conn [codec.WJson MagicNumber codec.JsonType;
                            codec.WHeader (hdr 1 ""); codec.WBody (VString "a")])
              = Ok conn'
              ∧ codec.closed conn' = true ∧ codec.output conn' = []).
Proof.
  split; [|split].
  - apply (ServeConn_rejects_without_response gob_plain 0
             (open_conn [codec.WJunk; codec.WHeader (hdr 1 "")])).
    left. eexists. reflexivity.
  - apply (ServeConn_rejects_without_response gob_plain 5
             (open_conn [codec.WJson 0x3bef5d codec.GobType; codec.WHeader (hdr 1 "");
                         codec.WBody (VString "a")])).
    right. eexists. split; [reflexivity|]. left. vm_compute. discriminate.
  - apply (ServeConn_rejects_without_response gob_plain 5
             (open_conn [codec.WJson MagicNumber codec.JsonType;
                         codec.WHeader (hdr 1 ""); codec.WBody (VString "a")])).
    right. eexists. split; [reflexivity|]. right. vm_compute. reflexivity.
Defined.

(** C1 (what the code does).  A connection carries a valid handshake, a
    request whose body is an integer where the server decodes a string, and a
    second, well-formed request.  The first request is answered with its
    header as sent, the error field empty, and the reply of the placeholder
    handler, not with an error and [invalidRequest]; the second request is
    answered too. *)
Theorem ServeConn_body_error_answered_as_success :
  ServeConn gob_plain 3
    (open_conn [codec.WJson MagicNumber codec.GobType;
                codec.WHeader (hdr 1 ""); codec.WBody (VInt 3);
                codec.WHeader (hdr 2 ""); codec.WBody (VString "x")])
  = Ok (codec.mkConn []
          [codec.WHeader (hdr 1 ""); codec.WBody (VString "geerpc resp 1");
           codec.WHeader (hdr 2 ""); codec.WBody (VString "geerpc resp 2")]
          true).
Proof. vm_compute. reflexivity. Qed.

(** ** The client: stores and signals *)

Section ClientProperties.

Context {C : Type} `{!codec.Codec C}.

Variable fmt_Sprintf : string → string.

Implicit Types (w : World C) (p q : nat) (c : Call).

Lemma set_Seq_keeps_Done (x : Z) : keeps_Done (set_Seq x).
Proof. done. Qed.

Lemma set_Reply_keeps_Done (x : option Value) : keeps_Done (set_Reply x).
Proof. done. Qed.

Lemma set_Error_keeps_Done (x : option error) : keeps_Done (set_Error x).
Proof. done. Qed.

#[local] Hint Resolve set_Seq_keeps_Done set_Reply_keeps_Done set_Error_keeps_Done : core.

Lemma update_call_lookup w p f q :
  calls (update_call w p f) !! q
  = if decide (p = q) then f <$> calls w !! q else calls w !! q.
Proof.
  unfold update_call. simpl. rewrite list_lookup_alter.
  by destruct (decide (p = q)) as [->|].
Qed.

Lemma update_call_length w p f :
  length (calls (update_call w p f)) = length (calls w).
Proof. apply length_alter. Qed.

Lemma completions_update_call w p f q :
  keeps_Done f → completions (update_call w p f) q = completions w q.
Proof.
  intros Hf. unfold completions. rewrite update_call_lookup. simpl.
  destruct (decide (p = q)) as [->|]; [|done].
  destruct (calls w !! q) as [c|]; simpl; [|done]. by rewrite Hf.
Qed.

Lemma done_calls w p : calls (done w p) = calls w.
Proof. unfold done. by destruct (calls w !! p). Qed.

Lemma done_client w p : client (done w p) = client w.
Proof. unfold done. by destruct (calls w !! p). Qed.

Lemma done_chans_length w p : length (chans (done w p)) = length (chans w).
Proof. unfold done. destruct (calls w !! p); [apply length_alter|done]. Qed.

Lemma done_cap w p i : cap <$> chans (done w p) !! i = cap <$> chans w !! i.
Proof.
  unfold done. destruct (calls w !! p) as [c|]; [|done]. simpl.
  rewrite list_lookup_alter. destruct (decide (Done c = i)) as [<-|]; [|done].
  by destruct (chans w !! Done c).
Qed.

(** A signal is one more delivery of [p] on its channel, and of nothing else. *)
Lemma completions_done w p q c :
  calls w !! p = Some c → (Done c < length (chans w))%nat →
  completions (done w p) q
  = (completions w q + if decide (q = p) then 1 else 0)%nat.
Proof.
  intros Hp Hlt. destruct (lookup_lt_is_Some_2 _ _ Hlt) as [ch Hch].
  unfold completions, done. rewrite Hp. simpl.
  destruct (decide (q = p)) as [->|Hne].
  - rewrite Hp, list_lookup_alter_eq, Hch. simpl.
    rewrite count_occ_app. simpl. by destruct (Nat.eq_dec p p).
  - destruct (calls w !! q) as [cq|]; [|done].
    destruct (decide (Done c = Done cq)) as [Heq|Hd].
    + rewrite <- Heq, list_lookup_alter_eq, Hch. simpl.
      rewrite count_occ_app. simpl. destruct (Nat.eq_dec p q); [congruence|lia].
    + rewrite list_lookup_alter_ne by done. destruct (chans w !! Done cq); lia.
Qed.

(** *** Close and IsAvailable *)

Lemma Close_first w :
  closing (client w) = false →
  Close w
  = (with_client w (set_cc (set_closing (client w) true)
                           (codec.Close (cc (client w))).1),
     (codec.Close (cc (client w))).2).
Proof.
  intros Hc. unfold Close. rewrite Hc. simpl.
  by destruct (codec.Close (cc (client w))).
Qed.

Lemma Close_again w :
  closing (client w) = true → Close w = (w, Some ErrShutdown).
Proof. intros Hc. unfold Close. by rewrite Hc. Qed.

Lemma Close_closing w : closing (client (Close w).1) = true.
Proof.
  unfold Close. destruct (closing (client w)) eqn:Hc; [done|].
  simpl. by destruct (codec.Close (cc (client w))).
Qed.

(** *** What each operation does to the counter and the flags *)

Lemma terminateCalls_fold_client (err : error) (l : list (Z * nat)) w :
  client (foldl (λ w' sp, done (update_call w' sp.2 (set_Error (Some err))) sp.2) w l)
  = client w.
Proof.
  revert w. induction l as [|sp l IH]; intros w; [done|].
  simpl. rewrite IH. by rewrite done_client.
Qed.

Lemma terminateCalls_client w (err : error) :
  client (terminateCalls w err) = set_shutdown (client w) true.
Proof. unfold terminateCalls. by rewrite terminateCalls_fold_client. Qed.

Lemma registerCall_rejected w p :
  closing (client w) = true ∨ shutdown (client w) = true →
  registerCall w p = (w, (0, Some ErrShutdown)).
Proof.
  intros Hf. unfold registerCall.
  by destruct Hf as [-> | ->]; [|rewrite orb_true_r].
Qed.

Lemma registerCall_accepted w p :
  closing (client w) = false → shutdown (client w) = false →
  registerCall w p
  = (mkWorld (set_seq (set_pending (client w) (<[seq (client w) := p]> (pending (client w))))
                      (wrap64 (seq (client w) + 1)))
             (alter (set_Seq (seq (client w))) p (calls w)) (chans w),
     (seq (client w), None)).
Proof. intros Hc Hs. unfold registerCall. by rewrite Hc, Hs. Qed.

Lemma send_rejected w p :
  closing (client w) = true ∨ shutdown (client w) = true →
  send w p = done (update_call w p (set_Error (Some ErrShutdown))) p.
Proof. intros Hf. unfold send. by rewrite (registerCall_rejected _ _ Hf). Qed.

Lemma send_client w p :
  closing (client (send w p)) = closing (client w)
  ∧ shutdown (client (send w p)) = shutdown (client w)
  ∧ opt (client (send w p)) = opt (client w)
  ∧ seq (client (send w p))
    = if closing (client w) || shutdown (client w) then seq (client w)
      else wrap64 (seq (client w) + 1).
Proof.
  unfold send, registerCall.
  destruct (closing (client w) || shutdown (client w)) eqn:Hf.
  - by rewrite done_client.
  - simpl. destruct (codec.Write _ _ _) as [cc' [e|]]; simpl; [|done].
    destruct (_ !! seq (client w)); [by rewrite done_client|done].
Qed.

Lemma receive_turn_client w :
  closing (client (receive_turn fmt_Sprintf w).1) = closing (client w)
  ∧ shutdown (client (receive_turn fmt_Sprintf w).1) = shutdown (client w)
  ∧ opt (client (receive_turn fmt_Sprintf w).1) = opt (client w)
  ∧ seq (client (receive_turn fmt_Sprintf w).1) = seq (client w).
Proof.
  unfold receive_turn, removeCall.
  destruct (codec.ReadHeader (cc (client w))) as [cc1 [hd|e]]; [|done]. simpl.
  destruct (pending (client w) !! codec.Seq hd) as [p|]; simpl.
  - case_bool_decide.
    + destruct (codec.ReadBody _ _) as [[cc2 v] e]. simpl. by rewrite done_client.
    + destruct (codec.ReadBody _ _) as [[cc2 v] e]. simpl. rewrite done_client.
      by destruct e.
  - by destruct (codec.ReadBody _ _) as [[cc2 v] e].
Qed.

Lemma Go_call_client w sm a r d w' p :
  Go_call w sm a r d = Ok (w', p) → client w' = client w.
Proof.
  unfold Go_call. intros Hg.
  destruct d as [ch|]; [case_bool_decide|]; simpl in Hg; by inversion Hg.
Qed.

Lemma step_client (r : Running C) (o : Op) :
  (closing (client (world r)) = true →
     closing (client (world (step fmt_Sprintf r o))) = true)
  ∧ (shutdown (client (world r)) = true →
       shutdown (client (world (step fmt_Sprintf r o))) = true)
  ∧ (closing (client (world r)) = false → o ≠ OpClose →
       closing (client (world (step fmt_Sprintf r o))) = false)
  ∧ opt (client (world (step fmt_Sprintf r o))) = opt (client (world r)).
Proof.
  destruct r as [w l]. destruct o as [sm a rp d|n| |]; simpl.
  - unfold Go. destruct (Go_call w sm a rp d) as [[w2 p]| |] eqn:Hg; [|done..].
    simpl. destruct (send_client w2 p) as (-> & -> & -> & _).
    by rewrite (Go_call_client _ _ _ _ _ _ _ Hg).
  - done.
  - destruct (shutdown (client w)) eqn:Hs; [done|].
    destruct l as [err|]; simpl.
    + by rewrite terminateCalls_client.
    + destruct (receive_turn_client w) as (Hc & Hsd & Ho & _).
      destruct (receive_turn fmt_Sprintf w) as [w' e]; simpl in *.
      by rewrite Hc, Ho.
  - split_and!; [intros _; apply Close_closing| |done|].
    + unfold Close. destruct (closing (client w)); [done|]. simpl.
      by destruct (codec.Close (cc (client w))).
    + unfold Close. destruct (closing (client w)); [done|]. simpl.
      by destruct (codec.Close (cc (client w))).
Qed.

Lemma run_closing (r : Running C) (ops : list Op) :
  closing (client (world r)) = true →
  closing (client (world (run fmt_Sprintf r ops))) = true.
Proof.
  revert r. induction ops as [|o ops IH]; intros r Hc; [done|].
  simpl. apply IH. by apply step_client.
Qed.

Lemma run_shutdown (r : Running C) (ops : list Op) :
  shutdown (client (world r)) = true →
  shutdown (client (world (run fmt_Sprintf r ops))) = true.
Proof.
  revert r. induction ops as [|o ops IH]; intros r Hc; [done|].
  simpl. apply IH. by apply step_client.
Qed.

(** Until a caller closes it, a client is not [closing]. *)
Lemma run_not_closing (r : Running C) (ops : list Op) :
  closing (client (world r)) = false → OpClose ∉ ops →
  closing (client (world (run fmt_Sprintf r ops))) = false.
Proof.
  revert r. induction ops as [|o ops IH]; intros r Hc Hno; [done|].
  apply not_elem_of_cons in Hno as [Hne Hno].
  simpl. apply IH; [|done]. by apply step_client.
Qed.

(** C7.  On a client that is not closing, as a new client is and stays
    until [Close] is invoked, [Close] sets [closing], hands the codec to its
    [Close] and returns what that returns; from then on, whatever else
    happens on the client, [Close] returns [ErrShutdown] and changes nothing,
    neither the client nor its codec.  [IsAvailable] is true exactly when
    neither [closing] nor [shutdown] is set. *)
Theorem Close_once_then_ErrShutdown w :
  (closing (client w) = false →
     Close w = (with_client w (set_cc (set_closing (client w) true)
                                      (codec.Close (cc (client w))).1),
                (codec.Close (cc (client w))).2)
     ∧ ∀ l ops, Close (world (run fmt_Sprintf (mkRunning (Close w).1 l) ops))
                = (world (run fmt_Sprintf (mkRunning (Close w).1 l) ops),
                   Some ErrShutdown))
  ∧ (closing (client w) = true → Close w = (w, Some ErrShutdown))
  ∧ (∀ (c0 : C) (o : Option) ops, OpClose ∉ ops →
       closing (client (world (run fmt_Sprintf (start (newClientCodec c0 o)) ops)))
       = false)
  ∧ (IsAvailable w = true
     ↔ closing (client w) = false ∧ shutdown (client w) = false).
Proof.
  split; [|split; [|split]].
  - intros Hc. split; [by apply Close_first|].
    intros l ops. apply Close_again, run_closing, Close_closing.
  - apply Close_again.
  - intros c0 o ops Hno. by apply run_not_closing.
  - unfold IsAvailable.
    destruct (closing (client w)), (shutdown (client w)); simpl;
      (split; [intros ?|intros [? ?]]; done).
Qed.

(** *** The stores stay well formed *)

Lemma set_Reply_keeps_Seq (x : option Value) : keeps_Seq (set_Reply x).
Proof. done. Qed.

Lemma set_Error_keeps_Seq (x : option error) : keeps_Seq (set_Error x).
Proof. done. Qed.

#[local] Hint Resolve set_Reply_keeps_Seq set_Error_keeps_Seq : core.

Lemma update_call_wf w p f :
  keeps_Done f → (keeps_Seq f ∨ unregistered w p) →
  well_formed w → well_formed (update_call w p f).
Proof.
  intros Hd Hs [W1 W2 W3]. split.
  - intros q c. rewrite update_call_lookup. simpl.
    destruct (decide (p = q)) as [->|]; [|apply W1].
    destruct (calls w !! q) as [c'|] eqn:Hq; [|done]. simpl.
    intros [= <-]. rewrite Hd. by eapply W1.
  - intros i ch q Hi Hq. rewrite update_call_length. by eapply W2.
  - intros s q Hq. simpl in Hq. rewrite update_call_lookup.
    destruct (W3 s q Hq) as (c & Hc & Hseq).
    destruct (decide (p = q)) as [->|]; [|by exists c].
    rewrite Hc. simpl. destruct Hs as [Hs|Hs]; [|by destruct (Hs s)].
    exists (f c). by rewrite Hs.
Qed.

Lemma done_wf w p : well_formed w → well_formed (done w p).
Proof.
  intros [W1 W2 W3]. split.
  - intros q c. rewrite done_calls, done_chans_length. apply W1.
  - intros i ch q. rewrite done_calls. unfold done.
    destruct (calls w !! p) as [c|] eqn:Hp; [|apply W2]. simpl.
    rewrite list_lookup_alter.
    destruct (decide (Done c = i)) as [<-|]; [|apply W2].
    destruct (chans w !! Done c) as [ch0|] eqn:Hch; [|done]. simpl.
    intros [= <-]. simpl. rewrite elem_of_app, list_elem_of_singleton.
    intros [Hq| ->]; [by eapply W2|]. by eapply lookup_lt_Some.
  - intros s q. rewrite done_client, done_calls. apply W3.
Qed.

Lemma with_client_wf w (c' : Client C) :
  (∀ s p, pending c' !! s = Some p → pending (client w) !! s = Some p) →
  well_formed w → well_formed (with_client w c').
Proof.
  intros Hsub [W1 W2 W3]. split; [done..|].
  intros s p Hp. apply W3, Hsub, Hp.
Qed.

(** Changes of the client that add nothing to [pending]. *)
Ltac wf_client :=
  repeat (apply with_client_wf;
          [ simpl; intros ? ?; rewrite ?lookup_delete_Some;
            first [ by intros [_ ?] | by intros ? ] | ]);
  try done.

Lemma unregistered_fresh_wf w :
  well_formed w → unregistered w (length (calls w)).
Proof.
  intros [_ _ W3] s Hs. destruct (W3 _ _ Hs) as (c & Hc & _).
  apply lookup_lt_Some in Hc. lia.
Qed.

Lemma Go_call_wf w sm a r d w2 p :
  well_formed w → Go_call w sm a r d = Ok (w2, p) →
  well_formed w2 ∧ unregistered w2 p ∧ completions w2 p = O
  ∧ client w2 = client w ∧ p = length (calls w)
  ∧ ∃ ch, calls w2 = calls w ++ [mkCall 0 sm a r None ch]
          ∧ (ch < length (chans w2))%nat
          ∧ match d with
            | None => ch = length (chans w) ∧ chans w2 = chans w ++ [mkChan 10 []]
            | Some ch' => ch = ch' ∧ chans w2 = chans w ∧ cap_of w ch ≠ O
            end.
Proof.
  intros Hwf Hg. pose proof (unregistered_fresh_wf w Hwf) as Hfresh.
  destruct Hwf as [W1 W2 W3]. unfold Go_call in Hg.
  assert (Hnew : ∀ ch (chs : list Chan), (ch < length chs)%nat →
            (∀ q c, calls w !! q = Some c → (Done c < length chs)%nat) →
            (∀ i chn q, chs !! i = Some chn → q ∈ sent chn → (q < length (calls w))%nat) →
            let w' := mkWorld (client w) (calls w ++ [mkCall 0 sm a r None ch]) chs in
            well_formed w' ∧ unregistered w' (length (calls w))
            ∧ completions w' (length (calls w)) = O).
  { intros ch chs Hch H1 H2 w'. subst w'. split; [constructor|split].
    - intros q c. simpl. rewrite lookup_app_Some. intros [Hq|[_ Hq]]; [by eapply H1|].
      apply list_lookup_singleton_Some in Hq as [_ <-]. done.
    - intros i chn q Hi Hq. simpl. rewrite length_app. simpl.
      specialize (H2 _ _ _ Hi Hq). lia.
    - intros s q Hq. simpl in Hq. destruct (W3 _ _ Hq) as (c & Hc & Hs).
      exists c. split; [|done]. simpl. by apply lookup_app_l_Some.
    - done.
    - unfold completions. simpl. rewrite list_lookup_middle by done. simpl.
      destruct (chs !! ch) as [chn|] eqn:Hchn; [|done].
      apply count_occ_not_In. rewrite <- list_elem_of_In. intros Hin.
      specialize (H2 _ _ _ Hchn Hin). lia. }
  destruct d as [ch|].
  - case_bool_decide as Hcap; [done|]. simpl in Hg. injection Hg as <- <-.
    assert (ch < length (chans w))%nat as Hlt.
    { unfold cap_of in Hcap. destruct (chans w !! ch) eqn:E; [|done].
      by eapply lookup_lt_Some. }
    destruct (Hnew ch (chans w) Hlt W1 W2) as (? & ? & ?).
    split_and!; try done. exists ch. split_and!; done.
  - simpl in Hg. injection Hg as <- <-.
    destruct (Hnew (length (chans w)) (chans w ++ [mkChan 10 []])) as (? & ? & ?).
    + rewrite length_app. simpl. lia.
    + intros q c Hq. rewrite length_app. specialize (W1 _ _ Hq). lia.
    + intros i chn q. rewrite lookup_app_Some. intros [Hi|[_ Hi]]; [by eapply W2|].
      apply list_lookup_singleton_Some in Hi as [_ <-]. simpl. by rewrite elem_of_nil.
    + split_and!; try done. exists (length (chans w)).
      split_and!; try done. simpl. rewrite length_app. simpl. lia.
Qed.

Lemma registerCall_wf w p :
  well_formed w → unregistered w p → (p < length (calls w))%nat →
  well_formed (registerCall w p).1.
Proof.
  intros Hwf Hun Hp. unfold registerCall.
  destruct (closing (client w) || shutdown (client w)); [done|]. simpl.
  pose proof (update_call_wf w p (set_Seq (seq (client w)))
                (set_Seq_keeps_Done _) (or_intror Hun) Hwf) as [W1 W2 W3].
  split; [done..|].
  intros s q. simpl. rewrite lookup_insert.
  destruct (decide (seq (client w) = s)) as [<-|]; [|apply W3].
  intros [= <-]. destruct (lookup_lt_is_Some_2 _ _ Hp) as [c Hc].
  exists (set_Seq (seq (client w)) c). split; [|done].
  by rewrite list_lookup_alter_eq, Hc.
Qed.

Lemma send_wf w p :
  well_formed w → unregistered w p → (p < length (calls w))%nat →
  well_formed (send w p).
Proof.
  intros Hwf Hun Hp. unfold send.
  pose proof (registerCall_wf w p Hwf Hun Hp) as Hwf1.
  destruct (registerCall w p) as [w1 [s [e|]]]; simpl in Hwf1.
  - apply done_wf, update_call_wf; auto.
  - destruct (codec.Write _ _ _) as [cc' [e|]].
    + unfold removeCall. simpl.
      destruct (pending (client w1) !! s) as [q|].
      * apply done_wf, update_call_wf; auto. wf_client.
      * wf_client.
    + wf_client.
Qed.

Lemma terminateCalls_fold_wf (err : error) (l : list (Z * nat)) w :
  well_formed w →
  well_formed
    (foldl (λ w' sp, done (update_call w' sp.2 (set_Error (Some err))) sp.2) w l).
Proof.
  revert w. induction l as [|sp l IH]; intros w Hwf; [done|].
  simpl. apply IH, done_wf, update_call_wf; auto.
Qed.

Lemma terminateCalls_wf w (err : error) :
  well_formed w → well_formed (terminateCalls w err).
Proof.
  intros Hwf. unfold terminateCalls. apply terminateCalls_fold_wf. wf_client.
Qed.

Lemma receive_turn_wf w :
  well_formed w → well_formed (receive_turn fmt_Sprintf w).1.
Proof.
  intros Hwf. unfold receive_turn, removeCall.
  destruct (codec.ReadHeader (cc (client w))) as [cc1 [hd|e]]; [|wf_client].
  simpl.
  destruct (pending (client w) !! codec.Seq hd) as [p|].
  - case_bool_decide.
    + destruct (codec.ReadBody _ _) as [[cc2 v] e]. simpl.
      apply done_wf. wf_client. apply update_call_wf; auto. wf_client.
    + destruct (codec.ReadBody _ _) as [[cc2 v] e]. simpl. apply done_wf.
      destruct e; [apply update_call_wf; auto|];
        (apply update_call_wf; auto; wf_client).
  - destruct (codec.ReadBody _ _) as [[cc2 v] e]. simpl. wf_client.
Qed.

Lemma step_wf (r : Running C) (o : Op) :
  well_formed (world r) → well_formed (world (step fmt_Sprintf r o)).
Proof.
  destruct r as [w l]. simpl. intros Hwf. destruct o as [sm a rp d|n| |]; simpl.
  - unfold Go. destruct (Go_call w sm a rp d) as [[w2 p]| |] eqn:Hg; [|done..].
    destruct (Go_call_wf _ _ _ _ _ _ _ Hwf Hg) as (Hwf2 & Hun & _ & _ & -> & ch & Hc & _).
    simpl. apply send_wf; [done..|]. rewrite Hc, length_app. simpl. lia.
  - destruct Hwf as [W1 W2 W3]. split; simpl; [| |done].
    + intros p c Hp. rewrite length_app. specialize (W1 _ _ Hp). lia.
    + intros i ch q. rewrite lookup_app_Some. intros [Hi|[_ Hi]]; [by eapply W2|].
      apply list_lookup_singleton_Some in Hi as [_ <-]. simpl. by rewrite elem_of_nil.
  - destruct (shutdown (client w)); [done|].
    destruct l as [err|]; simpl; [by apply terminateCalls_wf|].
    pose proof (receive_turn_wf w Hwf) as Hwf'.
    by destruct (receive_turn fmt_Sprintf w) as [w' e].
  - unfold Close. destruct (closing (client w)); [done|]. simpl.
    destruct (codec.Close (cc (client w))). simpl. wf_client.
Qed.

Lemma newClientCodec_wf (c0 : C) (o : Option) : well_formed (newClientCodec c0 o).
Proof. split; simpl; intros *; by rewrite ?lookup_nil, ?lookup_empty. Qed.

(** Every state a run of a new client reaches is well formed. *)
Lemma run_wf (r : Running C) (ops : list Op) :
  well_formed (world r) → well_formed (world (run fmt_Sprintf r ops)).
Proof.
  revert r. induction ops as [|o ops IH]; intros r Hwf; [done|].
  simpl. by apply IH, step_wf.
Qed.

(** *** Go *)

Lemma Go_call_nil w sm a r :
  Go_call w sm a r None
  = Ok (mkWorld (client w)
                (calls w ++ [mkCall 0 sm a r None (length (chans w))])
                (chans w ++ [mkChan 10 []]),
        length (calls w)).
Proof. done. Qed.

Lemma Go_call_buffered w sm a r ch :
  cap_of w ch ≠ O →
  Go_call w sm a r (Some ch)
  = Ok (mkWorld (client w) (calls w ++ [mkCall 0 sm a r None ch]) (chans w),
        length (calls w)).
Proof. intros Hc. unfold Go_call. by rewrite bool_decide_eq_false_2. Qed.

Lemma Go_call_unbuffered w sm a r ch :
  cap_of w ch = O →
  Go_call w sm a r (Some ch) = Panicked "rpc client: done channel is unbuffered".
Proof. intros Hc. unfold Go_call. by rewrite bool_decide_eq_true_2. Qed.

(** [send] keeps the channel of every call and the capacity of every
    channel. *)
Lemma send_shape w p :
  (∀ q, Done <$> calls (send w p) !! q = Done <$> calls w !! q)
  ∧ (∀ i, cap <$> chans (send w p) !! i = cap <$> chans w !! i).
Proof.
  assert (Hu : ∀ w0 p0 f q, keeps_Done f →
            Done <$> calls (update_call w0 p0 f) !! q = Done <$> calls w0 !! q).
  { intros w0 p0 f q Hf. rewrite update_call_lookup.
    destruct (decide (p0 = q)); [|done].
    destruct (calls w0 !! q) as [c|]; simpl; [|done]. by rewrite Hf. }
  unfold send, registerCall.
  destruct (closing (client w) || shutdown (client w)).
  { split; intros; [by rewrite done_calls, Hu|by rewrite done_cap]. }
  simpl. destruct (codec.Write _ _ _) as [cc' [e|]]; simpl.
  - destruct (_ !! seq (client w)) as [q'|]; simpl.
    + split; intros; [rewrite done_calls, Hu by auto|by rewrite done_cap].
      apply (Hu w p (set_Seq (seq (client w)))). auto.
    + split; intros; [|done]. apply (Hu w p (set_Seq (seq (client w)))). auto.
  - split; intros; [|done]. apply (Hu w p (set_Seq (seq (client w)))). auto.
Qed.

(** C9.  [Go] with no channel makes one of capacity 10 for the call; [Go]
    with a channel of capacity 0 panics, and so neither registers nor sends
    anything; with a buffered channel the call gets that channel. *)
Theorem Go_completion_queue w sm a r :
  (∃ w' p c ch, Go w sm a r None = Ok (w', p)
                ∧ calls w' !! p = Some c
                ∧ Done c = length (chans w)
                ∧ chans w !! Done c = None
                ∧ chans w' !! Done c = Some ch
                ∧ cap ch = 10%nat ∧ (10 ≤ cap ch)%nat)
  ∧ (∀ ch, cap_of w ch = O →
       Go w sm a r (Some ch) = Panicked "rpc client: done channel is unbuffered"
       ∧ ∀ l, step fmt_Sprintf (mkRunning w l) (OpGo sm a r (Some ch))
              = mkRunning w l)
  ∧ (∀ ch, cap_of w ch ≠ O →
       ∃ w' p, Go w sm a r (Some ch) = Ok (w', p)
               ∧ Done <$> calls w' !! p = Some ch).
Proof.
  split; [|split].
  - unfold Go. rewrite Go_call_nil.
    set (w2 := mkWorld _ _ _). set (p := length (calls w)).
    destruct (send_shape w2 p) as [Hd Hc].
    specialize (Hd p). specialize (Hc (length (chans w))).
    subst w2 p. simpl in Hd, Hc.
    rewrite list_lookup_middle in Hd by done.
    rewrite list_lookup_middle in Hc by done. simpl in Hd, Hc.
    destruct (calls (send _ _) !! length (calls w)) as [c|] eqn:Hcall; [|done].
    destruct (chans (send _ _) !! length (chans w)) as [ch|] eqn:Hch; [|done].
    injection Hd as Hd. injection Hc as Hc.
    exists (send (mkWorld (client w)
                    (calls w ++ [mkCall 0 sm a r None (length (chans w))])
                    (chans w ++ [mkChan 10 []])) (length (calls w))),
           (length (calls w)), c, ch.
    rewrite Hd. split_and!; try done; [by apply lookup_ge_None_2|lia].
  - intros ch Hcap. unfold step, Go. simpl.
    by rewrite (Go_call_unbuffered _ _ _ _ _ Hcap).
  - intros ch Hcap. unfold Go. rewrite (Go_call_buffered _ _ _ _ _ Hcap).
    eexists _, _. split; [done|].
    destruct (send_shape (mkWorld (client w) (calls w ++ [mkCall 0 sm a r None ch])
                            (chans w)) (length (calls w))) as [-> _].
    simpl. by rewrite list_lookup_middle.
Qed.

(** C6.  With [closing] or [shutdown] set, [registerCall] fails with
    [ErrShutdown] and leaves the state as it was, counter and registry
    included; [send] then records [ErrShutdown] in the call and signals it,
    once, and leaves the client as it was.  So a [Go] on such a client, when
    it does not panic, registers nothing and returns a call that carries
    [ErrShutdown] and was signalled once. *)
Theorem registration_refused_when_closing_or_shutdown w p :
  closing (client w) = true ∨ shutdown (client w) = true →
  registerCall w p = (w, (0, Some ErrShutdown))
  ∧ client (send w p) = client w
  ∧ (∀ c, calls w !! p = Some c → (Done c < length (chans w))%nat →
       calls (send w p) !! p = Some (set_Error (Some ErrShutdown) c)
       ∧ completions (send w p) p = S (completions w p))
  ∧ (∀ sm a r d w' q, well_formed w → Go w sm a r d = Ok (w', q) →
       client w' = client w
       ∧ registered w (OpGo sm a r d) = []
       ∧ (∃ ch, calls w' !! q = Some (mkCall 0 sm a r (Some ErrShutdown) ch))
       ∧ completions w' q = 1%nat).
Proof.
  intros Hf. split; [by apply registerCall_rejected|].
  assert (Hsend : ∀ w0 p0 c, closing (client w0) = true ∨ shutdown (client w0) = true →
            calls w0 !! p0 = Some c → (Done c < length (chans w0))%nat →
            client (send w0 p0) = client w0
            ∧ calls (send w0 p0) !! p0 = Some (set_Error (Some ErrShutdown) c)
            ∧ completions (send w0 p0) p0 = S (completions w0 p0)).
  { intros w0 p0 c Hf0 Hc Hd. rewrite (send_rejected _ _ Hf0).
    rewrite done_client, done_calls. split; [done|].
    assert (Hc' : calls (update_call w0 p0 (set_Error (Some ErrShutdown))) !! p0
                  = Some (set_Error (Some ErrShutdown) c)).
    { rewrite update_call_lookup, decide_True by done. by rewrite Hc. }
    split; [done|].
    rewrite (completions_done _ _ _ _ Hc') by done.
    rewrite completions_update_call, decide_True by auto. lia. }
  split; [|split].
  - rewrite (send_rejected _ _ Hf). by rewrite done_client.
  - intros c Hc Hd. by destruct (Hsend w p c Hf Hc Hd) as (_ & ? & ?).
  - intros sm a r d w' q Hwf Hgo. unfold Go in Hgo. simpl.
    destruct (Go_call w sm a r d) as [[w2 q2]| |] eqn:Hg; [|done..].
    injection Hgo as <- <-.
    destruct (Go_call_wf _ _ _ _ _ _ _ Hwf Hg)
      as (_ & _ & Hzero & Hcl & -> & ch & Hcalls & Hch & _).
    assert (Hq : calls w2 !! length (calls w) = Some (mkCall 0 sm a r None ch)).
    { rewrite Hcalls. by apply list_lookup_middle. }
    assert (Hf2 : closing (client w2) = true ∨ shutdown (client w2) = true)
      by by rewrite Hcl.
    destruct (Hsend w2 (length (calls w)) _ Hf2 Hq Hch) as (Hc1 & Hc2 & Hc3).
    rewrite (registerCall_rejected _ _ Hf2).
    split_and!; [congruence|done|by exists ch|]. by rewrite Hc3, Hzero.
Qed.

(** *** The receive loop *)

(** Updating a call and signalling it: the call is changed and delivered
    once more, the other calls are as they were. *)
Lemma signal_effect w w1 p f c :
  keeps_Done f → calls w !! p = Some c → (Done c < length (chans w))%nat →
  calls w1 = alter f p (calls w) → chans w1 = chans w →
  client (done w1 p) = client w1
  ∧ calls (done w1 p) !! p = Some (f c)
  ∧ completions (done w1 p) p = S (completions w p)
  ∧ (∀ q, q ≠ p → calls (done w1 p) !! q = calls w !! q
                  ∧ completions (done w1 p) q = completions w q).
Proof.
  intros Hf Hc Hd Hcalls Hchans.
  assert (Hp1 : calls w1 !! p = Some (f c))
    by by rewrite Hcalls, list_lookup_alter_eq, Hc.
  assert (Hd1 : (Done (f c) < length (chans w1))%nat) by by rewrite Hf, Hchans.
  assert (Hsame : ∀ q, completions w1 q = completions w q).
  { intros q. rewrite <- (completions_update_call w p f q Hf).
    unfold completions, update_call. simpl. by rewrite Hcalls, Hchans. }
  rewrite done_client, done_calls. split_and!; [done..| |].
  - rewrite (completions_done _ _ _ _ Hp1 Hd1), decide_True by done.
    rewrite Hsame. lia.
  - intros q Hq. split.
    + rewrite Hcalls. by apply list_lookup_alter_ne.
    + rewrite (completions_done _ _ _ _ Hp1 Hd1), decide_False by done.
      rewrite Hsame. lia.
Qed.

Lemma receive_turn_header_error w cc1 (e : error) :
  codec.ReadHeader (cc (client w)) = (cc1, inr e) →
  receive_turn fmt_Sprintf w = (with_client w (set_cc (client w) cc1), Some e).
Proof. intros Hh. unfold receive_turn. by rewrite Hh. Qed.

Lemma receive_loop_stops (fuel : nat) w w' (e : error) :
  receive_turn fmt_Sprintf w = (w', Some e) →
  receive_loop fmt_Sprintf (S fuel) w = Ok (w', e)
  ∧ receive fmt_Sprintf (S fuel) w = Ok (terminateCalls w' e).
Proof. intros Ht. unfold receive. simpl. by rewrite Ht. Qed.

Lemma receive_loop_goes_on (fuel : nat) w w' :
  receive_turn fmt_Sprintf w = (w', None) →
  receive_loop fmt_Sprintf (S fuel) w = receive_loop fmt_Sprintf fuel w'.
Proof. intros Ht. simpl. by rewrite Ht. Qed.

(** A header whose number is not pending: the body is read into no
    destination and nothing else changes. *)
Lemma receive_turn_unmatched w cc1 (hd : codec.Header) :
  codec.ReadHeader (cc (client w)) = (cc1, inl hd) →
  pending (client w) !! codec.Seq hd = None →
  receive_turn fmt_Sprintf w
  = (with_client w (set_cc (client w) (codec.ReadBody cc1 None).1.1),
     (codec.ReadBody cc1 None).2).
Proof.
  intros Hh Hnone. unfold receive_turn, removeCall. rewrite Hh. simpl. rewrite Hnone.
  destruct (codec.ReadBody cc1 None) as [[cc2 v] e]. simpl.
  unfold with_client, set_cc, set_pending. simpl.
  by rewrite (delete_id _ _ Hnone).
Qed.

(** A header whose number is pending: the call leaves the registry, is
    updated and is signalled once; nothing else changes. *)
Lemma receive_turn_matched w cc1 (hd : codec.Header) p c :
  codec.ReadHeader (cc (client w)) = (cc1, inl hd) →
  pending (client w) !! codec.Seq hd = Some p →
  calls w !! p = Some c → (Done c < length (chans w))%nat →
  let t := receive_turn fmt_Sprintf w in
  pending (client t.1) = delete (codec.Seq hd) (pending (client w))
  ∧ completions t.1 p = S (completions w p)
  ∧ (∀ q, q ≠ p → calls t.1 !! q = calls w !! q
                  ∧ completions t.1 q = completions w q)
  ∧ if bool_decide (codec.Error hd ≠ "") then
      let b := codec.ReadBody cc1 None in
      t.2 = b.2 ∧ cc (client t.1) = b.1.1
      ∧ calls t.1 !! p
        = Some (set_Error (Some (errors_New (fmt_Sprintf (codec.Error hd)))) c)
    else
      let b := codec.ReadBody cc1 (Reply c) in
      t.2 = b.2 ∧ cc (client t.1) = b.1.1
      ∧ calls t.1 !! p
        = Some (mkCall (Seq c) (ServiceMethod c) (Args c) b.1.2
                  (match b.2 with
                   | Some e => Some (errors_New ("reading body " +:+ Error_text e))
                   | None => Error c
                   end)
                  (Done c)).
Proof.
  intros Hh Hp Hc Hd t. subst t.
  unfold receive_turn, removeCall. rewrite Hh. simpl. rewrite Hp.
  case_bool_decide as Herr.
  - destruct (codec.ReadBody cc1 None) as [[cc2 v] e] eqn:Hb. simpl.
    set (f := set_Error (Some (errors_New (fmt_Sprintf (codec.Error hd))))).
    set (w1 := with_client _ _).
    destruct (signal_effect w w1 p f c) as (Hcl & Hcall & Hcomp & Hoth);
      [by subst f|done..|].
    rewrite Hcl. by split_and!.
  - destruct (codec.ReadBody cc1 _) as [[cc2 v] e] eqn:Hb. simpl in Hb.
    rewrite Hc in Hb. simpl in Hb. rewrite Hb. simpl.
    set (f := λ c0 : Call,
           mkCall (Seq c0) (ServiceMethod c0) (Args c0) v
             (match e with
              | Some e0 => Some (errors_New ("reading body " +:+ Error_text e0))
              | None => Error c0
              end) (Done c0)).
    set (w1 := match e with Some _ => _ | None => _ end).
    destruct (signal_effect w w1 p f c) as (Hcl & Hcall & Hcomp & Hoth);
      [done..| | |].
    + subst w1 f. destruct e; simpl; rewrite ?list_alter_alter_eq;
        by apply list_alter_ext.
    + subst w1. by destruct e.
    + rewrite Hcl. subst w1. by destruct e; split_and!.
Qed.


(** *** terminateCalls *)

Lemma terminateCalls_fold_effect (err : error) (l : list (Z * nat)) w :
  well_formed w → NoDup l.*2 → (∀ q, q ∈ l.*2 → (q < length (calls w))%nat) →
  let w' := foldl (λ w0 sp, done (update_call w0 sp.2 (set_Error (Some err))) sp.2) w l in
  ∀ q, (q ∈ l.*2 → Error <$> calls w' !! q = Some (Some err)
                    ∧ completions w' q = S (completions w q))
       ∧ (q ∉ l.*2 → calls w' !! q = calls w !! q
                      ∧ completions w' q = completions w q).
Proof.
  revert w. induction l as [|[s p] l IH]; intros w Hwf Hnd Hal; simpl.
  { intros q. split; [by rewrite elem_of_nil|done]. }
  apply NoDup_cons in Hnd as [Hp Hnd]. simpl in Hp.
  destruct (lookup_lt_is_Some_2 (calls w) p) as [c Hc];
    [apply Hal; simpl; apply elem_of_cons; by left|].
  pose proof (wf_done w Hwf _ _ Hc) as Hd.
  set (w1 := done (update_call w p (set_Error (Some err))) p).
  destruct (signal_effect w (update_call w p (set_Error (Some err))) p
              (set_Error (Some err)) c) as (_ & Hcall & Hcomp & Hoth); [done..|].
  fold w1 in Hcall, Hcomp, Hoth.
  assert (Hwf1 : well_formed w1) by (apply done_wf, update_call_wf; auto).
  assert (Hal1 : ∀ q, q ∈ l.*2 → (q < length (calls w1))%nat).
  { intros q Hq. subst w1. rewrite done_calls, update_call_length.
    apply Hal. simpl. apply elem_of_cons. by right. }
  intros q. specialize (IH w1 Hwf1 Hnd Hal1 q). simpl in IH.
  destruct IH as [IHin IHout]. split.
  - intros Hq. apply elem_of_cons in Hq as [->|Hq].
    + destruct (IHout Hp) as [-> ->]. by rewrite Hcall.
    + assert (q ≠ p) as Hne by (by intros ->).
      destruct (IHin Hq) as [-> ->]. by destruct (Hoth q Hne) as [_ ->].
  - intros Hq. apply not_elem_of_cons in Hq as [Hne Hq].
    destruct (IHout Hq) as [-> ->]. by apply Hoth.
Qed.

Lemma pending_pointers_NoDup w :
  well_formed w → NoDup (map_to_list (pending (client w))).*2.
Proof.
  intros [_ _ W3]. apply NoDup_fmap_2_strong; [|apply NoDup_map_to_list].
  intros [s1 p1] [s2 p2] H1%elem_of_map_to_list H2%elem_of_map_to_list Heq.
  simpl in Heq. subst p2.
  destruct (W3 _ _ H1) as (c1 & Hc1 & <-). destruct (W3 _ _ H2) as (c2 & Hc2 & <-).
  congruence.
Qed.

Lemma elem_of_pending_pointers (m : gmap Z nat) q :
  q ∈ (map_to_list m).*2 ↔ ∃ s, m !! s = Some q.
Proof.
  rewrite list_elem_of_fmap. split.
  - intros [[s p] [-> Hin%elem_of_map_to_list]]. by exists s.
  - intros [s Hs]. exists (s, q). split; [done|]. by apply elem_of_map_to_list.
Qed.

(** What [terminateCalls] does: [shutdown] is set, every pending call gets
    the error and one more signal, the other calls are as they were. *)
Lemma terminateCalls_effect w (err : error) :
  well_formed w →
  shutdown (client (terminateCalls w err)) = true
  ∧ pending (client (terminateCalls w err)) = pending (client w)
  ∧ (∀ s p, pending (client w) !! s = Some p →
       Error <$> calls (terminateCalls w err) !! p = Some (Some err)
       ∧ completions (terminateCalls w err) p = S (completions w p))
  ∧ (∀ q, (∀ s, pending (client w) !! s ≠ Some q) →
       calls (terminateCalls w err) !! q = calls w !! q
       ∧ completions (terminateCalls w err) q = completions w q).
Proof.
  intros Hwf. rewrite terminateCalls_client. split; [done|]. split; [done|].
  pose proof (pending_pointers_NoDup w Hwf) as Hnd.
  assert (Hal : ∀ q, q ∈ (map_to_list (pending (client w))).*2 →
                     (q < length (calls w))%nat).
  { intros q [s Hs]%elem_of_pending_pointers.
    destruct (wf_pending w Hwf _ _ Hs) as (c & Hc & _). by eapply lookup_lt_Some. }
  assert (Hwf1 : well_formed (with_client w (set_shutdown (client w) true)))
    by wf_client.
  pose proof (terminateCalls_fold_effect err _ _ Hwf1 Hnd Hal) as Hfold.
  simpl in Hfold. split.
  - intros s p Hp. apply Hfold, elem_of_pending_pointers. by exists s.
  - intros q Hq. apply Hfold. rewrite elem_of_pending_pointers.
    intros [s Hs]. by apply (Hq s).
Qed.

(** C2.  When the read of a header fails in the loop of [receive], with
    whatever error ([io.EOF] included), the loop stops and [receive] runs
    [terminateCalls] with that error.  In the state it runs in, the one the
    failed read left or one that callers have made of it meanwhile,
    [terminateCalls] sets [shutdown]; every call that is pending then
    carries the error and is signalled once more, exactly once; a call that
    is not pending, one removed earlier among them, is unchanged and is not
    signalled.  Where no pending call had been signalled, as in every state
    a run of a new client reaches before it shuts down, each pending call
    has then been signalled exactly once in all. *)
Theorem receive_header_failure_terminates_pending w cc1 (e : error) :
  well_formed w →
  codec.ReadHeader (cc (client w)) = (cc1, inr e) →
  let w1 := with_client w (set_cc (client w) cc1) in
  (∀ fuel, receive_loop fmt_Sprintf (S fuel) w = Ok (w1, e)
           ∧ receive fmt_Sprintf (S fuel) w = Ok (terminateCalls w1 e))
  ∧ (∀ l, step fmt_Sprintf (mkRunning w l) OpReceive
          = if shutdown (client w) then mkRunning w l
            else match l with
                 | Some e' => mkRunning (terminateCalls w e') None
                 | None => mkRunning w1 (Some e)
                 end)
  ∧ well_formed w1
  ∧ ∀ w2, well_formed w2 →
      shutdown (client (terminateCalls w2 e)) = true
      ∧ (∀ s p, pending (client w2) !! s = Some p →
           Error <$> calls (terminateCalls w2 e) !! p = Some (Some e)
           ∧ completions (terminateCalls w2 e) p = S (completions w2 p)
           ∧ (signalled_once w2 → shutdown (client w2) = false →
                completions (terminateCalls w2 e) p = 1%nat))
      ∧ (∀ q, (∀ s, pending (client w2) !! s ≠ Some q) →
           calls (terminateCalls w2 e) !! q = calls w2 !! q
           ∧ completions (terminateCalls w2 e) q = completions w2 q).
Proof.
  intros Hwf Hh w1.
  pose proof (receive_turn_header_error w cc1 e Hh) as Ht. fold w1 in Ht.
  split_and!.
  - intros fuel. by apply receive_loop_stops.
  - intros l. simpl. rewrite Ht. by destruct (shutdown (client w)), l.
  - subst w1. wf_client.
  - intros w2 Hwf2.
    destruct (terminateCalls_effect w2 e Hwf2) as (Hs & _ & Hp & Hq).
    split_and!; [done| |done].
    intros s p Hsp. destruct (Hp s p Hsp) as [Herr Hcomp].
    split_and!; [done..|]. intros Hso Hlive.
    rewrite Hcomp. f_equal. by apply (so_pending w2 Hso Hlive s p).
Qed.

(** *** Every call is signalled at most once *)

Lemma completions_unallocated w p : calls w !! p = None → completions w p = O.
Proof. intros Hp. unfold completions. by rewrite Hp. Qed.

(** New calls and new channels at the end of the stores leave the count of
    the calls that were there. *)
Lemma completions_extend w (cl : Client C) (cs : list Call) (chs : list Chan) p :
  well_formed w → (p < length (calls w))%nat →
  completions (mkWorld cl (calls w ++ cs) (chans w ++ chs)) p = completions w p.
Proof.
  intros Hwf Hp. unfold completions. simpl. rewrite lookup_app_l by done.
  destruct (calls w !! p) as [c|] eqn:Hc; [|done].
  by rewrite lookup_app_l by by eapply wf_done.
Qed.

Lemma pending_injective w s1 s2 p :
  well_formed w → pending (client w) !! s1 = Some p →
  pending (client w) !! s2 = Some p → s1 = s2.
Proof.
  intros Hwf H1 H2. destruct (wf_pending w Hwf _ _ H1) as (c1 & Hc1 & <-).
  destruct (wf_pending w Hwf _ _ H2) as (c2 & Hc2 & <-). congruence.
Qed.

(** [send] signals the call only when it failed, and then takes it out of
    the registry; it signals no other call. *)
Lemma send_effect w q c :
  well_formed w → unregistered w q → calls w !! q = Some c →
  (∀ p, p ≠ q → completions (send w q) p = completions w p)
  ∧ (completions (send w q) q ≤ S (completions w q))%nat
  ∧ (∀ s p, pending (client (send w q)) !! s = Some p →
       (p = q ∧ completions (send w q) q = completions w q)
       ∨ (p ≠ q ∧ pending (client w) !! s = Some p)).
Proof.
  intros Hwf Hun Hc. pose proof (wf_done w Hwf _ _ Hc) as Hd.
  assert (Hold : ∀ s p, pending (client w) !! s = Some p → p ≠ q)
    by (intros s p Hp ->; by apply (Hun s)).
  unfold send, registerCall.
  destruct (closing (client w) || shutdown (client w)).
  { set (f := set_Error (Some ErrShutdown)).
    destruct (signal_effect w (update_call w q f) q f c)
      as (Hcl & _ & Hcomp & Hoth); [done..|].
    split_and!.
    - intros p Hp. by apply Hoth.
    - lia.
    - intros s p. rewrite Hcl. simpl. intros Hp. right. split; [by eapply Hold|done]. }
  simpl. set (s0 := seq (client w)). set (w1 := update_call w q (set_Seq s0)).
  assert (Hsame : ∀ p, completions w1 p = completions w p)
    by (intros p; by apply completions_update_call).
  assert (Hc1 : calls w1 !! q = Some (set_Seq s0 c)).
  { subst w1. by rewrite update_call_lookup, decide_True, Hc. }
  destruct (codec.Write _ _ _) as [cc' [e|]]; simpl.
  - rewrite lookup_insert_eq.
    set (f := set_Error (Some e)). set (w3 := with_client _ (set_pending _ _)).
    destruct (signal_effect w1 (update_call w3 q f) q f (set_Seq s0 c))
      as (Hcl & _ & Hcomp & Hoth); [done..|].
    split_and!.
    + intros p Hp. destruct (Hoth p Hp) as [_ ->]. apply Hsame.
    + rewrite Hcomp, Hsame. lia.
    + intros s p. rewrite Hcl. simpl. rewrite lookup_delete_Some, lookup_insert_Some.
      intros [Hne [[? _]|[_ Hp]]]; [done|]. right. split; [by eapply Hold|done].
  - split_and!.
    + intros p _. apply Hsame.
    + pose proof (Hsame q) as Hq. unfold completions in *. simpl in *. lia.
    + intros s p. rewrite lookup_insert_Some.
      intros [[_ <-]|[_ Hp]]; [left; split; [done|apply Hsame]|].
      right. split; [by eapply Hold|done].
Qed.

Lemma terminateCalls_signalled_once w (err : error) :
  well_formed w → signalled_once w → shutdown (client w) = false →
  signalled_once (terminateCalls w err).
Proof.
  intros Hwf [Hmost Hpend] Hs.
  destruct (terminateCalls_effect w err Hwf) as (Hsd & _ & Hin & Hout).
  split; [|by rewrite Hsd].
  intros p.
  destruct (decide (p ∈ (map_to_list (pending (client w))).*2)) as [Hyes|Hno].
  - apply elem_of_pending_pointers in Hyes as [s Hp].
    destruct (Hin s p Hp) as [_ ->]. by rewrite (Hpend Hs s p Hp).
  - destruct (Hout p) as [_ ->]; [|done]. intros s Hp. apply Hno.
    apply elem_of_pending_pointers. by exists s.
Qed.

Lemma receive_turn_signalled_once w :
  well_formed w → signalled_once w → shutdown (client w) = false →
  signalled_once (receive_turn fmt_Sprintf w).1.
Proof.
  intros Hwf [Hmost Hpend] Hs.
  destruct (codec.ReadHeader (cc (client w))) as [cc1 [hd|e]] eqn:Hh.
  2:{ by rewrite (receive_turn_header_error _ _ _ Hh). }
  destruct (pending (client w) !! codec.Seq hd) as [p|] eqn:Hp.
  2:{ by rewrite (receive_turn_unmatched _ _ _ Hh Hp). }
  destruct (wf_pending w Hwf _ _ Hp) as (c & Hc & Hseq).
  destruct (receive_turn_matched w cc1 hd p c Hh Hp Hc (wf_done w Hwf _ _ Hc))
    as (Hpen & Hcomp & Hoth & _).
  destruct (receive_turn_client w) as (_ & Hsd & _).
  split.
  - intros q. destruct (decide (q = p)) as [->|Hne].
    + rewrite Hcomp, (Hpend Hs _ _ Hp). lia.
    + destruct (Hoth q Hne) as [_ ->]. apply Hmost.
  - intros _ s q. rewrite Hpen, lookup_delete_Some. intros [Hne Hq].
    assert (q ≠ p) as Hqp.
    { intros ->. apply Hne. by eapply pending_injective. }
    destruct (Hoth q Hqp) as [_ ->]. by eapply Hpend.
Qed.

Lemma step_signalled_once (r : Running C) (o : Op) :
  well_formed (world r) → signalled_once (world r) →
  signalled_once (world (step fmt_Sprintf r o)).
Proof.
  destruct r as [w l]. simpl. intros Hwf Hso.
  destruct o as [sm a rp d|n| |]; simpl.
  - unfold Go. destruct (Go_call w sm a rp d) as [[w2 q]| |] eqn:Hg; [|done..].
    destruct (Go_call_wf _ _ _ _ _ _ _ Hwf Hg)
      as (Hwf2 & Hun & Hzero & Hcl & -> & ch & Hcalls & Hch & Hd).
    assert (Hold : ∀ p, (p < length (calls w))%nat →
              completions w2 p = completions w p).
    { intros p Hp. destruct w2 as [cl2 calls2 chans2]. simpl in *. subst calls2.
      destruct d as [ch'|].
      - destruct Hd as (_ & -> & _).
        rewrite <- (app_nil_r (chans w)) at 1. by apply completions_extend.
      - destruct Hd as (_ & ->). by apply completions_extend. }
    assert (Hq : calls w2 !! length (calls w) = Some (mkCall 0 sm a rp None ch)).
    { rewrite Hcalls. by apply list_lookup_middle. }
    destruct (send_effect w2 _ _ Hwf2 Hun Hq) as (Hoth & Hnew & Hpen).
    destruct (send_client w2 (length (calls w))) as (_ & Hsd & _).
    destruct Hso as [Hmost Hpend]. simpl. split.
    + intros p. destruct (decide (p = length (calls w))) as [->|Hne]; [lia|].
      rewrite (Hoth p Hne).
      destruct (decide (p < length (calls w))%nat) as [Hlt|Hge].
      * rewrite Hold by done. apply Hmost.
      * rewrite completions_unallocated; [lia|].
        apply lookup_ge_None_2. rewrite Hcalls, length_app. simpl. lia.
    + rewrite Hsd, Hcl. intros Hs s p Hp.
      destruct (Hpen s p Hp) as [[-> ->]|[Hne Hp']]; [done|].
      rewrite (Hoth p Hne). rewrite Hcl in Hp'.
      destruct (wf_pending w Hwf _ _ Hp') as (c & Hc & _).
      rewrite Hold by by eapply lookup_lt_Some. by eapply Hpend.
  - destruct Hso as [Hmost Hpend].
    assert (Hsame : ∀ p, completions (mkWorld (client w) (calls w)
                                        (chans w ++ [mkChan n []])) p
                         = completions w p).
    { intros p. destruct (decide (p < length (calls w))%nat) as [Hlt|Hge].
      - rewrite <- (app_nil_r (calls w)) at 1. by apply completions_extend.
      - rewrite !completions_unallocated;
          [done|apply lookup_ge_None_2; simpl; lia..]. }
    split; [intros p|intros Hs s p Hp]; rewrite Hsame; [apply Hmost|by eapply Hpend].
  - destruct (shutdown (client w)) eqn:Hs; [done|].
    destruct l as [err|]; simpl; [by apply terminateCalls_signalled_once|].
    pose proof (receive_turn_signalled_once w Hwf Hso Hs) as Hso'.
    by destruct (receive_turn fmt_Sprintf w) as [w' e].
  - destruct Hso as [Hmost Hpend]. unfold Close.
    destruct (closing (client w)); [done|]. simpl.
    by destruct (codec.Close (cc (client w))).
Qed.

Lemma run_signalled_once (r : Running C) (ops : list Op) :
  well_formed (world r) → signalled_once (world r) →
  signalled_once (world (run fmt_Sprintf r ops)).
Proof.
  revert r. induction ops as [|o ops IH]; intros r Hwf Hso; [done|].
  simpl. apply IH; [by apply step_wf|by apply step_signalled_once].
Qed.

(** X1.  Along any run of a new client the stores are well formed, no call
    is signalled twice, and as long as the client is not shut down no
    pending call has been signalled. *)
Theorem new_client_runs_signal_once (c0 : C) (o : Option) (ops : list Op) :
  well_formed (world (run fmt_Sprintf (start (newClientCodec c0 o)) ops))
  ∧ signalled_once (world (run fmt_Sprintf (start (newClientCodec c0 o)) ops)).
Proof.
  split; [apply run_wf, newClientCodec_wf|].
  apply run_signalled_once; [apply newClientCodec_wf|]. simpl.
  split.
  - intros p. rewrite completions_unallocated; [lia|]. simpl. apply lookup_nil.
  - intros _ s p. simpl. by rewrite lookup_empty.
Qed.

(** X2.  When [Write] fails in [send], the call, registered a moment before,
    is taken out of the registry, carries the error of [Write] and is
    signalled once; its sequence number stays consumed. *)
Theorem send_write_failure_completes_call w q c (cc' : C) (e : error) :
  closing (client w) = false → shutdown (client w) = false →
  calls w !! q = Some c → (Done c < length (chans w))%nat →
  codec.Write (cc (client w))
    (codec.mkHeader (ServiceMethod c) (seq (client w)) "") (Args c)
  = (cc', Some e) →
  pending (client (send w q)) = delete (seq (client w)) (pending (client w))
  ∧ cc (client (send w q)) = cc'
  ∧ seq (client (send w q)) = wrap64 (seq (client w) + 1)
  ∧ calls (send w q) !! q
    = Some (mkCall (seq (client w)) (ServiceMethod c) (Args c) (Reply c)
              (Some e) (Done c))
  ∧ completions (send w q) q = S (completions w q).
Proof.
  intros Hcl Hsd Hc Hd Hw. unfold send.
  rewrite (registerCall_accepted w q Hcl Hsd). simpl.
  rewrite list_lookup_alter_eq, Hc. simpl. rewrite Hw. simpl.
  rewrite lookup_insert_eq.
  set (w0 := update_call w q (set_Seq (seq (client w)))).
  set (f := set_Error (Some e)). set (w3 := with_client _ (set_pending _ _)).
  assert (Hc0 : calls w0 !! q = Some (set_Seq (seq (client w)) c)).
  { subst w0. by rewrite update_call_lookup, decide_True, Hc. }
  destruct (signal_effect w0 (update_call w3 q f) q f _ (set_Error_keeps_Done _)
              Hc0 Hd eq_refl eq_refl) as (Hclient & Hcall & Hcomp & _).
  rewrite Hclient, Hcall, Hcomp. subst w0.
  rewrite completions_update_call by done. split_and!; try done.
  simpl. by rewrite delete_insert_eq.
Qed.

(** *** Sequence numbers *)

Lemma wrap64_range (z : Z) : 0 ≤ wrap64 z < 2 ^ 64.
Proof. unfold wrap64. apply Z.mod_pos_bound. lia. Qed.

Lemma wrap64_small (z : Z) : 0 ≤ z < 2 ^ 64 → wrap64 z = z.
Proof. unfold wrap64. apply Z.mod_small. Qed.

Lemma wrap64_succ (z k : Z) : wrap64 (wrap64 (z + 1) + k) = wrap64 (z + (k + 1)).
Proof.
  unfold wrap64. rewrite Zplus_mod_idemp_l. f_equal. lia.
Qed.

(** A step hands out no number and leaves the counter, or hands out the
    counter and increments it. *)
Lemma registered_cases (r : Running C) (o : Op) :
  (registered (world r) o = []
   ∧ seq (client (world (step fmt_Sprintf r o))) = seq (client (world r)))
  ∨ (registered (world r) o = [seq (client (world r))]
     ∧ seq (client (world (step fmt_Sprintf r o)))
       = wrap64 (seq (client (world r)) + 1)).
Proof.
  destruct r as [w l]. destruct o as [sm a rp d|n| |]; simpl.
  - unfold Go. destruct (Go_call w sm a rp d) as [[w2 p]| |] eqn:Hg; [|by left..].
    pose proof (Go_call_client _ _ _ _ _ _ _ Hg) as Hcl.
    destruct (send_client w2 p) as (_ & _ & _ & Hseq). simpl. rewrite Hseq.
    unfold registerCall. rewrite Hcl.
    destruct (closing (client w) || shutdown (client w)); [by left|by right].
  - by left.
  - left. split; [done|]. destruct (shutdown (client w)); [done|].
    destruct l as [err|]; simpl; [by rewrite terminateCalls_client|].
    destruct (receive_turn_client w) as (_ & _ & _ & Hseq).
    by destruct (receive_turn fmt_Sprintf w) as [w' e].
  - left. split; [done|]. unfold Close. destruct (closing (client w)); [done|].
    simpl. by destruct (codec.Close (cc (client w))).
Qed.

Lemma issued_lookup (ops : list Op) (r : Running C) (i : nat) (s : Z) :
  0 ≤ seq (client (world r)) < 2 ^ 64 →
  issued fmt_Sprintf r ops !! i = Some s →
  s = wrap64 (seq (client (world r)) + Z.of_nat i).
Proof.
  revert r i. induction ops as [|o ops IH]; intros r i Hr Hi; [done|].
  simpl in Hi. destruct (registered_cases r o) as [[Hreg Hseq]|[Hreg Hseq]];
    rewrite Hreg in Hi; simpl in Hi.
  - rewrite <- Hseq. apply IH; [by rewrite Hseq|done].
  - destruct i as [|i]; simpl in Hi.
    + injection Hi as <-. rewrite Z.add_0_r. by rewrite wrap64_small.
    + apply IH in Hi; [|rewrite Hseq; apply wrap64_range].
      rewrite Hi, Hseq, wrap64_succ. f_equal. lia.
Qed.

(** C3 (as the code has it).  Along any run of a new client, the [i+1]-th
    number that [registerCall] hands out is [i+1] modulo [2^64]: as long as
    fewer than [2^64] calls were registered the numbers are 1, 2, 3, ...
    with no gap, each larger than those before it, and none is 0. *)
Theorem sequence_numbers_count_up (c0 : C) (o : Option) (ops : list Op)
    (i : nat) (s : Z) :
  issued fmt_Sprintf (start (newClientCodec c0 o)) ops !! i = Some s →
  s = wrap64 (Z.of_nat i + 1)
  ∧ (Z.of_nat i + 1 < 2 ^ 64 →
       s = Z.of_nat i + 1 ∧ s ≠ 0
       ∧ ∀ j s', (j < i)%nat →
           issued fmt_Sprintf (start (newClientCodec c0 o)) ops !! j = Some s' →
           s' < s).
Proof.
  intros Hi.
  assert (Hnth : ∀ j s',
            issued fmt_Sprintf (start (newClientCodec c0 o)) ops !! j = Some s' →
            s' = wrap64 (Z.of_nat j + 1)).
  { intros j s' Hj. apply issued_lookup in Hj; [|simpl; lia].
    rewrite Hj. simpl. f_equal. lia. }
  split; [by apply Hnth|]. intros Hlt.
  rewrite (Hnth _ _ Hi), wrap64_small by lia. split_and!; [done|lia|].
  intros j s' Hj Hs'. rewrite (Hnth _ _ Hs'), wrap64_small; lia.
Qed.

(** Calls issued one after the other with no channel are all registered. *)
Lemma issued_replicate_Go (n : nat) sm a rp (r : Running C) (i : nat) :
  closing (client (world r)) = false → shutdown (client (world r)) = false →
  0 ≤ seq (client (world r)) < 2 ^ 64 → (i < n)%nat →
  issued fmt_Sprintf r (replicate n (OpGo sm a rp None)) !! i
  = Some (wrap64 (seq (client (world r)) + Z.of_nat i)).
Proof.
  revert r i. induction n as [|n IH]; intros r i Hc Hs Hr Hi; [lia|].
  cbn [replicate issued].
  assert (Hreg : registered (world r) (OpGo sm a rp None) = [seq (client (world r))]).
  { unfold registered. rewrite Go_call_nil. unfold registerCall. simpl.
    by rewrite Hc, Hs. }
  rewrite Hreg.
  remember (step fmt_Sprintf r (OpGo sm a rp None)) as r1 eqn:Hr1.
  destruct i as [|i]; simpl.
  { by rewrite Z.add_0_r, wrap64_small. }
  assert (Hr1' : closing (client (world r1)) = false
                 ∧ shutdown (client (world r1)) = false
                 ∧ seq (client (world r1)) = wrap64 (seq (client (world r)) + 1)).
  { subst r1. unfold step, Go. rewrite Go_call_nil. cbv beta iota zeta.
    cbn [world]. set (w2 := mkWorld _ _ _).
    destruct (send_client w2 (length (calls (world r)))) as (-> & -> & _ & ->).
    subst w2. simpl. by rewrite Hc, Hs. }
  destruct Hr1' as (Hc1 & Hs1 & Hseq1).
  rewrite IH; [|done|done|rewrite Hseq1; apply wrap64_range|lia].
  rewrite Hseq1, wrap64_succ. do 2 f_equal. lia.
Qed.

(** After [2^64 - 1] registrations the counter is back at 0. *)
Lemma issued_wraps_to_zero (big : N) sm a rp (c0 : C) (o : Option) :
  big = 18446744073709551616%N →
  issued fmt_Sprintf (start (newClientCodec c0 o))
    (replicate (N.to_nat big) (OpGo sm a rp None)) !! N.to_nat (big - 1)
  = Some 0.
Proof.
  intros Hbig. rewrite issued_replicate_Go; [|done|done|simpl; lia|lia].
  f_equal. rewrite N_nat_Z. subst big. reflexivity.
Qed.

End ClientProperties.

(** ** Options and the handshake of the client *)

Lemma parseOptions_magic (opts : list (option Option)) (o : Option) :
  parseOptions opts = (Some o, None) → Option_MagicNumber o = MagicNumber.
Proof.
  unfold parseOptions. destruct opts as [|[o1|] rest].
  - by intros [= <-].
  - case_bool_decide; [done|]. intros [= <-]. by case_bool_decide.
  - by intros [= <-].
Qed.

(** C10.  What [parseOptions] does, and the handshake that follows.  With one
    option it returns it with the magic number overwritten by [0x3bef5c]
    and an empty codec type replaced by that of gob; with a first option
    that is not [nil] and another after it, it fails with "number of options
    is more than 1".  Whenever it succeeds the magic number is [0x3bef5c],
    and a client that [Dial] built has written that number in its handshake,
    which [ServeConn] accepts.  The claim fails in one case, stated first:
    [opts[0] == nil] is tested before [len(opts) != 1], so with [nil] as the
    first option the default is returned and the options after it are not
    rejected, against the comment of the function ("only one option is
    allowed"), its error text and what it does when the first option is not
    [nil]. *)
Theorem parseOptions_and_handshake (opts : list (option Option)) :
  ((opts = [] ∨ ∃ rest, opts = None :: rest) →
     parseOptions opts = (Some DefaultOption, None))
  ∧ (∀ o, opts = [Some o] →
       parseOptions opts
       = (Some (mkOption MagicNumber
                  (if bool_decide (CodecType o = "") then codec.GobType
                   else CodecType o)), None))
  ∧ (∀ o x rest, opts = Some o :: x :: rest →
       parseOptions opts = (None, Some (errors_New "number of options is more than 1")))
  ∧ (∀ o, parseOptions opts = (Some o, None) → Option_MagicNumber o = MagicNumber)
  ∧ (∀ conn w,
       Dial (inl conn) opts = (inl w, None) →
       ∃ o, parseOptions opts = (Some o, None)
            ∧ opt (client w) = o
            ∧ Option_MagicNumber o = MagicNumber
            ∧ codec.output (codec.conn (cc (client w)))
              = codec.output conn ++ [codec.WJson MagicNumber (CodecType o)]
            ∧ ∀ gr fuel rest,
                ServeConn gr fuel (open_conn (codec.WJson MagicNumber (CodecType o) :: rest))
                = match @serveCodec _ (codec.GobCodec_Codec gr) fuel
                          (codec.NewGobCodec (open_conn rest)) with
                  | Ok c => Ok (codec.conn_Close (codec.conn c)).1
                  | Panicked msg => Panicked msg
                  | OutOfFuel => OutOfFuel
                  end).
Proof.
  split_and!.
  - by intros [->|[rest ->]].
  - intros o ->. unfold parseOptions. simpl. by case_bool_decide.
  - by intros o x rest ->.
  - apply parseOptions_magic.
  - intros conn w. unfold Dial.
    destruct (parseOptions opts) as [[o|] [e|]] eqn:Hp; try done.
    pose proof (parseOptions_magic _ _ Hp) as Hm.
    unfold NewClient, json_Encode, codec.conn_Write.
    rewrite NewCodecFuncMap_lookup.
    destruct (decide (CodecType o = codec.GobType)) as [Hct|]; [|done].
    destruct (codec.closed conn) eqn:Hcl; [done|].
    intros [= <-]. exists o. simpl. rewrite Hm. split_and!; try done.
    intros gr fuel rest. unfold ServeConn. simpl.
    rewrite NewCodecFuncMap_lookup, decide_True by done. done.
Qed.

(** ** The properties on sample runs *)

(** C2 on a client with two pending calls whose connection ends. *)
Lemma receive_header_failure_terminates_pending_witness :
  receive fmt_plain 1 (sample_pending []) = Ok (terminateCalls (sample_pending []) io_EOF)
  ∧ shutdown (client (terminateCalls (sample_pending []) io_EOF)) = true
  ∧ Error <$> calls (terminateCalls (sample_pending []) io_EOF) !! 0%nat
    = Some (Some io_EOF)
  ∧ completions (terminateCalls (sample_pending []) io_EOF) 0 = 1%nat.
Proof.
  destruct (receive_header_failure_terminates_pending fmt_plain (sample_pending [])
              (cc (client (sample_pending []))) io_EOF)
    as (Hrun & _ & _ & Heff).
  - apply (run_wf fmt_plain (start (sample_client []))), newClientCodec_wf.
  - vm_compute. reflexivity.
  - destruct (Heff (sample_pending [])) as (Hsd & Hpend & _).
    + apply (run_wf fmt_plain (start (sample_client []))), newClientCodec_wf.
    + destruct (Hpend 1 0%nat) as (Herr & Hcomp & _); [vm_compute; reflexivity|].
      split_and!; [exact (proj2 (Hrun 0%nat))|exact Hsd|exact Herr|exact Hcomp].
Defined.

(** The run of C2 in full: both calls carry [io.EOF], each channel holds its
    call once. *)
Example receive_on_closed_stream :
  (λ w, (shutdown (client w), Error <$> calls w, sent <$> chans w))
    <$> (match receive fmt_plain 1 (sample_pending []) with
         | Ok w => Some w
         | _ => None
         end)
  = Some (true, [Some io_EOF; Some io_EOF], [[0%nat]; [1%nat]]).
Proof. vm_compute. reflexivity. Qed.

(** C3 on a run of five calls with a reply received in between and one call
    after [Close]: the third number handed out is 3. *)
Lemma sequence_numbers_count_up_witness :
  3 = wrap64 (Z.of_nat 2 + 1)
  ∧ (Z.of_nat 2 + 1 < 2 ^ 64 →
       3 = Z.of_nat 2 + 1 ∧ 3 ≠ 0
       ∧ ∀ j s', (j < 2)%nat →
           issued fmt_plain
             (start (sample_client
                       [codec.WHeader (hdr 1 ""); codec.WBody (VString "one")]))
             [go 1; OpReceive; go 2; go 3; go 4; OpClose; go 5] !! j = Some s' →
           s' < 3).
Proof.
  apply (sequence_numbers_count_up fmt_plain
           (codec.NewGobCodec
              (open_conn [codec.WHeader (hdr 1 ""); codec.WBody (VString "one")]))
           DefaultOption [go 1; OpReceive; go 2; go 3; go 4; OpClose; go 5] 2 3).
  vm_compute. reflexivity.
Defined.

(** The numbers of that run: the call after [Close] gets none. *)
Example issued_on_sample_run :
  issued fmt_plain
    (start (sample_client [codec.WHeader (hdr 1 ""); codec.WBody (VString "one")]))
    [go 1; OpReceive; go 2; go 3; go 4; OpClose; go 5]
  = [1; 2; 3; 4].
Proof. vm_compute. reflexivity. Qed.

(** C3 as stated fails: the call registered after [2^64 - 1] others gets
    the number 0. *)
Lemma sequence_number_zero_is_issued :
  issued fmt_plain (start (sample_client []))
    (replicate (N.to_nat 18446744073709551616) (go 1))
    !! N.to_nat (18446744073709551616 - 1)
  = Some 0.
Proof. exact (issued_wraps_to_zero fmt_plain _ _ _ _ _ _ eq_refl). Qed.



(** C6 on a client that was closed. *)
Lemma registration_refused_when_closing_or_shutdown_witness :
  registerCall (Close (sample_pending [])).1 0
  = ((Close (sample_pending [])).1, (0, Some ErrShutdown))
  ∧ seq (client (world (step fmt_plain (start (Close (sample_pending [])).1) (go 3))))
    = 3
  ∧ registered (Close (sample_pending [])).1 (go 3) = [].
Proof.
  destruct (registration_refused_when_closing_or_shutdown
              (Close (sample_pending [])).1 0) as (Hreg & _ & _ & Hgo);
    [left; vm_compute; reflexivity|].
  split; [exact Hreg|].
  destruct (Hgo "Foo.Sum" (VInt 3) (Some (VString "")) None
              (world (step fmt_plain (start (Close (sample_pending [])).1) (go 3)))
              2%nat)
    as (Hcl & Hnone & _).
  - apply (step_wf fmt_plain (start (sample_pending [])) OpClose),
      (run_wf fmt_plain (start (sample_client []))), newClientCodec_wf.
  - vm_compute. reflexivity.
  - split; [|exact Hnone]. by rewrite Hcl.
Defined.

(** C10 on the failing input: two options after a [nil] are not rejected,
    and [Dial] builds a client with the default option; the same two options
    alone are rejected. *)
Lemma parseOptions_accepts_options_after_nil :
  parseOptions [None; Some (mkOption 1 "application/json"); Some (mkOption 2 "")]
  = (Some DefaultOption, None)
  ∧ parseOptions [Some (mkOption 1 "application/json"); Some (mkOption 2 "")]
    = (None, Some (errors_New "number of options is more than 1"))
  ∧ Dial (inl (open_conn []))
      [None; Some (mkOption 1 "application/json"); Some (mkOption 2 "")]
    = (inl (newClientCodec
              (codec.NewGobCodec
                 (codec.mkConn [] [codec.WJson MagicNumber codec.GobType] false))
              DefaultOption),
       None).
Proof. split_and!; reflexivity. Qed.

(** X2 on a call whose argument gob refuses: [Write] fails, the call is
    ended with that error and is no longer pending; the next call gets the
    next number. *)
Lemma send_write_failure_completes_call_witness :
  pending (client (send (Go_call_world (sample_pending [])) 2))
  = delete 3 (pending (client (sample_pending [])))
  ∧ Error <$> calls (send (Go_call_world (sample_pending [])) 2) !! 2%nat
    = Some (Some (errors_New "gob: unsupported type func()"))
  ∧ completions (send (Go_call_world (sample_pending [])) 2) 2 = 1%nat
  ∧ seq (client (send (Go_call_world (sample_pending [])) 2)) = 4.
Proof.
  destruct (send_write_failure_completes_call (Go_call_world (sample_pending [])) 2
              (mkCall 0 "Foo.Sum" (VFunc "f") None None 2)
              (codec.mkGobCodec
                 (codec.mkConn []
                    [codec.WHeader (hdr 1 ""); codec.WBody (VInt 1);
                     codec.WHeader (hdr 2 ""); codec.WBody (VInt 2);
                     codec.WHeader (hdr 3 "")] true)
                 (codec.mkWriter [] None))
              (errors_New "gob: unsupported type func()"))
    as (Hp & _ & Hs & Hc & Hn);
    [reflexivity|reflexivity|reflexivity|vm_compute; lia|vm_compute; reflexivity|].
  split_and!; [exact Hp|by rewrite Hc|exact Hn|exact Hs].
Defined.

(** * More of the code *)

(** ** The gob codec and the server on a stream *)

Section GobStream.

Variable gob_refuses : Value → option error.

#[local] Instance gob_stream_codec : codec.Codec codec.GobCodec :=
  codec.GobCodec_Codec gob_refuses.

(** [Write] on a healthy codec, when gob encodes the body. *)
Lemma GobCodec_Write_healthy (c : codec.GobCodec) (hd : codec.Header) (body : Value) :
  healthy c → gob_refuses body = None →
  codec.GobCodec_Write gob_refuses c hd body
  = (codec.mkGobCodec
       (codec.mkConn (codec.input (codec.conn c))
          (codec.output (codec.conn c) ++ [codec.WHeader hd; codec.WBody body])
          false)
       (codec.mkWriter [] None),
     None).
Proof.
  destruct c as [[inp out cl] b]. intros [Hcl Hb] Hr. simpl in *. subst.
  unfold codec.GobCodec_Write, codec.enc_Encode_header, codec.enc_Encode_body,
    codec.buf_Write. simpl. rewrite Hr. reflexivity.
Qed.

(** [readRequest] on a stream that starts with a header: the next item, if
    any, is taken as the body, whatever it is. *)
Lemma readRequest_gob_header (hd : codec.Header) (rest out : list codec.Item) :
  ∃ a, readRequest
         (codec.mkGobCodec (codec.mkConn (codec.WHeader hd :: rest) out false)
            (codec.mkWriter [] None))
       = (codec.mkGobCodec (codec.mkConn (tail rest) out false) (codec.mkWriter [] None),
          Some (mkRequest hd a None), None).
Proof.
  destruct rest as [|[m t|hd'|v|] rest']; try (eexists; reflexivity).
  destruct v; eexists; reflexivity.
Qed.

(** [readRequest] on a stream that does not start with a header. *)
Lemma readRequest_gob_stop (inp out : list codec.Item) :
  (∀ hd rest, inp ≠ codec.WHeader hd :: rest) →
  ∃ e, readRequest
         (codec.mkGobCodec (codec.mkConn inp out false) (codec.mkWriter [] None))
       = (codec.mkGobCodec (codec.mkConn (tail inp) out false) (codec.mkWriter [] None),
          None, Some e).
Proof.
  intros Hno. destruct inp as [|[m t|hd|v|] rest]; try (eexists; reflexivity).
  by destruct (Hno hd rest).
Qed.

Lemma serveCodec_gob_stream (fuel : nat) (inp out : list codec.Item) :
  (∀ s, gob_refuses (VString s) = None) →
  (length inp < fuel)%nat →
  serveCodec fuel (codec.mkGobCodec (codec.mkConn inp out false) (codec.mkWriter [] None))
  = Ok (codec.mkGobCodec
          (codec.mkConn (left_unread inp) (out ++ expected_responses inp) true)
          (codec.mkWriter [] None)).
Proof.
  intros Hstr. revert inp out.
  induction fuel as [|fuel IH]; intros inp out Hlen; [lia|].
  cbn [serveCodec].
  destruct inp as [|it rest].
  { destruct (readRequest_gob_stop [] out) as [e ->]; [done|].
    simpl. by rewrite app_nil_r. }
  destruct it as [m t|hd|v|];
    try (match goal with
         | |- context [readRequest (codec.mkGobCodec (codec.mkConn ?i _ _) _)] =>
             destruct (readRequest_gob_stop i out) as [e ->]; [done|];
             simpl; by rewrite app_nil_r
         end).
  destruct (readRequest_gob_header hd rest out) as [a ->].
  unfold handleRequest, sendResponse. cbn [h argv replyv default].
  change (codec.Write ?c ?x ?y) with (codec.GobCodec_Write gob_refuses c x y).
  unfold placeholder_reply at 1.
  rewrite GobCodec_Write_healthy; [|done|apply Hstr].
  cbn [fst codec.conn codec.input codec.output].
  rewrite IH by (destruct rest; simpl in *; lia).
  rewrite <- app_assoc. by destruct rest.
Qed.

(** X5.  What one gob codec writes, its peer reads back.  A codec on an open
    connection with nothing buffered writes a header and a body the gob
    accepts: [Write] returns [nil], leaves nothing in the buffer, and puts
    exactly the header and then the body on the connection.  A peer that had
    nothing left to read then gets that header from [ReadHeader] and that
    body from [ReadBody] into a destination of its type; [ReadBody(nil)]
    discards the body; either way nothing is left to read. *)
Theorem GobCodec_round_trip (c p : codec.GobCodec) (hd : codec.Header) (body d : Value) :
  healthy c → gob_refuses body = None →
  codec.closed (codec.conn p) = false → codec.input (codec.conn p) = [] →
  same_type d body = true →
  let w := codec.GobCodec_Write gob_refuses c hd body in
  let items := drop (length (codec.output (codec.conn c))) (codec.output (codec.conn w.1)) in
  let p0 := codec.mkGobCodec (conn_deliver (codec.conn p) items) (codec.buf p) in
  let p1 := (codec.GobCodec_ReadHeader p0).1 in
  w.2 = None
  ∧ healthy w.1
  ∧ items = [codec.WHeader hd; codec.WBody body]
  ∧ (codec.GobCodec_ReadHeader p0).2 = inl hd
  ∧ codec.GobCodec_ReadBody p1 (Some d) = (p, Some body, None)
  ∧ codec.GobCodec_ReadBody p1 None = (p, None, None).
Proof.
  intros Hc Hr Hcl Hin Hty. rewrite (GobCodec_Write_healthy _ _ _ Hc Hr).
  cbn zeta. cbn [fst snd codec.conn codec.output].
  rewrite drop_app_length.
  destruct p as [[pin pout pcl] pb]. simpl in Hcl, Hin. subst pin pcl.
  split_and!; try done.
  unfold codec.GobCodec_ReadBody, codec.GobCodec_ReadHeader, conn_deliver. simpl.
  by rewrite Hty.
Qed.

End GobStream.

(** On a stream of whole requests every request is answered and nothing is
    left unread. *)
Lemma expected_responses_request_stream (reqs : list (codec.Header * Value)) :
  expected_responses (request_stream reqs) = response_stream reqs
  ∧ left_unread (request_stream reqs) = []
  ∧ length (request_stream reqs) = (2 * length reqs)%nat.
Proof.
  induction reqs as [|[hd v] reqs (IH1 & IH2 & IH3)]; [done|].
  unfold request_stream, response_stream in *. cbn [mbind list_bind app fst snd] in *.
  cbn [expected_responses left_unread length]. rewrite IH1, IH2, IH3.
  split_and!; [done|done|lia].
Qed.

(** [ServeConn] after the handshake is [serveCodec] on a gob codec. *)
Lemma ServeConn_gob_stream
    (gob_refuses : Value → option error) (fuel : nat) (reqs : list codec.Item) :
  (∀ s, gob_refuses (VString s) = None) →
  (length reqs < fuel)%nat →
  ServeConn gob_refuses fuel
    (open_conn (codec.WJson MagicNumber codec.GobType :: reqs))
  = Ok (codec.mkConn (left_unread reqs) (expected_responses reqs) true).
Proof.
  intros Hstr Hlen. unfold ServeConn, open_conn, json_Decode. cbn [codec.conn_Read
    codec.closed codec.input codec.output].
  rewrite bool_decide_true by (unfold MagicNumber; lia).
  cbn [Option_MagicNumber CodecType].
  rewrite bool_decide_false by (intros Hne; by apply Hne).
  rewrite NewCodecFuncMap_lookup.
  rewrite decide_True by done.
  change (serveCodec fuel (codec.NewGobCodec ?c))
    with (@serveCodec _ (gob_stream_codec gob_refuses) fuel
            (codec.mkGobCodec c (codec.mkWriter [] None))).
  rewrite (serveCodec_gob_stream gob_refuses fuel reqs [] Hstr Hlen).
  reflexivity.
Qed.

(** X4.  The server on an accepted connection.  After the handshake with the
    magic number and the gob codec, as long as the stream has a header where
    a request starts, the server takes the next value as the body, whatever
    it is, and answers with the header as read and the reply of the
    placeholder handler, in the order of the requests; at the first read of
    a header that fails (end of the stream, or another value) it stops and
    the connection is closed.  On a stream of whole requests: every request
    is answered, with its own header and [geerpc resp <seq>], nothing else
    is written and nothing is left unread. *)
Theorem ServeConn_answers_every_request
    (gob_refuses : Value → option error) (fuel : nat) :
  (∀ s, gob_refuses (VString s) = None) →
  (∀ items, (length items < fuel)%nat →
     ServeConn gob_refuses fuel
       (open_conn (codec.WJson MagicNumber codec.GobType :: items))
     = Ok (codec.mkConn (left_unread items) (expected_responses items) true))
  ∧ (∀ reqs, (2 * length reqs < fuel)%nat →
       ServeConn gob_refuses fuel
         (open_conn (codec.WJson MagicNumber codec.GobType :: request_stream reqs))
       = Ok (codec.mkConn [] (response_stream reqs) true)).
Proof.
  intros Hstr. split.
  - intros items Hlen. by apply ServeConn_gob_stream.
  - intros reqs Hlen.
    destruct (expected_responses_request_stream reqs) as (He & Hl & Hn).
    rewrite ServeConn_gob_stream by (done || lia). by rewrite He, Hl.
Qed.

Section ServerEnds.

Variable gob_refuses : Value → option error.

#[local] Instance gob_server_codec : codec.Codec codec.GobCodec :=
  codec.GobCodec_Codec gob_refuses.

(** [Write] reads nothing and only adds to what the connection carries. *)
Lemma GobCodec_Write_conn (c : codec.GobCodec) (hd : codec.Header) (body : Value) :
  codec.input (codec.conn (codec.GobCodec_Write gob_refuses c hd body).1)
  = codec.input (codec.conn c)
  ∧ ∃ more, codec.output (codec.conn (codec.GobCodec_Write gob_refuses c hd body).1)
            = codec.output (codec.conn c) ++ more.
Proof.
  destruct c as [[inp out cl] [bf we]].
  unfold codec.GobCodec_Write, codec.enc_Encode_header, codec.enc_Encode_body,
    codec.buf_Write, codec.buf_Flush, codec.conn_Write, codec.GobCodec_Close,
    codec.conn_Close.
  destruct we as [e|], (gob_refuses body) as [e'|], cl, bf as [|it bf]; simpl;
    (split; [done|]); eauto using app_nil_r.
Qed.

(** [readRequest] writes nothing; when it returns a request it has read at
    least the header. *)
Lemma readRequest_conn (c : codec.GobCodec) :
  codec.output (codec.conn (readRequest c).1.1) = codec.output (codec.conn c)
  ∧ match readRequest c with
    | (c1, Some _, None) =>
        (length (codec.input (codec.conn c1)) < length (codec.input (codec.conn c)))%nat
    | (_, None, Some _) => True
    | _ => False
    end.
Proof.
  destruct c as [[inp out cl] b].
  destruct cl; [done|]. destruct inp as [|[m t|hd|v|] rest]; try done.
  destruct rest as [|[m t|hd'|v|] rest]; try (split; [done|simpl; lia]).
  unfold readRequest, readRequestHeader. simpl.
  destruct v; (split; [done|simpl; lia]).
Qed.

Lemma serveCodec_ends (fuel : nat) (c : codec.GobCodec) :
  (length (codec.input (codec.conn c)) < fuel)%nat →
  ∃ c', serveCodec fuel c = Ok c'
        ∧ codec.closed (codec.conn c') = true
        ∧ ∃ more, codec.output (codec.conn c') = codec.output (codec.conn c) ++ more.
Proof.
  revert c. induction fuel as [|fuel IH]; intros c Hlen; [lia|].
  cbn [serveCodec]. destruct (readRequest_conn c) as [Hout Hin].
  destruct (readRequest c) as [[c1 [req|]] [e|]]; cbn [fst] in *; try done.
  - unfold handleRequest, sendResponse. cbn [h argv replyv default].
    change (codec.Write ?c ?x ?y) with (codec.GobCodec_Write gob_refuses c x y).
    match goal with |- context [codec.GobCodec_Write gob_refuses c1 ?x ?y] =>
      destruct (GobCodec_Write_conn c1 x y) as (Hi & more & Ho);
      destruct (IH (codec.GobCodec_Write gob_refuses c1 x y).1) as (c' & Hs & Hc & more' & Ho')
    end; [rewrite Hi; lia|].
    exists c'. split_and!; [done|done|].
    exists (more ++ more'). by rewrite Ho', Ho, Hout, app_assoc.
  - eexists. split_and!; [done|done|]. exists []. by rewrite app_nil_r.
Qed.

End ServerEnds.

(** X16.  [ServeConn] always ends with the connection closed.  Whatever the
    connection delivers (a bad handshake, junk, requests cut short) and
    whatever the gob refuses to encode, on a stream of finitely many values
    [ServeConn] returns: the loop of [serveCodec] takes at most one turn per
    value and one more, no request is ever [nil] where it is used, the
    connection is closed at the end, and what was on the connection before
    is still there, before anything the server wrote. *)
Theorem ServeConn_ends_with_connection_closed
    (gob_refuses : Value → option error) (fuel : nat) (conn : codec.Conn) :
  (length (codec.input conn) ≤ fuel)%nat →
  ∃ conn', ServeConn gob_refuses fuel conn = Ok conn'
           ∧ codec.closed conn' = true
           ∧ ∃ more, codec.output conn' = codec.output conn ++ more.
Proof.
  intros Hlen. unfold ServeConn.
  pose proof (json_Decode_output conn) as Hout.
  assert (Hin : ∀ o, (json_Decode conn).2 = inl o →
            (length (codec.input (json_Decode conn).1) < length (codec.input conn))%nat).
  { destruct conn as [inp out cl]. unfold json_Decode, codec.conn_Read. simpl.
    destruct cl; [done|]. destruct inp as [|[m t|hd|v|] rest]; try done.
    case_bool_decide; [|done]. simpl. lia. }
  destruct (json_Decode conn) as [conn1 [o|e]]; cbn [fst snd] in *.
  2:{ eexists. split_and!; [done|done|]. exists []. by rewrite app_nil_r. }
  case_bool_decide.
  { eexists. split_and!; [done|done|]. exists []. by rewrite app_nil_r. }
  rewrite NewCodecFuncMap_lookup. destruct (decide (CodecType o = codec.GobType)).
  2:{ eexists. split_and!; [done|done|]. exists []. by rewrite app_nil_r. }
  destruct (serveCodec_ends gob_refuses fuel (codec.NewGobCodec conn1))
    as (c' & Hs & Hc & more & Ho).
  { simpl. specialize (Hin o eq_refl). lia. }
  change (serveCodec fuel (codec.NewGobCodec conn1))
    with (@serveCodec _ (gob_server_codec gob_refuses) fuel (codec.NewGobCodec conn1)).
  rewrite Hs. eexists. split_and!; [done|done|].
  exists more. simpl. by rewrite Ho, <- Hout.
Qed.

(** ** The client on a gob connection *)

Lemma alter_snoc {A : Type} (f : A → A) (l : list A) (x : A) :
  alter f (length l) (l ++ [x]) = l ++ [f x].
Proof. induction l as [|y l IH]; simpl; [done|]. by f_equal. Qed.

Lemma lookup_snoc {A : Type} (l : list A) (x : A) : (l ++ [x]) !! length l = Some x.
Proof. by rewrite lookup_app_r, Nat.sub_diag. Qed.

(** The server answers the requests of a run of [Go] calls one by one. *)
Lemma expected_responses_request_items (s : Z) (reqs : list (string * Value * option Value)) :
  expected_responses (request_items s reqs) = answer_items (session_answers s reqs)
  ∧ left_unread (request_items s reqs) = []
  ∧ length (request_items s reqs) = (2 * length reqs)%nat.
Proof.
  revert s. induction reqs as [|[[sm a] r] reqs IH]; intros s; [done|].
  destruct (IH (wrap64 (s + 1))) as (IH1 & IH2 & IH3).
  cbn [request_items session_answers fst snd expected_responses left_unread length].
  unfold answer_items in *. cbn [mbind list_bind app fst snd].
  rewrite IH1, IH2, IH3. split_and!; [done|done|lia].
Qed.

(** Below 2^64 the answers are numbered consecutively, without repetition. *)
Lemma session_answers_lookup (reqs : list (string * Value * option Value)) (s : Z) (k : nat)
    (req : string * Value * option Value) :
  0 ≤ s → s + Z.of_nat (length reqs) < 2 ^ 64 →
  reqs !! k = Some req →
  session_answers s reqs !! k
  = Some (codec.mkHeader req.1.1 (s + Z.of_nat k) "",
          "geerpc resp " +:+ pretty (s + Z.of_nat k)).
Proof.
  revert s k. induction reqs as [|r reqs IH]; intros s k Hs Hlen Hk; [done|].
  cbn [length] in Hlen. destruct k as [|k].
  - injection Hk as ->. cbn. by rewrite Z.add_0_r.
  - cbn [session_answers]. rewrite wrap64_small by lia.
    etrans; [apply (IH (s + 1) k); [lia|lia|exact Hk]|].
    by replace (s + 1 + Z.of_nat k) with (s + Z.of_nat (S k)) by lia.
Qed.

Lemma session_answers_length (reqs : list (string * Value * option Value)) (s : Z) :
  length (session_answers s reqs) = length reqs.
Proof. revert s. induction reqs as [|r reqs IH]; intros s; simpl; [done|]. by rewrite IH. Qed.

Lemma session_answers_NoDup (reqs : list (string * Value * option Value)) (s : Z) :
  0 ≤ s → s + Z.of_nat (length reqs) < 2 ^ 64 →
  NoDup ((λ a, codec.Seq a.1) <$> session_answers s reqs).
Proof.
  intros Hs Hlen. apply NoDup_alt. intros i j x.
  rewrite !list_lookup_fmap. intros Hi Hj.
  destruct (session_answers s reqs !! i) as [ai|] eqn:Hai; [|done].
  destruct (session_answers s reqs !! j) as [aj|] eqn:Haj; [|done].
  pose proof (lookup_lt_Some _ _ _ Hai) as Hli.
  pose proof (lookup_lt_Some _ _ _ Haj) as Hlj.
  rewrite session_answers_length in Hli, Hlj.
  destruct (lookup_lt_is_Some_2 reqs i Hli) as [ri Hri].
  destruct (lookup_lt_is_Some_2 reqs j Hlj) as [rj Hrj].
  rewrite (session_answers_lookup reqs s i ri Hs Hlen Hri) in Hai.
  rewrite (session_answers_lookup reqs s j rj Hs Hlen Hrj) in Haj.
  injection Hai as <-. injection Haj as <-. simpl in Hi, Hj.
  injection Hi as <-. injection Hj as Hj. lia.
Qed.

Section GobClient.

Variable gob_refuses : Value → option error.

Variable fmt_Sprintf : string → string.

#[local] Instance gob_client_codec : codec.Codec codec.GobCodec :=
  codec.GobCodec_Codec gob_refuses.

(** A header read takes the header off the stream; a body read that
    succeeds takes at least one value off. *)
Lemma GobCodec_ReadHeader_progress (c c1 : codec.GobCodec) (hd : codec.Header) :
  codec.GobCodec_ReadHeader c = (c1, inl hd) →
  codec.input (codec.conn c) = codec.WHeader hd :: codec.input (codec.conn c1).
Proof.
  destruct c as [[inp out cl] b]. unfold codec.GobCodec_ReadHeader, codec.conn_Read.
  simpl. destruct cl; [done|]. destruct inp as [|[m t|hd'|v|] rest]; try done.
  by intros [= <- <-].
Qed.

Lemma GobCodec_ReadBody_progress (c c1 : codec.GobCodec) (d v : option Value) :
  codec.GobCodec_ReadBody c d = (c1, v, None) →
  (length (codec.input (codec.conn c1)) < length (codec.input (codec.conn c)))%nat.
Proof.
  destruct c as [[inp out cl] b]. unfold codec.GobCodec_ReadBody, codec.conn_Read.
  simpl. destruct cl; [done|]. destruct inp as [|[m t|hd'|v'|] rest]; try done.
  - destruct d; [done|]. intros [= <- _]. simpl. lia.
  - destruct d as [d|]; [destruct (same_type d v')|]; try done;
      intros [= <- _]; simpl; lia.
Qed.

(** A turn of the loop of [receive] that ends without error has read
    something. *)
Lemma receive_turn_progress (w w' : World codec.GobCodec) :
  receive_turn fmt_Sprintf w = (w', None) →
  (length (unread w') < length (unread w))%nat.
Proof.
  unfold receive_turn, unread.
  change (codec.ReadHeader ?c) with (codec.GobCodec_ReadHeader c).
  destruct (codec.GobCodec_ReadHeader (cc (client w))) as [cc1 [hd|e]] eqn:Hh; [|done].
  apply GobCodec_ReadHeader_progress in Hh. rewrite Hh.
  unfold removeCall.
  change (codec.ReadBody ?c ?d) with (codec.GobCodec_ReadBody c d).
  destruct w as [[c0 o0 h0 s0 pe0 cl0 sh0] cs chs].
  cbn [with_client set_cc set_pending client cc pending update_call].
  destruct (pe0 !! codec.Seq hd) as [p|].
  - case_bool_decide.
    + destruct (codec.GobCodec_ReadBody cc1 None) as [[cc2 v] e] eqn:Hb.
      intros [= <- ->]. rewrite done_client. simpl.
      apply GobCodec_ReadBody_progress in Hb. lia.
    + match goal with |- context [codec.GobCodec_ReadBody cc1 ?d] =>
        destruct (codec.GobCodec_ReadBody cc1 d) as [[cc2 v] e] eqn:Hb end.
      intros [= <- ->]. rewrite done_client. simpl.
      apply GobCodec_ReadBody_progress in Hb. lia.
  - destruct (codec.GobCodec_ReadBody cc1 None) as [[cc2 v] e] eqn:Hb.
    intros [= <- ->]. simpl.
    apply GobCodec_ReadBody_progress in Hb. lia.
Qed.

Lemma receive_loop_wf (fuel : nat) (w w' : World codec.GobCodec) (e : error) :
  well_formed w → receive_loop fmt_Sprintf fuel w = Ok (w', e) → well_formed w'.
Proof.
  revert w. induction fuel as [|fuel IH]; intros w Hwf; [done|]. simpl.
  destruct (receive_turn fmt_Sprintf w) as [w1 [e1|]] eqn:Ht.
  - intros [= <- _]. change w1 with (w1, Some e1).1. rewrite <- Ht.
    by apply receive_turn_wf.
  - apply IH. change w1 with (w1, @None error).1. rewrite <- Ht.
    by apply receive_turn_wf.
Qed.

Lemma receive_loop_ends (fuel : nat) (w : World codec.GobCodec) :
  (length (unread w) < fuel)%nat →
  ∃ w' e, receive_loop fmt_Sprintf fuel w = Ok (w', e).
Proof.
  revert w. induction fuel as [|fuel IH]; intros w Hlen; [lia|]. simpl.
  destruct (receive_turn fmt_Sprintf w) as [w1 [e1|]] eqn:Ht; [by eauto|].
  apply IH. apply receive_turn_progress in Ht. lia.
Qed.

(** X6.  [receive] ends when the stream ends.  On a connection that will
    deliver finitely many values the loop of [receive] stops after at most
    one turn per value and one more: it never spins.  [terminateCalls] then
    runs with the error the loop stopped on; the client is no longer
    available, and every call still pending carries that error and is
    signalled. *)
Theorem receive_ends_when_stream_ends (fuel : nat) (w : World codec.GobCodec) :
  well_formed w →
  (length (unread w) < fuel)%nat →
  ∃ w1 e, receive_loop fmt_Sprintf fuel w = Ok (w1, e)
          ∧ receive fmt_Sprintf fuel w = Ok (terminateCalls w1 e)
          ∧ IsAvailable (terminateCalls w1 e) = false
          ∧ ∀ s p, pending (client w1) !! s = Some p →
              Error <$> calls (terminateCalls w1 e) !! p = Some (Some e)
              ∧ completions (terminateCalls w1 e) p = S (completions w1 p).
Proof.
  intros Hwf Hlen.
  destruct (receive_loop_ends fuel w Hlen) as (w1 & e & Hloop).
  exists w1, e.
  pose proof (receive_loop_wf _ _ _ _ Hwf Hloop) as Hwf1.
  destruct (terminateCalls_effect w1 e Hwf1) as (Hsd & _ & Hpend & _).
  split_and!; [done| |..].
  - unfold receive. by rewrite Hloop.
  - unfold IsAvailable. by rewrite Hsd.
  - exact Hpend.
Qed.

(** [send] on a client that is available, with a codec on an open connection
    and an argument the gob accepts. *)
Lemma send_gob_healthy (w : World codec.GobCodec) (p : nat) (c : Call) :
  IsAvailable w = true → healthy (cc (client w)) →
  calls w !! p = Some c → gob_refuses (Args c) = None →
  send w p
  = mkWorld
      (mkClient
         (codec.mkGobCodec
            (codec.mkConn (unread w)
               (codec.output (codec.conn (cc (client w)))
                ++ [codec.WHeader (codec.mkHeader (ServiceMethod c) (seq (client w)) "");
                    codec.WBody (Args c)])
               false)
            (codec.mkWriter [] None))
         (opt (client w))
         (codec.mkHeader (ServiceMethod c) (seq (client w)) "")
         (wrap64 (seq (client w) + 1))
         (<[seq (client w) := p]> (pending (client w)))
         false false)
      (alter (set_Seq (seq (client w))) p (calls w))
      (chans w).
Proof.
  intros Hav Hh Hp Hr. unfold IsAvailable in Hav.
  apply andb_true_iff in Hav as [Hsd Hcl]. apply negb_true_iff in Hsd, Hcl.
  unfold send. rewrite registerCall_accepted by done.
  cbn [calls client cc set_header set_seq set_pending set_cc with_client
       opt header seq pending closing shutdown chans].
  rewrite list_lookup_alter, decide_True, Hp by done.
  cbn [fmap option_fmap option_map default ServiceMethod Args set_Seq].
  change (codec.Write ?c ?x ?y) with (codec.GobCodec_Write gob_refuses c x y).
  rewrite (GobCodec_Write_healthy gob_refuses _ _ _ Hh Hr).
  unfold with_client, set_cc, set_header, set_seq, set_pending, unread. simpl.
  by rewrite Hcl, Hsd.
Qed.

Lemma Go_gob_healthy (w : World codec.GobCodec) sm a r :
  IsAvailable w = true → healthy (cc (client w)) → gob_refuses a = None →
  ∃ w', Go w sm a r None = Ok (w', length (calls w))
        ∧ IsAvailable w' = true ∧ healthy (cc (client w'))
        ∧ seq (client w') = wrap64 (seq (client w) + 1)
        ∧ unread w' = unread w
        ∧ codec.output (codec.conn (cc (client w')))
          = codec.output (codec.conn (cc (client w)))
            ++ [codec.WHeader (codec.mkHeader sm (seq (client w)) ""); codec.WBody a].
Proof.
  intros Hav Hh Hr. unfold Go. rewrite Go_call_nil. eexists. split; [reflexivity|].
  rewrite (send_gob_healthy _ _ (mkCall 0 sm a r None (length (chans w))));
    [done|done|done| |done].
  simpl. by rewrite lookup_app_r, Nat.sub_diag.
Qed.

(** X7.  The requests of successive calls of [Go] reach the wire whole and in
    the order of the calls: each call writes its header, numbered with the
    next sequence number, and then its argument, and nothing else; the
    client stays available, its codec ready for the next call, and what it
    has still to read is untouched. *)
Theorem Go_requests_on_the_wire (w : World codec.GobCodec)
    (reqs : list (string * Value * option Value)) :
  IsAvailable w = true → healthy (cc (client w)) →
  Forall (λ r, gob_refuses r.1.2 = None) reqs →
  let w' := world (run fmt_Sprintf (start w)
                     ((λ r, OpGo r.1.1 r.1.2 r.2 None) <$> reqs)) in
  codec.output (codec.conn (cc (client w')))
  = codec.output (codec.conn (cc (client w))) ++ request_items (seq (client w)) reqs
  ∧ IsAvailable w' = true ∧ healthy (cc (client w')) ∧ unread w' = unread w.
Proof.
  intros Hav Hh Hall. revert w Hav Hh.
  induction Hall as [|[[sm a] r] reqs Hr _ IH]; intros w Hav Hh.
  { simpl. by rewrite app_nil_r. }
  destruct (Go_gob_healthy w sm a r Hav Hh Hr) as (w1 & HGo & Hav1 & Hh1 & Hs1 & Hu1 & Ho1).
  assert (Hstep : step fmt_Sprintf (start w) (OpGo sm a r None) = start w1).
  { unfold step. cbn [world start leaving]. by rewrite HGo. }
  change (run fmt_Sprintf (start w) ?l)
    with (run fmt_Sprintf (step fmt_Sprintf (start w) (OpGo sm a r None))
            ((λ r, OpGo r.1.1 r.1.2 r.2 None) <$> reqs)).
  rewrite Hstep.
  destruct (IH w1 Hav1 Hh1) as (Ho & Hav' & Hh' & Hu').
  split_and!; [|done|done|by etrans].
  rewrite Ho, Ho1, Hs1. cbn [request_items fst snd]. by rewrite <- app_assoc.
Qed.

(** [Call] up to the wait on its channel, on such a client. *)
Lemma Call_issue_gob_healthy (w : World codec.GobCodec) sm a r :
  IsAvailable w = true → healthy (cc (client w)) → gob_refuses a = None →
  Call_issue w sm a r
  = (mkWorld
       (mkClient
          (codec.mkGobCodec
             (codec.mkConn (unread w)
                (codec.output (codec.conn (cc (client w)))
                 ++ [codec.WHeader (codec.mkHeader sm (seq (client w)) "");
                     codec.WBody a])
                false)
             (codec.mkWriter [] None))
          (opt (client w))
          (codec.mkHeader sm (seq (client w)) "")
          (wrap64 (seq (client w) + 1))
          (<[seq (client w) := length (calls w)]> (pending (client w)))
          false false)
       (calls w ++ [mkCall (seq (client w)) sm a r None (length (chans w))])
       (chans w ++ [mkChan 1 []]),
     length (calls w)).
Proof.
  intros Hav Hh Hr. unfold Call_issue, Go. rewrite Go_call_buffered.
  2:{ unfold cap_of. cbn [chans]. by rewrite lookup_snoc. }
  cbn [calls chans client].
  rewrite (send_gob_healthy _ _ (mkCall 0 sm a r None (length (chans w))));
    [|done|done|apply lookup_snoc|done].
  cbn [calls chans client ServiceMethod Args]. by rewrite alter_snoc.
Qed.

(** X8.  A call from end to end.  [Call] on an available client registers
    the call, writes the request and waits, as nothing was sent on its
    channel yet.  [ServeConn], given the handshake and that request, writes
    back the header of the request and [geerpc resp <seq>].  When this
    answer arrives, one turn of [receive] takes the call out of the
    registry, stores the answer in the call's [Reply], leaves its [Error]
    [nil] and sends the call on its channel once: [Call] returns [nil]. *)
Theorem Call_round_trip (w : World codec.GobCodec) (sm : string) (a : Value)
    (r : string) :
  IsAvailable w = true → healthy (cc (client w)) → unread w = [] →
  gob_refuses a = None → (∀ s, gob_refuses (VString s) = None) →
  let s := seq (client w) in
  let t := Call_issue w sm a (Some (VString r)) in
  let request := drop (length (codec.output (codec.conn (cc (client w)))))
                      (codec.output (codec.conn (cc (client t.1)))) in
  let response := [codec.WHeader (codec.mkHeader sm s "");
                   codec.WBody (placeholder_reply s)] in
  let u := receive_turn fmt_Sprintf (deliver t.1 response) in
  Call_return t.1 t.2 = None
  ∧ request = [codec.WHeader (codec.mkHeader sm s ""); codec.WBody a]
  ∧ ServeConn gob_refuses 3
      (open_conn (codec.WJson MagicNumber codec.GobType :: request))
    = Ok (codec.mkConn [] response true)
  ∧ u.2 = None
  ∧ Call_return u.1 t.2 = Some None
  ∧ calls u.1 !! t.2
    = Some (mkCall s sm a (Some (placeholder_reply s)) None (length (chans w)))
  ∧ sent <$> chans u.1 !! length (chans w) = Some [t.2]
  ∧ pending (client u.1) = delete s (pending (client w))
  ∧ unread u.1 = [].
Proof.
  intros Hav Hh Hin Hr Hstr. cbn zeta.
  rewrite (Call_issue_gob_healthy w sm a (Some (VString r)) Hav Hh Hr).
  cbn [fst snd client cc codec.conn codec.output].
  rewrite drop_app_length, Hin.
  match goal with |- context [receive_turn fmt_Sprintf ?x] =>
    assert (Hu : receive_turn fmt_Sprintf x
                 = (mkWorld
                      (mkClient
                         (codec.mkGobCodec
                            (codec.mkConn []
                               (codec.output (codec.conn (cc (client w)))
                                ++ [codec.WHeader (codec.mkHeader sm (seq (client w)) "");
                                    codec.WBody a])
                               false)
                            (codec.mkWriter [] None))
                         (opt (client w))
                         (codec.mkHeader sm (seq (client w)) "")
                         (wrap64 (seq (client w) + 1))
                         (delete (seq (client w))
                            (<[seq (client w) := length (calls w)]> (pending (client w))))
                         false false)
                      (calls w ++ [mkCall (seq (client w)) sm a
                                     (Some (placeholder_reply (seq (client w)))) None
                                     (length (chans w))])
                      (chans w ++ [mkChan 1 [length (calls w)]]),
                    None))
  end.
  { unfold receive_turn, deliver, conn_deliver, removeCall.
    cbn [client cc calls chans codec.conn codec.input codec.output codec.closed
         codec.buf app opt header seq pending closing shutdown with_client set_cc
         set_pending].
    change (codec.ReadHeader ?c) with (codec.GobCodec_ReadHeader c).
    change (codec.ReadBody ?c ?d) with (codec.GobCodec_ReadBody c d).
    unfold codec.GobCodec_ReadHeader, codec.conn_Read.
    cbn [codec.conn codec.input codec.output codec.closed codec.buf codec.Seq
         codec.Error].
    rewrite lookup_insert_eq, bool_decide_eq_false_2 by (by intros Hne; apply Hne).
    unfold update_call, with_client, set_cc, set_pending, done.
    cbn [client cc calls chans opt header seq pending closing shutdown].
    rewrite lookup_snoc. cbn [mbind option_bind Reply].
    unfold codec.GobCodec_ReadBody, codec.conn_Read.
    cbn [codec.conn codec.input codec.output codec.closed codec.buf].
    unfold placeholder_reply at 1 2 3. cbn [same_type].
    cbn [client cc calls chans opt header seq pending closing shutdown].
    rewrite !alter_snoc, lookup_snoc. cbn [set_Reply Done Seq ServiceMethod Args Error].
    rewrite alter_snoc.
    reflexivity. }
  rewrite Hu. cbn [fst snd client calls chans pending cc codec.conn codec.input].
  split_and!; try done.
  - unfold Call_return. cbn [calls chans]. rewrite lookup_snoc. simpl.
    by rewrite lookup_snoc.
  - by rewrite ServeConn_gob_stream by (done || simpl; lia).
  - unfold Call_return. cbn [calls chans]. rewrite lookup_snoc. simpl.
    rewrite lookup_snoc. simpl. by rewrite lookup_snoc.
  - apply lookup_snoc.
  - by rewrite lookup_snoc.
  - apply delete_insert_eq.
Qed.

(** The loop of [receive] on a list of answers to pending calls. *)
Lemma receive_loop_routes (w : World codec.GobCodec)
    (answers : list (codec.Header * string)) :
  well_formed w →
  codec.closed (codec.conn (cc (client w))) = false →
  unread w = answer_items answers →
  NoDup ((λ a, codec.Seq a.1) <$> answers) →
  (∀ a, a ∈ answers →
     codec.Error a.1 = ""
     ∧ ∃ p c r, pending (client w) !! codec.Seq a.1 = Some p
                ∧ calls w !! p = Some c ∧ Reply c = Some (VString r)) →
  ∃ w', receive_loop fmt_Sprintf (S (length answers)) w = Ok (w', io_EOF)
        ∧ (∀ a, a ∈ answers →
             ∃ p c, pending (client w) !! codec.Seq a.1 = Some p
                    ∧ calls w !! p = Some c
                    ∧ calls w' !! p = Some (set_Reply (Some (VString a.2)) c)
                    ∧ completions w' p = S (completions w p))
        ∧ (∀ q, (∀ a, a ∈ answers → pending (client w) !! codec.Seq a.1 ≠ Some q) →
             calls w' !! q = calls w !! q ∧ completions w' q = completions w q)
        ∧ (∀ s p, pending (client w') !! s = Some p
                  ↔ pending (client w) !! s = Some p
                    ∧ s ∉ (λ a, codec.Seq a.1) <$> answers).
Proof.
  revert w. induction answers as [|[hd b] rest IH]; intros w Hwf Hcl Hin Hnd Hall.
  - assert (Hh : codec.ReadHeader (cc (client w)) = (cc (client w), inr io_EOF)).
    { unfold unread in Hin. destruct (cc (client w)) as [[inp out cl] bf].
      simpl in Hcl, Hin. by subst. }
    destruct (receive_loop_stops fmt_Sprintf O w _ io_EOF
                (receive_turn_header_error fmt_Sprintf w _ _ Hh)) as [Hloop _].
    eexists. split; [exact Hloop|]. split_and!.
    + intros a Ha. by apply elem_of_nil in Ha.
    + done.
    + intros s p. simpl. split; [|tauto]. intros Hp. split; [done|]. apply not_elem_of_nil.
  - cbn [fmap list_fmap] in Hnd. apply NoDup_cons in Hnd as [Hfresh Hnd].
    destruct (Hall (hd, b)) as (Herr & p & c & r & Hp & Hc & Hr); [left|].
    cbn [fst snd] in *.
    pose proof (wf_done w Hwf _ _ Hc) as Hd.
    set (cc1 := codec.mkGobCodec
                  (codec.mkConn (codec.WBody (VString b) :: answer_items rest)
                     (codec.output (codec.conn (cc (client w)))) false)
                  (codec.buf (cc (client w)))).
    set (cc2 := codec.mkGobCodec
                  (codec.mkConn (answer_items rest)
                     (codec.output (codec.conn (cc (client w)))) false)
                  (codec.buf (cc (client w)))).
    assert (Hh : codec.ReadHeader (cc (client w)) = (cc1, inl hd)).
    { unfold unread in Hin. subst cc1. destruct (cc (client w)) as [[inp out cl] bf].
      simpl in Hcl, Hin. by subst. }
    assert (Hb : codec.ReadBody cc1 (Reply c) = (cc2, Some (VString b), None)).
    { by rewrite Hr. }
    destruct (receive_turn_matched fmt_Sprintf w cc1 hd p c Hh Hp Hc Hd)
      as (Hpen & Hcomp & Hoth & Hcase).
    rewrite bool_decide_eq_false_2 in Hcase by (by intros Hne; apply Hne).
    cbn zeta in Hcase. rewrite Hb in Hcase. cbn [fst snd] in Hcase.
    destruct Hcase as (Herr2 & Hcc & Hcall).
    pose proof (receive_turn_wf fmt_Sprintf w Hwf) as Hwf1.
    destruct (receive_turn fmt_Sprintf w) as [w1 e1] eqn:Ht. cbn [fst snd] in *.
    subst e1.
    assert (Hne : ∀ a, a ∈ rest → codec.Seq a.1 ≠ codec.Seq hd).
    { intros a Ha Heq. apply Hfresh. rewrite <- Heq.
      apply (list_elem_of_fmap_2 (λ a, codec.Seq a.1)). done. }
    assert (Hother : ∀ a p', a ∈ rest →
              pending (client w) !! codec.Seq a.1 = Some p' → p' ≠ p).
    { intros a p' Ha Hp' ->. apply (Hne a Ha).
      exact (pending_injective w _ _ p Hwf Hp' Hp). }
    destruct (IH w1) as (w' & Hloop & Hans & Hrest & Hpend); try done.
    + by rewrite Hcc.
    + unfold unread. by rewrite Hcc.
    + intros a Ha. destruct (Hall a) as (Ha1 & p' & c' & r' & Hp' & Hc' & Hr'); [by right|].
      split; [done|]. exists p', c', r'. split_and!; [|  |done].
      * rewrite Hpen, lookup_delete_ne; [done|]. intros Heq. apply (Hne a Ha). by rewrite Heq.

      * by destruct (Hoth p' (Hother a p' Ha Hp')) as [-> _].
    + exists w'. split.
      { rewrite (receive_loop_goes_on fmt_Sprintf _ w w1); [exact Hloop|done]. }
      split_and!.
      * intros a Ha. apply elem_of_cons in Ha as [->|Ha].
        -- exists p, c. cbn [fst snd]. split_and!; [done|done| |].
           ++ destruct (Hrest p) as [-> _].
              { intros a Ha. rewrite Hpen, lookup_delete_Some.
                intros [_ Hp']. by apply (Hother a p Ha Hp'). }
              rewrite Hcall. by destruct c.
           ++ destruct (Hrest p) as [_ ->]; [|done].
              intros a Ha. rewrite Hpen, lookup_delete_Some.
              intros [_ Hp']. by apply (Hother a p Ha Hp').
        -- destruct (Hans a Ha) as (p' & c' & Hp' & Hc' & Hc'' & Hcomp').
           rewrite Hpen in Hp'. apply lookup_delete_Some in Hp' as [_ Hp'].
           destruct (Hoth p' (Hother a p' Ha Hp')) as [Hsame Hsamec].
           exists p', c'. rewrite <- Hsame, <- Hsamec. done.
      * intros q Hq.
        assert (q ≠ p) as Hqp by (intros ->; by apply (Hq (hd, b)); [left|]).
        destruct (Hoth q Hqp) as [<- <-]. apply Hrest.
        intros a Ha. rewrite Hpen, lookup_delete_Some. intros [_ Hp'].
        by apply (Hq a); [right|].
      * intros s q. rewrite Hpend, Hpen, lookup_delete_Some.
        cbn [fmap list_fmap fst]. rewrite not_elem_of_cons.
        split; [intros [[H1 H2] H3]|intros [H1 [H2 H3]]]; split_and!;
          (done || congruence).
Qed.

(** X15.  [receive] gives each answer to the call with its number, in
    whatever order the answers arrive.  The connection delivers a list of
    answers with distinct sequence numbers, each with an empty error in its
    header and a string as body, each for a pending call whose [Reply] takes
    a string.  The loop of [receive] then runs one turn per answer and stops
    at the end of the stream with [io.EOF].  Every answered call has the
    body of its own answer as [Reply], is otherwise as it was, and was sent
    on its channel once more; all other calls are untouched; the registry
    has lost the numbers answered and nothing else.  [terminateCalls], which
    [receive] runs next, leaves the answered calls as they are and signals
    none of them again. *)
Theorem receive_routes_answers (w : World codec.GobCodec)
    (answers : list (codec.Header * string)) :
  well_formed w →
  codec.closed (codec.conn (cc (client w))) = false →
  unread w = answer_items answers →
  NoDup ((λ a, codec.Seq a.1) <$> answers) →
  (∀ a, a ∈ answers →
     codec.Error a.1 = ""
     ∧ ∃ p c r, pending (client w) !! codec.Seq a.1 = Some p
                ∧ calls w !! p = Some c ∧ Reply c = Some (VString r)) →
  ∃ w', receive_loop fmt_Sprintf (S (length answers)) w = Ok (w', io_EOF)
        ∧ receive fmt_Sprintf (S (length answers)) w = Ok (terminateCalls w' io_EOF)
        ∧ (∀ a, a ∈ answers →
             ∃ p c, pending (client w) !! codec.Seq a.1 = Some p
                    ∧ calls w !! p = Some c
                    ∧ calls w' !! p = Some (set_Reply (Some (VString a.2)) c)
                    ∧ completions w' p = S (completions w p)
                    ∧ calls (terminateCalls w' io_EOF) !! p = calls w' !! p
                    ∧ completions (terminateCalls w' io_EOF) p = completions w' p)
        ∧ (∀ q, (∀ a, a ∈ answers → pending (client w) !! codec.Seq a.1 ≠ Some q) →
             calls w' !! q = calls w !! q ∧ completions w' q = completions w q)
        ∧ (∀ s p, pending (client w') !! s = Some p
                  ↔ pending (client w) !! s = Some p
                    ∧ s ∉ (λ a, codec.Seq a.1) <$> answers).
Proof.
  intros Hwf Hcl Hin Hnd Hall.
  destruct (receive_loop_routes w answers Hwf Hcl Hin Hnd Hall)
    as (w' & Hloop & Hans & Hrest & Hpend).
  exists w'. split; [done|].
  pose proof (receive_loop_wf _ _ _ _ Hwf Hloop) as Hwf'.
  destruct (terminateCalls_effect w' io_EOF Hwf') as (_ & _ & _ & Hout).
  split_and!; [|  |done|done].
  - assert (Hloop' : receive_loop fmt_Sprintf (S (length answers)) w = Ok (w', io_EOF))
      by exact Hloop.
    unfold receive. by rewrite Hloop'.
  - intros a Ha. destruct (Hans a Ha) as (p & c & Hp & Hc & Hc' & Hcomp).
    exists p, c. split_and!; [done|done|done|done|apply Hout|apply Hout];
      intros s Hs; apply Hpend in Hs as [Hs Hno]; apply Hno;
      rewrite (pending_injective w _ _ p Hwf Hs Hp);
      by apply (list_elem_of_fmap_2 (λ a, codec.Seq a.1)).
Qed.

(** *** A session *)

(** The state [Go] leaves on an available client, in full. *)
Lemma Go_gob_state w sm a r :
  IsAvailable w = true → healthy (cc (client w)) → gob_refuses a = None →
  ∃ w1, Go w sm a r None = Ok (w1, length (calls w))
        ∧ IsAvailable w1 = true ∧ healthy (cc (client w1))
        ∧ unread w1 = unread w
        ∧ codec.output (codec.conn (cc (client w1)))
          = codec.output (codec.conn (cc (client w)))
            ++ [codec.WHeader (codec.mkHeader sm (seq (client w)) ""); codec.WBody a]
        ∧ seq (client w1) = wrap64 (seq (client w) + 1)
        ∧ pending (client w1) = <[seq (client w) := length (calls w)]> (pending (client w))
        ∧ calls w1 = calls w ++ [mkCall (seq (client w)) sm a r None (length (chans w))]
        ∧ chans w1 = chans w ++ [mkChan 10 []].
Proof.
  intros Hav Hh Hr. unfold Go. rewrite Go_call_nil. eexists. split; [reflexivity|].
  rewrite (send_gob_healthy _ _ (mkCall 0 sm a r None (length (chans w))));
    [|done|done|apply lookup_snoc|done].
  cbn [calls chans client ServiceMethod Args]. rewrite alter_snoc.
  by split_and!.
Qed.

Lemma Go_run_state (reqs : list (string * Value * option Value)) w :
  IsAvailable w = true → healthy (cc (client w)) →
  Forall (λ r, gob_refuses r.1.2 = None) reqs →
  0 ≤ seq (client w) → seq (client w) + Z.of_nat (length reqs) < 2 ^ 64 →
  let w' := world (run fmt_Sprintf (start w)
                     ((λ r, OpGo r.1.1 r.1.2 r.2 None) <$> reqs)) in
  IsAvailable w' = true ∧ healthy (cc (client w')) ∧ unread w' = unread w
  ∧ codec.output (codec.conn (cc (client w')))
    = codec.output (codec.conn (cc (client w))) ++ request_items (seq (client w)) reqs
  ∧ (∀ s, s < seq (client w) → pending (client w') !! s = pending (client w) !! s)
  ∧ (∀ q, (q < length (calls w))%nat → calls w' !! q = calls w !! q)
  ∧ (∀ k req, reqs !! k = Some req →
       pending (client w') !! (seq (client w) + Z.of_nat k)
       = Some (length (calls w) + k)%nat
       ∧ calls w' !! (length (calls w) + k)%nat
         = Some (mkCall (seq (client w) + Z.of_nat k) req.1.1 req.1.2 req.2 None
                   (length (chans w) + k))).
Proof.
  intros Hav Hh Hall. revert w Hav Hh.
  induction Hall as [|[[sm a] r] reqs Hr _ IH]; intros w Hav Hh Hs0 Hs1.
  { cbn zeta. split_and!; try done. by rewrite app_nil_r. }
  cbn [length] in Hs1.
  destruct (Go_gob_state w sm a r Hav Hh Hr)
    as (w1 & HGo & Hav1 & Hh1 & Hu1 & Ho1 & Hseq1 & Hpen1 & Hcalls1 & Hchans1).
  rewrite wrap64_small in Hseq1 by lia.
  assert (Hstep : step fmt_Sprintf (start w) (OpGo sm a r None) = start w1).
  { unfold step. cbn [world start leaving]. by rewrite HGo. }
  cbn zeta.
  change (run fmt_Sprintf (start w) ?l)
    with (run fmt_Sprintf (step fmt_Sprintf (start w) (OpGo sm a r None))
            ((λ r, OpGo r.1.1 r.1.2 r.2 None) <$> reqs)).
  rewrite Hstep.
  destruct (IH w1 Hav1 Hh1) as (Hav' & Hh' & Hu' & Ho' & Hpen' & Hcalls' & Hnew');
    [lia|lia|].
  rewrite Hseq1 in Ho', Hpen', Hnew'.
  assert (Hlen1 : length (calls w1) = S (length (calls w))).
  { rewrite Hcalls1, length_app. simpl. lia. }
  assert (Hlenc1 : length (chans w1) = S (length (chans w))).
  { rewrite Hchans1, length_app. simpl. lia. }
  split_and!; [done|done|by etrans| | | |].
  - rewrite Ho', Ho1. cbn [request_items fst snd]. rewrite wrap64_small by lia.
    by rewrite <- app_assoc.
  - intros s Hs. rewrite Hpen' by lia. rewrite Hpen1, lookup_insert_ne; [done|lia].
  - intros q Hq. rewrite Hcalls' by lia. rewrite Hcalls1. by apply lookup_app_l.
  - intros k req Hk. destruct k as [|k].
    + injection Hk as <-. cbn [fst snd]. rewrite Z.add_0_r, Nat.add_0_r.
      rewrite Hpen' by lia. rewrite Hcalls' by lia.
      rewrite Hpen1, lookup_insert_eq, Hcalls1, lookup_snoc, Nat.add_0_r. done.
    + destruct (Hnew' k req Hk) as [Hp Hc]. rewrite Hlen1, Hlenc1 in *.
      replace (seq (client w) + Z.of_nat (S k)) with (seq (client w) + 1 + Z.of_nat k) by lia.
      replace (length (calls w) + S k)%nat with (S (length (calls w)) + k)%nat by lia.
      replace (length (chans w) + S k)%nat with (S (length (chans w)) + k)%nat by lia.
      done.
Qed.

Lemma deliver_wf w (items : list codec.Item) :
  well_formed w → well_formed (deliver w items).
Proof.
  intros Hwf. by apply (with_client_wf w (client (deliver w items))).
Qed.

(** X17.  A session of calls, from end to end.  On a new client on an open
    connection, fewer than 2^64 - 1 calls of [Go], with arguments the gob
    accepts and strings to take the replies, put their requests on the
    wire; [ServeConn], given the handshake and what the client wrote,
    answers them all and closes; when the answers are delivered, the loop
    of [receive] runs one turn per answer and stops at the end of the
    stream; then the k-th call carries sequence number k+1, its own method
    and argument, the reply [geerpc resp <k+1>] and no error, and was sent
    on its channel exactly once. *)
Theorem session_of_calls (conn : codec.Conn) (o : Option)
    (reqs : list (string * Value * option Value)) :
  codec.closed conn = false → codec.input conn = [] →
  Forall (λ r, gob_refuses r.1.2 = None ∧ ∃ d, r.2 = Some (VString d)) reqs →
  (∀ s, gob_refuses (VString s) = None) →
  1 + Z.of_nat (length reqs) < 2 ^ 64 →
  let w0 := newClientCodec (codec.NewGobCodec conn) o in
  let w1 := world (run fmt_Sprintf (start w0)
                     ((λ r, OpGo r.1.1 r.1.2 r.2 None) <$> reqs)) in
  let sent := drop (length (codec.output conn))
                   (codec.output (codec.conn (cc (client w1)))) in
  ∃ answers w2,
    ServeConn gob_refuses (S (length sent))
      (open_conn (codec.WJson MagicNumber codec.GobType :: sent))
    = Ok (codec.mkConn [] answers true)
    ∧ receive_loop fmt_Sprintf (S (length reqs)) (deliver w1 answers) = Ok (w2, io_EOF)
    ∧ ∀ k req, reqs !! k = Some req →
        calls w2 !! k
        = Some (mkCall (1 + Z.of_nat k) req.1.1 req.1.2
                  (Some (placeholder_reply (1 + Z.of_nat k))) None k)
        ∧ completions w2 k = 1%nat.
Proof.
  intros Hcl Hin Hall Hstr Hlen w0 w1 sent.
  assert (Hacc : Forall (λ r, gob_refuses r.1.2 = None) reqs).
  { eapply Forall_impl; [exact Hall|]. by intros r [? _]. }
  destruct (Go_run_state reqs w0) as (Hav1 & Hh1 & Hu1 & Ho1 & _ & _ & Hnew);
    [done|done|done|simpl; lia|simpl; lia|].
  fold w1 in Hav1, Hh1, Hu1, Ho1, Hnew.
  cbn [w0 newClientCodec client cc seq calls chans length codec.NewGobCodec codec.conn]
    in Ho1, Hnew.
  assert (Hsent : sent = request_items 1 reqs).
  { subst sent. by rewrite Ho1, drop_app_length. }
  destruct (expected_responses_request_items 1 reqs) as (Hexp & Hleft & Hn).
  assert (Hwf1 : well_formed w1) by apply run_wf, newClientCodec_wf.
  assert (Hso1 : signalled_once w1).
  { apply run_signalled_once; [apply newClientCodec_wf|]. simpl.
    split.
    - intros q. rewrite completions_unallocated; [lia|]. simpl. apply lookup_nil.
    - intros _ s q. simpl. by rewrite lookup_empty. }
  assert (Hsd1 : shutdown (client w1) = false).
  { unfold IsAvailable in Hav1. by destruct (shutdown (client w1)). }
  set (answers := session_answers 1 reqs).
  assert (Hk : ∀ a, a ∈ answers →
            ∃ k req, reqs !! k = Some req
                     ∧ a = (codec.mkHeader req.1.1 (1 + Z.of_nat k) "",
                            "geerpc resp " +:+ pretty (1 + Z.of_nat k))).
  { intros a Ha. apply list_elem_of_lookup in Ha as [k Hk].
    pose proof (lookup_lt_Some _ _ _ Hk) as Hlt. subst answers.
    rewrite session_answers_length in Hlt.
    destruct (lookup_lt_is_Some_2 reqs k Hlt) as [req Hreq].
    rewrite (session_answers_lookup reqs 1 k req) in Hk by (done || lia).
    injection Hk as <-. by exists k, req. }
  destruct (receive_loop_routes
              (deliver w1 (answer_items answers)) answers)
    as (w2 & Hloop & Hans & _).
  - by apply deliver_wf.
  - by destruct Hh1.
  - unfold unread, deliver, conn_deliver. cbn [client cc codec.conn codec.input].
    unfold unread in Hu1. rewrite Hu1. simpl. by rewrite Hin.
  - apply session_answers_NoDup; lia.
  - intros a Ha. destruct (Hk a Ha) as (k & req & Hreq & ->).
    split; [done|]. destruct (Hnew k req Hreq) as [Hp Hc].
    rewrite Forall_forall in Hall. destruct (Hall req) as [_ [d Hd]].
    { by eapply list_elem_of_lookup_2. }
    exists k, (mkCall (1 + Z.of_nat k) req.1.1 req.1.2 req.2 None k), d.
    split_and!; [exact Hp|exact Hc|exact Hd].
  - exists (answer_items answers), w2. split_and!.
    + rewrite Hsent, ServeConn_gob_stream by (done || lia). by rewrite Hleft, Hexp.
    + subst answers. by rewrite session_answers_length in Hloop.
    + intros k req Hreq. destruct (Hnew k req Hreq) as [Hp Hc].
      cbn [Nat.add] in Hp, Hc.
      destruct (Hans (codec.mkHeader req.1.1 (1 + Z.of_nat k) "",
                      "geerpc resp " +:+ pretty (1 + Z.of_nat k)))
        as (p & c & Hp' & Hc' & Hc2 & Hcomp).
      { subst answers. eapply list_elem_of_lookup_2.
        apply session_answers_lookup; [lia|lia|done]. }
      cbn [fst snd codec.Seq] in *.
      change (pending (client (deliver w1 (answer_items answers))))
        with (pending (client w1)) in Hp'.
      change (calls (deliver w1 (answer_items answers))) with (calls w1) in Hc'.
      change (completions (deliver w1 (answer_items answers)) p)
        with (completions w1 p) in Hcomp.
      rewrite Hp in Hp'. injection Hp' as <-.
      rewrite Hc in Hc'. injection Hc' as <-.
      split; [exact Hc2|].
      rewrite Hcomp. by rewrite (so_pending _ Hso1 Hsd1 _ _ Hp).
Qed.

End GobClient.

(** ** The client on any codec *)

Section ClientRuns.

Context {C : Type} `{!codec.Codec C}.

Variable fmt_Sprintf : string → string.

Implicit Types (w : World C) (p q : nat) (c : Call).

(** X9.  [Call] on a client that is closing or shut down returns
    [ErrShutdown] at once: the call is built with a new channel of capacity
    1, refused by [registerCall], given the error and sent on that channel,
    where [Call] finds it; the client is unchanged. *)
Theorem Call_on_unavailable_client (w : World C) sm a r :
  IsAvailable w = false →
  let t := Call_issue w sm a r in
  Call_return t.1 t.2 = Some (Some ErrShutdown)
  ∧ client t.1 = client w
  ∧ calls t.1 = calls w ++ [mkCall 0 sm a r (Some ErrShutdown) (length (chans w))]
  ∧ chans t.1 = chans w ++ [mkChan 1 [length (calls w)]].
Proof.
  intros Hav. unfold IsAvailable in Hav.
  assert (Hf : closing (client w) = true ∨ shutdown (client w) = true).
  { destruct (shutdown (client w)), (closing (client w)); auto. }
  unfold Call_issue, Go. rewrite Go_call_buffered.
  2:{ unfold cap_of. cbn [chans]. by rewrite lookup_snoc. }
  cbn [calls chans client]. rewrite send_rejected by done.
  cbn zeta. cbn [fst snd].
  unfold done, update_call. cbn [calls chans client].
  rewrite alter_snoc, lookup_snoc. cbn [set_Error Done]. rewrite alter_snoc.
  split_and!; try done.
  unfold Call_return. cbn [calls chans].
  rewrite lookup_snoc. simpl. rewrite lookup_snoc. simpl. by rewrite lookup_snoc.
Qed.

(** X10.  [removeCall] hands out a registered call once.  On an available
    client [registerCall] gives the call the current sequence number; the
    first [removeCall] of that number returns the call and leaves the
    registry without the number, the second returns [nil] and changes
    nothing; [removeCall] of another number is not affected by the
    registration. *)
Theorem removeCall_hands_out_once (w : World C) (p : nat) :
  IsAvailable w = true →
  let s := seq (client w) in
  let r := registerCall w p in
  let d := removeCall r.1 s in
  r.2 = (s, None)
  ∧ d.2 = Some p
  ∧ pending (client d.1) = delete s (pending (client w))
  ∧ removeCall d.1 s = (d.1, None)
  ∧ (∀ s', s' ≠ s → (removeCall r.1 s').2 = pending (client w) !! s').
Proof.
  intros Hav. unfold IsAvailable in Hav.
  apply andb_true_iff in Hav as [Hsd Hcl]. apply negb_true_iff in Hsd, Hcl.
  cbn zeta. rewrite registerCall_accepted by done.
  unfold removeCall. cbn [fst snd client pending set_seq set_pending with_client].
  rewrite lookup_insert_eq, delete_insert_eq, lookup_delete_eq, delete_delete_eq.
  split_and!; try done.
  intros s' Hne. by rewrite lookup_insert_ne.
Qed.

(** A turn of [receive] adds nothing to the registry. *)
Lemma receive_turn_pending (w : World C) s p :
  pending (client (receive_turn fmt_Sprintf w).1) !! s = Some p →
  pending (client w) !! s = Some p.
Proof.
  unfold receive_turn.
  destruct (codec.ReadHeader (cc (client w))) as [cc1 [hd|e]]; [|done].
  unfold removeCall. cbn [fst snd client pending set_cc set_pending with_client].
  assert (Hdel : delete (codec.Seq hd) (pending (client w)) !! s = Some p →
                 pending (client w) !! s = Some p).
  { intros Hd. apply lookup_delete_Some in Hd. tauto. }
  destruct (pending (client w) !! codec.Seq hd) as [q|].
  - case_bool_decide.
    + destruct (codec.ReadBody _ None) as [[cc2 v] e]. cbn [fst].
      by rewrite done_client.
    + destruct (codec.ReadBody _ _) as [[cc2 v] e]. cbn [fst].
      rewrite done_client. by destruct e.
  - by destruct (codec.ReadBody _ None) as [[cc2 v] e].
Qed.

Lemma step_unavailable (r : Running C) (o : Op) :
  IsAvailable (world r) = false →
  IsAvailable (world (step fmt_Sprintf r o)) = false
  ∧ registered (world r) o = []
  ∧ seq (client (world (step fmt_Sprintf r o))) = seq (client (world r))
  ∧ ∀ s p, pending (client (world (step fmt_Sprintf r o))) !! s = Some p →
           pending (client (world r)) !! s = Some p.
Proof.
  intros Hav.
  assert (Hf : closing (client (world r)) = true ∨ shutdown (client (world r)) = true).
  { unfold IsAvailable in Hav.
    destruct (shutdown (client (world r))), (closing (client (world r))); auto. }
  split.
  { destruct (step_client fmt_Sprintf r o) as (Hc & Hs & _).
    unfold IsAvailable. destruct Hf as [Hf|Hf].
    - rewrite (Hc Hf). apply andb_false_r.
    - by rewrite (Hs Hf). }
  destruct r as [w l]. cbn [world] in *.
  destruct o as [sm a rp d| n | |]; cbn [step registered world leaving].
  - unfold Go. destruct (Go_call w sm a rp d) as [[w2 q]| |] eqn:HG; try done.
    pose proof (Go_call_client _ _ _ _ _ _ _ HG) as Hcl.
    rewrite registerCall_rejected by (by rewrite Hcl).
    rewrite send_rejected by (by rewrite Hcl).
    cbn [world]. rewrite done_client. cbn [update_call client]. by rewrite Hcl.
  - done.
  - destruct (shutdown (client w)) eqn:Hsd; [done|].
    destruct l as [e|]; cbn [world].
    + rewrite terminateCalls_client. done.
    + destruct (receive_turn fmt_Sprintf w) as [w' e] eqn:Ht. cbn [world].
      replace w' with (receive_turn fmt_Sprintf w).1 by (by rewrite Ht).
      split_and!; [done|apply receive_turn_client|apply receive_turn_pending].
  - unfold Close. destruct (closing (client w)); [done|].
    cbn [set_closing cc]. by destruct (codec.Close (cc (client w))) as [cc' e].
Qed.

(** X12.  A client that is not available stays so.  Whatever is done with it
    afterwards (calls of [Go], turns of [receive], [terminateCalls],
    [Close], in any order), [IsAvailable] remains false, no call is
    registered, the sequence counter does not move and nothing is added to
    the registry. *)
Theorem unavailable_for_good (r : Running C) (ops : list Op) :
  IsAvailable (world r) = false →
  IsAvailable (world (run fmt_Sprintf r ops)) = false
  ∧ issued fmt_Sprintf r ops = []
  ∧ seq (client (world (run fmt_Sprintf r ops))) = seq (client (world r))
  ∧ ∀ s p, pending (client (world (run fmt_Sprintf r ops))) !! s = Some p →
           pending (client (world r)) !! s = Some p.
Proof.
  revert r. induction ops as [|o ops IH]; intros r Hav; [done|].
  destruct (step_unavailable r o Hav) as (Hav1 & Hreg & Hseq & Hpend).
  destruct (IH _ Hav1) as (Hav2 & Hiss & Hseq2 & Hpend2).
  change (run fmt_Sprintf r (o :: ops)) with (run fmt_Sprintf (step fmt_Sprintf r o) ops).
  cbn [issued]. rewrite Hreg, Hiss.
  split_and!; [done|done|congruence|auto].
Qed.

(** *** A channel holds each of its calls at most once *)

Lemma update_call_own w p f :
  keeps_Done f → sent_on_own_channel w → sent_on_own_channel (update_call w p f).
Proof.
  intros Hf Hown i ch q Hi Hq. specialize (Hown i ch q Hi Hq).
  rewrite update_call_lookup. destruct (decide (p = q)) as [->|]; [|done].
  destruct (calls w !! q) as [c|]; [|done]. simpl in *. by rewrite Hf.
Qed.

Lemma done_own w p : sent_on_own_channel w → sent_on_own_channel (done w p).
Proof.
  intros Hown i ch q Hi Hq. rewrite done_calls. revert Hi. unfold done.
  destruct (calls w !! p) as [c|] eqn:Hp; [|by eauto].
  cbn [chans]. rewrite list_lookup_alter.
  destruct (decide (Done c = i)) as [<-|]; [|by eauto].
  destruct (chans w !! Done c) as [ch0|] eqn:Hch; [|done].
  intros [= <-]. cbn [sent] in Hq. apply elem_of_app in Hq as [Hq|Hq]; [by eauto|].
  apply list_elem_of_singleton in Hq as ->. by rewrite Hp.
Qed.

Lemma with_client_own w (c' : Client C) :
  sent_on_own_channel w → sent_on_own_channel (with_client w c').
Proof. done. Qed.

Lemma extend_own w (cl : Client C) (cs : list Call) (n : list nat) :
  sent_on_own_channel w →
  sent_on_own_channel (mkWorld cl (calls w ++ cs) (chans w ++ ((λ k, mkChan k []) <$> n))).
Proof.
  intros Hown i ch q Hi Hq. cbn [calls chans] in *.
  apply lookup_app_Some in Hi as [Hi|[_ Hi]].
  - specialize (Hown i ch q Hi Hq). rewrite lookup_app_l; [done|].
    apply lookup_lt_is_Some. destruct (calls w !! q); [by eauto|done].
  - apply list_lookup_fmap_Some in Hi as (k & -> & _). by apply elem_of_nil in Hq.
Qed.

Lemma Go_call_own w sm a r d w2 p :
  sent_on_own_channel w → Go_call w sm a r d = Ok (w2, p) → sent_on_own_channel w2.
Proof.
  intros Hown. unfold Go_call. destruct d as [ch|].
  - case_bool_decide; [done|]. intros [= <- _].
    rewrite <- (app_nil_r (chans w)). by apply (extend_own w _ _ []).
  - intros [= <- _]. by apply (extend_own w _ _ [10%nat]).
Qed.

Lemma send_own w p : sent_on_own_channel w → sent_on_own_channel (send w p).
Proof.
  intros Hown. unfold send, registerCall.
  destruct (closing (client w) || shutdown (client w)).
  { apply done_own, update_call_own; [apply set_Error_keeps_Done|done]. }
  assert (Hown1 : sent_on_own_channel (update_call w p (set_Seq (seq (client w)))))
    by (apply update_call_own; [apply set_Seq_keeps_Done|done]).
  cbv zeta. cbn [fst snd client with_client].
  destruct (codec.Write _ _ _) as [cc' [e|]]; [|done].
  unfold removeCall. cbn [client with_client pending set_pending set_cc set_header set_seq].
  destruct (_ !! _) as [q|]; [|done].
  apply done_own, update_call_own; [apply set_Error_keeps_Done|done].
Qed.

Lemma terminateCalls_own w (err : error) :
  sent_on_own_channel w → sent_on_own_channel (terminateCalls w err).
Proof.
  intros Hown. unfold terminateCalls.
  cbn [client with_client pending set_shutdown].
  generalize (map_to_list (pending (client w))). intros l.
  assert (Hown1 : sent_on_own_channel (with_client w (set_shutdown (client w) true))) by done.
  revert Hown1. generalize (with_client w (set_shutdown (client w) true)).
  induction l as [|sp l IH]; intros w0 Hw0; [done|].
  simpl. apply IH, done_own, update_call_own; [apply set_Error_keeps_Done|done].
Qed.

Lemma receive_turn_own w :
  sent_on_own_channel w → sent_on_own_channel (receive_turn fmt_Sprintf w).1.
Proof.
  intros Hown. unfold receive_turn.
  destruct (codec.ReadHeader (cc (client w))) as [cc1 [hd|e]]; [|done].
  unfold removeCall. cbn [client with_client pending set_pending set_cc].
  destruct (pending (client w) !! codec.Seq hd) as [p|].
  - case_bool_decide.
    + destruct (codec.ReadBody _ None) as [[cc2 v] e]. cbn [fst].
      apply done_own, with_client_own, update_call_own;
        [apply set_Error_keeps_Done|done].
    + destruct (codec.ReadBody _ _) as [[cc2 v] e]. cbn [fst].
      apply done_own. destruct e.
      * apply update_call_own; [apply set_Error_keeps_Done|].
        apply update_call_own; [apply set_Reply_keeps_Done|done].
      * apply update_call_own; [apply set_Reply_keeps_Done|done].
  - by destruct (codec.ReadBody _ None) as [[cc2 v] e].
Qed.

Lemma step_own (r : Running C) (o : Op) :
  sent_on_own_channel (world r) → sent_on_own_channel (world (step fmt_Sprintf r o)).
Proof.
  intros Hown. destruct r as [w l]. cbn [world] in *.
  destruct o as [sm a rp d| n | |]; cbn [step world leaving].
  - unfold Go. destruct (Go_call w sm a rp d) as [[w2 q]| |] eqn:HG; try done.
    cbn [world]. eapply send_own, Go_call_own; eauto.
  - rewrite <- (app_nil_r (calls w)). by apply (extend_own w _ [] [n]).
  - destruct (shutdown (client w)); [done|]. destruct l as [e|]; cbn [world].
    + by apply terminateCalls_own.
    + destruct (receive_turn fmt_Sprintf w) as [w' e] eqn:Ht. cbn [world].
      replace w' with (receive_turn fmt_Sprintf w).1 by (by rewrite Ht).
      by apply receive_turn_own.
  - unfold Close. destruct (closing (client w)); [done|].
    cbn [set_closing cc]. by destruct (codec.Close (cc (client w))) as [cc' e].
Qed.

Lemma run_own (r : Running C) (ops : list Op) :
  sent_on_own_channel (world r) → sent_on_own_channel (world (run fmt_Sprintf r ops)).
Proof.
  revert r. induction ops as [|o ops IH]; intros r Hown; [done|].
  apply IH, step_own, Hown.
Qed.

Lemma elem_of_users (w : World C) (i q : nat) :
  q ∈ users w i ↔ Done <$> calls w !! q = Some i.
Proof.
  unfold users. rewrite list_elem_of_filter, elem_of_seq.
  split; [tauto|]. intros Hq. split; [done|]. split; [lia|]. simpl.
  apply lookup_lt_is_Some. destruct (calls w !! q); [by eauto|done].
Qed.

(** X13.  Along any run of a new client, a [Done] channel only ever holds
    calls that were created with it, each at most once; so the number of
    calls sent on a channel never exceeds the number of calls that share
    it, and a channel with room for the calls that share it is never full
    when [done] sends on it. *)
Theorem Done_channel_holds_each_call_once (c0 : C) (o : Option) (ops : list Op)
    (i : nat) (ch : Chan) :
  let w := world (run fmt_Sprintf (start (newClientCodec c0 o)) ops) in
  chans w !! i = Some ch →
  NoDup (sent ch)
  ∧ (∀ q, q ∈ sent ch → Done <$> calls w !! q = Some i)
  ∧ (length (sent ch) ≤ length (users w i))%nat.
Proof.
  intros w Hi.
  assert (Hown : sent_on_own_channel w).
  { apply run_own. intros j ch' q Hj. simpl in Hj. by rewrite lookup_nil in Hj. }
  assert (Hso : signalled_once w).
  { apply run_signalled_once; [apply newClientCodec_wf|]. simpl.
    split.
    - intros p. rewrite completions_unallocated; [lia|]. simpl. apply lookup_nil.
    - intros _ s p. simpl. by rewrite lookup_empty. }
  assert (Hnd : NoDup (sent ch)).
  { apply NoDup_ListNoDup, (NoDup_count_occ Nat.eq_dec). intros q.
    destruct (decide (q ∈ sent ch)) as [Hq|Hq].
    - pose proof (so_most _ Hso q) as Hm. unfold completions in Hm.
      specialize (Hown i ch q Hi Hq).
      destruct (calls w !! q) as [c|]; [|done]. simpl in Hown.
      injection Hown as Hd. by rewrite Hd, Hi in Hm.
    - rewrite (proj1 (count_occ_not_In Nat.eq_dec _ _)); [lia|].
      by rewrite <- list_elem_of_In. }
  split_and!; [done|by eauto|].
  apply submseteq_length, NoDup_submseteq; [done|].
  intros q Hq. apply elem_of_users. by eauto.
Qed.

(** *** No call is lost *)

(** What [send] does to the registry and to the count of signals. *)
Lemma send_cases w q c :
  well_formed w → calls w !! q = Some c →
  (∀ p, p ≠ q → completions (send w q) p = completions w p)
  ∧ length (calls (send w q)) = length (calls w)
  ∧ shutdown (client (send w q)) = shutdown (client w)
  ∧ if closing (client w) || shutdown (client w)
    then pending (client (send w q)) = pending (client w)
         ∧ seq (client (send w q)) = seq (client w)
         ∧ completions (send w q) q = S (completions w q)
    else seq (client (send w q)) = wrap64 (seq (client w) + 1)
         ∧ ((pending (client (send w q)) = <[seq (client w) := q]> (pending (client w))
             ∧ completions (send w q) q = completions w q)
            ∨ (pending (client (send w q)) = delete (seq (client w)) (pending (client w))
               ∧ completions (send w q) q = S (completions w q))).
Proof.
  intros Hwf Hc. pose proof (wf_done w Hwf _ _ Hc) as Hd.
  unfold send, registerCall.
  destruct (closing (client w) || shutdown (client w)).
  { set (f := set_Error (Some ErrShutdown)).
    destruct (signal_effect w (update_call w q f) q f c)
      as (Hcl & _ & Hcomp & Hoth); [done..|].
    rewrite Hcl, done_calls, update_call_length. split_and!; try done.
    intros p Hp. by apply Hoth. }
  simpl. set (s0 := seq (client w)). set (w1 := update_call w q (set_Seq s0)).
  assert (Hsame : ∀ p, completions w1 p = completions w p)
    by (intros p; by apply completions_update_call).
  assert (Hc1 : calls w1 !! q = Some (set_Seq s0 c)).
  { subst w1. by rewrite update_call_lookup, decide_True, Hc. }
  destruct (codec.Write _ _ _) as [cc' [e|]]; simpl.
  - rewrite lookup_insert_eq.
    set (f := set_Error (Some e)). set (w3 := with_client _ (set_pending _ _)).
    destruct (signal_effect w1 (update_call w3 q f) q f (set_Seq s0 c))
      as (Hcl & _ & Hcomp & Hoth); [done..|].
    rewrite Hcl, done_calls. split_and!; try done.
    + intros p Hp. destruct (Hoth p Hp) as [_ ->]. apply Hsame.
    + simpl. by rewrite !length_alter.
    + right. split; [simpl; apply delete_insert_eq|]. by rewrite Hcomp, Hsame.
  - split_and!; try done.
    + intros p _. apply Hsame.
    + apply length_alter.
    + left. split; [done|]. apply Hsame.
Qed.

Lemma step_accounted (r : Running C) (o : Op) :
  well_formed (world r) → signalled_once (world r) →
  keys_below (world r) → accounted (world r) →
  0 ≤ seq (client (world r)) → seq (client (world r)) + 1 < 2 ^ 64 →
  keys_below (world (step fmt_Sprintf r o))
  ∧ accounted (world (step fmt_Sprintf r o))
  ∧ seq (client (world r)) ≤ seq (client (world (step fmt_Sprintf r o)))
    ≤ seq (client (world r)) + 1.
Proof.
  destruct r as [w l]. cbn [world]. intros Hwf Hso Hkeys Hacc Hs0 Hs1.
  destruct o as [sm a rp d|n| |]; cbn [step world leaving].
  - unfold Go. destruct (Go_call w sm a rp d) as [[w2 q]| |] eqn:Hg;
      [|cbn [world]; split_and!; (done || lia)..].
    destruct (Go_call_wf _ _ _ _ _ _ _ Hwf Hg)
      as (Hwf2 & Hun & Hzero & Hcl & -> & ch & Hcalls & Hch & Hd).
    assert (Hold : ∀ p, (p < length (calls w))%nat →
              completions w2 p = completions w p).
    { intros p Hp. destruct w2 as [cl2 calls2 chans2]. simpl in *. subst calls2.
      destruct d as [ch'|].
      - destruct Hd as (_ & -> & _).
        rewrite <- (app_nil_r (chans w)) at 1. by apply completions_extend.
      - destruct Hd as (_ & ->). by apply completions_extend. }
    assert (Hq : calls w2 !! length (calls w) = Some (mkCall 0 sm a rp None ch)).
    { rewrite Hcalls. by apply list_lookup_middle. }
    destruct (send_cases w2 _ _ Hwf2 Hq) as (Hoth & Hlen & Hsd & Hcase).
    cbn [world]. rewrite Hcl in Hcase, Hsd.
    assert (Hlen2 : length (calls w2) = S (length (calls w))).
    { rewrite Hcalls, length_app. simpl. lia. }
    assert (Hkeep : ∀ p, (p < length (calls w))%nat →
              completions (send w2 (length (calls w))) p = completions w p).
    { intros p Hp. rewrite Hoth by lia. by apply Hold. }
    destruct (closing (client w) || shutdown (client w)) eqn:Hcs.
    + destruct Hcase as (Hpen & Hseq & Hcomp).
      split_and!.
      * intros s p. rewrite Hpen, Hseq. apply Hkeys.
      * intros p Hp. rewrite Hlen, Hlen2 in Hp.
        destruct (decide (p = length (calls w))) as [->|Hne].
        { left. by rewrite Hcomp, Hzero. }
        rewrite Hkeep, Hsd, Hpen by lia. apply Hacc. lia.
      * rewrite Hseq. lia.
      * rewrite Hseq. lia.
    + destruct Hcase as (Hseq & Hcase).
      rewrite wrap64_small in Hseq by lia.
      assert (Hfresh : pending (client w) !! seq (client w) = None).
      { destruct (pending (client w) !! seq (client w)) as [p|] eqn:Hp; [|done].
        apply Hkeys in Hp. lia. }
      split_and!.
      * intros s p. rewrite Hseq.
        destruct Hcase as [[-> _]|[-> _]].
        -- rewrite lookup_insert_Some. intros [[<- _]|[_ Hp]]; [lia|].
           apply Hkeys in Hp. lia.
        -- rewrite lookup_delete_Some. intros [_ Hp]. apply Hkeys in Hp. lia.
      * intros p Hp. rewrite Hlen, Hlen2 in Hp. rewrite Hsd.
        destruct (decide (p = length (calls w))) as [->|Hne].
        -- destruct Hcase as [[-> Hcomp]|[-> Hcomp]].
           ++ right. apply orb_false_elim in Hcs as [_ Hsh]. split; [done|].
              exists (seq (client w)). apply lookup_insert_eq.
           ++ left. by rewrite Hcomp, Hzero.
        -- rewrite Hkeep by lia.
           destruct (Hacc p) as [?|[Hsh [s Hsp]]]; [lia|by left|]. right.
           split; [done|]. exists s.
           destruct Hcase as [[-> _]|[-> _]].
           ++ rewrite lookup_insert_ne; [done|]. intros <-. congruence.
           ++ rewrite lookup_delete_ne; [done|]. intros <-. congruence.
      * lia.
      * lia.
  - assert (Hsame : ∀ p, completions (mkWorld (client w) (calls w)
                                        (chans w ++ [mkChan n []])) p
                         = completions w p).
    { intros p. destruct (decide (p < length (calls w))%nat) as [Hlt|Hge].
      - rewrite <- (app_nil_r (calls w)) at 1. by apply completions_extend.
      - rewrite !completions_unallocated;
          [done|apply lookup_ge_None_2; simpl; lia..]. }
    split_and!; [done| |simpl; lia..].
    intros p Hp. rewrite Hsame. by apply Hacc.
  - destruct (shutdown (client w)) eqn:Hsh; [cbn [world]; split_and!; (done || lia)|].
    destruct l as [err|]; cbn [world].
    + destruct (terminateCalls_effect w err Hwf) as (Hsd & Hpen & Hin & Hout).
      pose proof (terminateCalls_client w err) as Hcl.
      split_and!; [|  |rewrite Hcl; simpl; lia..].
      { intros s p. rewrite Hcl. apply Hkeys. }
      intros p Hp. left.
      destruct (decide (p ∈ (map_to_list (pending (client w))).*2)) as [Hyes|Hno].
      * apply elem_of_pending_pointers in Hyes as [s Hs].
        destruct (Hin s p Hs) as [_ ->]. by rewrite (so_pending _ Hso Hsh s p Hs).
      * destruct (Hout p) as [Hcalls ->].
        { intros s Hs. apply Hno, elem_of_pending_pointers. by exists s. }
        apply lookup_lt_is_Some in Hp. rewrite Hcalls in Hp.
        apply lookup_lt_is_Some in Hp.
        destruct (Hacc p Hp) as [?|[_ [s Hs]]]; [done|].
        destruct Hno. apply elem_of_pending_pointers. by exists s.
    + destruct (receive_turn_client fmt_Sprintf w) as (_ & Hsd & _ & Hseq).
      destruct (receive_turn fmt_Sprintf w) as [w' e] eqn:Ht. cbn [world fst] in *.
      destruct (codec.ReadHeader (cc (client w))) as [cc1 [hd|e1]] eqn:Hh.
      2:{ rewrite (receive_turn_header_error _ _ _ _ Hh) in Ht.
          injection Ht as <- <-. split_and!; (done || simpl; lia). }
      destruct (pending (client w) !! codec.Seq hd) as [p0|] eqn:Hp0.
      2:{ rewrite (receive_turn_unmatched _ _ _ _ Hh Hp0) in Ht.
          injection Ht as <- <-. split_and!; (done || simpl; lia). }
      destruct (wf_pending w Hwf _ _ Hp0) as (c & Hc & Hcseq).
      destruct (receive_turn_matched fmt_Sprintf w cc1 hd p0 c Hh Hp0 Hc
                  (wf_done w Hwf _ _ Hc))
        as (Hpen & Hcomp & Hoth & _).
      rewrite Ht in Hpen, Hcomp, Hoth. cbn [fst] in *.
      split_and!; [|  |lia..].
      * intros s p. rewrite Hpen, Hseq, lookup_delete_Some. intros [_ Hp].
        by apply Hkeys in Hp.
      * intros p Hp. destruct (decide (p = p0)) as [->|Hne].
        { left. by rewrite Hcomp, (so_pending _ Hso Hsh _ _ Hp0). }
        destruct (Hoth p Hne) as [Hcalls ->].
        apply lookup_lt_is_Some in Hp. rewrite Hcalls in Hp.
        apply lookup_lt_is_Some in Hp.
        destruct (Hacc p Hp) as [?|[_ [s Hs]]]; [by left|]. right.
        split; [congruence|]. exists s. rewrite Hpen, lookup_delete_ne; [done|].
        intros <-. congruence.
  - unfold Close. destruct (closing (client w)); [cbn [fst world]; split_and!; (done || lia)|].
    cbn [set_closing cc]. destruct (codec.Close (cc (client w))) as [cc' e].
    cbn [fst world]. split_and!; (done || simpl; lia).
Qed.

Lemma run_accounted (ops : list Op) (r : Running C) :
  well_formed (world r) → signalled_once (world r) →
  keys_below (world r) → accounted (world r) →
  0 ≤ seq (client (world r)) →
  seq (client (world r)) + Z.of_nat (length ops) < 2 ^ 64 →
  accounted (world (run fmt_Sprintf r ops)).
Proof.
  revert r. induction ops as [|o ops IH]; intros r Hwf Hso Hkeys Hacc Hs0 Hs1; [done|].
  cbn [length] in Hs1.
  destruct (step_accounted r o Hwf Hso Hkeys Hacc Hs0) as (Hk1 & Ha1 & Hseq); [lia|].
  change (run fmt_Sprintf r (o :: ops)) with (run fmt_Sprintf (step fmt_Sprintf r o) ops).
  apply IH; [by apply step_wf|by apply step_signalled_once|done|done|lia|lia].
Qed.

(** X14.  No call is lost.  Along any run of a new client of fewer than
    2^64 - 1 steps, every call [Go] has built is either still in the
    registry and not signalled, or was signalled exactly once; once the
    client is shut down every call was signalled exactly once, so no caller
    waits for ever on its channel.  (At 2^64 registrations the counter wraps
    and [registerCall] may overwrite a pending entry.) *)
Theorem no_call_is_lost (c0 : C) (o : Option) (ops : list Op) (p : nat) :
  Z.of_nat (length ops) + 1 < 2 ^ 64 →
  let w := world (run fmt_Sprintf (start (newClientCodec c0 o)) ops) in
  (p < length (calls w))%nat →
  (completions w p = 1%nat
   ∨ (shutdown (client w) = false ∧ completions w p = O
      ∧ ∃ s, pending (client w) !! s = Some p))
  ∧ (shutdown (client w) = true → completions w p = 1%nat).
Proof.
  intros Hlen w Hp.
  assert (Hso : signalled_once w).
  { apply run_signalled_once; [apply newClientCodec_wf|]. simpl.
    split.
    - intros q. rewrite completions_unallocated; [lia|]. simpl. apply lookup_nil.
    - intros _ s q. simpl. by rewrite lookup_empty. }
  assert (Hacc : accounted w).
  { apply run_accounted; try apply newClientCodec_wf; simpl; try lia.
    - split.
      + intros q. rewrite completions_unallocated; [lia|]. simpl. apply lookup_nil.
      + intros _ s q. simpl. by rewrite lookup_empty.
    - intros s q. simpl. by rewrite lookup_empty.
    - intros q. simpl. lia. }
  destruct (Hacc p Hp) as [H1|[Hsh [s Hs]]].
  - split; [by left|done].
  - split; [|congruence]. right. split_and!; [done| |by exists s].
    by eapply so_pending.
Qed.

End ClientRuns.

(** ** [Dial] *)

(** X11.  [Dial] returns a client or an error, never both and never neither.
    The client it returns is available, on the connection dialled, on which
    exactly the option with the magic number and the gob codec was written.
    When it returns an error after the connection was made (unknown codec
    type, or the option could not be written), the connection is closed and
    nothing was written on it; when the options are rejected no connection
    is involved. *)
Theorem Dial_client_or_closed_connection
    (dialed : codec.Conn + error) (opts : list (option Option)) :
  match Dial dialed opts with
  | (inl w, None) =>
      ∃ conn o, dialed = inl conn ∧ parseOptions opts = (Some o, None)
                ∧ codec.closed conn = false ∧ CodecType o = codec.GobType
                ∧ w = newClientCodec
                        (codec.NewGobCodec
                           (codec.mkConn (codec.input conn)
                              (codec.output conn
                               ++ [codec.WJson MagicNumber codec.GobType])
                              false))
                        o
                ∧ IsAvailable w = true
  | (inr None, Some e) =>
      (parseOptions opts).2 = Some e
      ∨ ((parseOptions opts).2 = None ∧ dialed = inr e)
  | (inr (Some conn'), Some e) =>
      ∃ conn, dialed = inl conn
              ∧ (parseOptions opts).2 = None
              ∧ codec.closed conn' = true
              ∧ codec.output conn' = codec.output conn
              ∧ codec.input conn' = codec.input conn
  | _ => False
  end.
Proof.
  unfold Dial.
  destruct (parseOptions opts) as [[o|] [e|]] eqn:Hp; simpl; auto.
  - pose proof (parseOptions_magic _ _ Hp) as Hm.
    destruct dialed as [conn|e]; [|auto].
    unfold NewClient, json_Encode, codec.conn_Write.
    rewrite NewCodecFuncMap_lookup.
    destruct (decide (CodecType o = codec.GobType)) as [Hct|Hct].
    + destruct (codec.closed conn) eqn:Hcl.
      * simpl. by exists conn.
      * exists conn, o. rewrite Hm, Hct. by split_and!.
    + simpl. by exists conn.
  - exfalso. unfold parseOptions in Hp.
    destruct opts as [|[o|] rest]; try done. by case_bool_decide.
Qed.

(** ** The further properties on sample runs *)

(** X4 on the exchange of [main]: five requests numbered 0 to 4. *)
Lemma ServeConn_answers_every_request_witness :
  ServeConn gob_plain 11
    (open_conn
       (codec.WJson MagicNumber codec.GobType
        :: request_stream
             ((λ i, (hdr i "", VString ("geerpc req " +:+ pretty i))) <$> [0; 1; 2; 3; 4])))
  = Ok (codec.mkConn []
          (response_stream
             ((λ i, (hdr i "", VString ("geerpc req " +:+ pretty i))) <$> [0; 1; 2; 3; 4]))
          true).
Proof.
  apply (ServeConn_answers_every_request gob_plain 11%nat).
  - intros s. reflexivity.
  - simpl. lia.
Defined.

(** X15 on a client with two pending calls whose answers arrive in the
    other order. *)
Lemma receive_routes_answers_witness :
  ∃ w', receive_loop fmt_plain 3
          (sample_pending [codec.WHeader (hdr 2 ""); codec.WBody (VString "two");
                           codec.WHeader (hdr 1 ""); codec.WBody (VString "one")])
        = Ok (w', io_EOF)
        ∧ Reply <$> calls w' !! 0%nat = Some (Some (VString "one"))
        ∧ Reply <$> calls w' !! 1%nat = Some (Some (VString "two")).
Proof.
  destruct (receive_routes_answers gob_plain fmt_plain
              (sample_pending [codec.WHeader (hdr 2 ""); codec.WBody (VString "two");
                               codec.WHeader (hdr 1 ""); codec.WBody (VString "one")])
              [(hdr 2 "", "two"); (hdr 1 "", "one")])
    as (w' & Hloop & _ & Hans & _).
  - apply (run_wf fmt_plain (start (sample_client _))), newClientCodec_wf.
  - reflexivity.
  - reflexivity.
  - simpl. apply NoDup_cons. split; [|apply NoDup_singleton].
    intros Hin. apply list_elem_of_singleton in Hin. discriminate Hin.
  - intros a Ha. apply elem_of_cons in Ha as [->|Ha];
      [|apply list_elem_of_singleton in Ha as ->].
    + split; [reflexivity|].
      exists 1%nat, (mkCall 2 "Foo.Sum" (VInt 2) (Some (VString "")) None 1), "".
      split_and!; vm_compute; reflexivity.
    + split; [reflexivity|].
      exists 0%nat, (mkCall 1 "Foo.Sum" (VInt 1) (Some (VString "")) None 0), "".
      split_and!; vm_compute; reflexivity.
  - exists w'. split; [exact Hloop|].
    destruct (Hans (hdr 1 "", "one")) as (p1 & c1 & Hp1 & _ & Hr1 & _);
      [apply elem_of_cons; right; apply elem_of_cons; by left|].
    destruct (Hans (hdr 2 "", "two")) as (p2 & c2 & Hp2 & _ & Hr2 & _);
      [apply elem_of_cons; by left|].
    vm_compute in Hp1, Hp2. injection Hp1 as <-. injection Hp2 as <-.
    by rewrite Hr1, Hr2.
Defined.

(** X16 on a stream that stops making sense after one header. *)
Lemma ServeConn_ends_with_connection_closed_witness :
  ∃ conn', ServeConn gob_plain 4
             (open_conn [codec.WJson MagicNumber codec.GobType;
                         codec.WHeader (hdr 1 ""); codec.WJunk; codec.WJunk])
           = Ok conn'
           ∧ codec.closed conn' = true
           ∧ ∃ more, codec.output conn'
                     = codec.output
                         (open_conn [codec.WJson MagicNumber codec.GobType;
                                     codec.WHeader (hdr 1 ""); codec.WJunk; codec.WJunk])
                       ++ more.
Proof.
  apply (ServeConn_ends_with_connection_closed gob_plain 4%nat).
  simpl. lia.
Defined.

(** X17 on two calls on a new client. *)
Lemma session_of_calls_witness :
  ∃ answers w2,
    ServeConn gob_plain
      (S (length (drop (length (codec.output (open_conn [])))
                       (codec.output (codec.conn (cc (client sample_session)))))))
      (open_conn
         (codec.WJson MagicNumber codec.GobType
          :: drop (length (codec.output (open_conn [])))
                  (codec.output (codec.conn (cc (client sample_session))))))
    = Ok (codec.mkConn [] answers true)
    ∧ receive_loop fmt_plain (S (length sample_requests)) (deliver sample_session answers)
      = Ok (w2, io_EOF)
    ∧ ∀ k req, sample_requests !! k = Some req →
        calls w2 !! k
        = Some (mkCall (1 + Z.of_nat k) req.1.1 req.1.2
                  (Some (placeholder_reply (1 + Z.of_nat k))) None k)
        ∧ completions w2 k = 1%nat.
Proof.
  apply (session_of_calls gob_plain fmt_plain (open_conn []) DefaultOption sample_requests).
  - reflexivity.
  - reflexivity.
  - repeat constructor; by eexists.
  - intros s. reflexivity.
  - vm_compute. reflexivity.
Defined.

(** X5 on two new codecs: the header and the string written are read back. *)
Lemma GobCodec_round_trip_witness :
  codec.GobCodec_ReadBody
    (codec.GobCodec_ReadHeader
       (codec.mkGobCodec
          (conn_deliver (open_conn [])
             (drop (length (codec.output (open_conn [])))
                (codec.output
                   (codec.conn
                      (codec.GobCodec_Write gob_plain (codec.NewGobCodec (open_conn []))
                         (hdr 1 "") (VString "a")).1))))
          (codec.mkWriter [] None))).1
    (Some (VString ""))
  = (codec.NewGobCodec (open_conn []), Some (VString "a"), None).
Proof.
  refine (proj1 (proj2 (proj2 (proj2 (proj2
            (GobCodec_round_trip gob_plain (codec.NewGobCodec (open_conn []))
               (codec.NewGobCodec (open_conn [])) (hdr 1 "") (VString "a") (VString "")
               _ _ _ _ _)))))); try reflexivity.
  split; reflexivity.
Defined.

(** X6 on a client with two pending calls and one answer to read. *)
Lemma receive_ends_when_stream_ends_witness :
  ∃ w1 e,
    receive_loop fmt_plain 3
      (sample_pending [codec.WHeader (hdr 1 ""); codec.WBody (VString "one")])
    = Ok (w1, e)
    ∧ receive fmt_plain 3
        (sample_pending [codec.WHeader (hdr 1 ""); codec.WBody (VString "one")])
      = Ok (terminateCalls w1 e)
    ∧ IsAvailable (terminateCalls w1 e) = false
    ∧ ∀ s p, pending (client w1) !! s = Some p →
        Error <$> calls (terminateCalls w1 e) !! p = Some (Some e)
        ∧ completions (terminateCalls w1 e) p = S (completions w1 p).
Proof.
  apply (receive_ends_when_stream_ends gob_plain fmt_plain 3%nat).
  - apply (run_wf fmt_plain (start (sample_client _))), newClientCodec_wf.
  - vm_compute. lia.
Defined.

(** X7 on two calls on a new client. *)
Lemma Go_requests_on_the_wire_witness :
  codec.output
    (codec.conn
       (cc (client (world (run fmt_plain (start (sample_client []))
                             ((λ r, OpGo r.1.1 r.1.2 r.2 None)
                                <$> [("Foo.Sum", VInt 1, None);
                                     ("Foo.Cat", VString "x", Some (VString ""))]))))))
  = codec.output (codec.conn (cc (client (sample_client []))))
    ++ request_items (seq (client (sample_client [])))
         [("Foo.Sum", VInt 1, None); ("Foo.Cat", VString "x", Some (VString ""))].
Proof.
  refine (proj1 (Go_requests_on_the_wire gob_plain fmt_plain (sample_client [])
                   [("Foo.Sum", VInt 1, None); ("Foo.Cat", VString "x", Some (VString ""))]
                   _ _ _)).
  - reflexivity.
  - split; reflexivity.
  - repeat constructor.
Defined.

(** X8 on a new client: [Call] returns [nil]. *)
Lemma Call_round_trip_witness :
  Call_return
    (receive_turn fmt_plain
       (deliver (Call_issue (sample_client []) "Foo.Sum" (VInt 7) (Some (VString ""))).1
          [codec.WHeader (codec.mkHeader "Foo.Sum" (seq (client (sample_client []))) "");
           codec.WBody (placeholder_reply (seq (client (sample_client []))))])).1
    (Call_issue (sample_client []) "Foo.Sum" (VInt 7) (Some (VString ""))).2
  = Some None.
Proof.
  refine (proj1 (proj2 (proj2 (proj2 (proj2
            (Call_round_trip gob_plain fmt_plain (sample_client []) "Foo.Sum" (VInt 7) ""
               _ _ _ _ _)))))); try reflexivity.
  split; reflexivity.
Defined.

(** X9 on a client after [Close]. *)
Lemma Call_on_unavailable_client_witness :
  Call_return
    (Call_issue (Close (sample_pending [])).1 "Foo.Sum" (VInt 3) None).1
    (Call_issue (Close (sample_pending [])).1 "Foo.Sum" (VInt 3) None).2
  = Some (Some ErrShutdown).
Proof.
  refine (proj1 (Call_on_unavailable_client (Close (sample_pending [])).1
                   "Foo.Sum" (VInt 3) None _)).
  vm_compute. reflexivity.
Defined.

(** X10 on a client with two pending calls. *)
Lemma removeCall_hands_out_once_witness :
  (removeCall (registerCall (sample_pending []) 0).1 (seq (client (sample_pending [])))).2
  = Some 0%nat.
Proof.
  refine (proj1 (proj2 (removeCall_hands_out_once (sample_pending []) 0 _))).
  vm_compute. reflexivity.
Defined.

(** X12 on a client after [Close]. *)
Lemma unavailable_for_good_witness :
  issued fmt_plain (start (Close (sample_pending [])).1) [go 3; OpReceive; go 4] = [].
Proof.
  refine (proj1 (proj2 (unavailable_for_good fmt_plain (start (Close (sample_pending [])).1)
                          [go 3; OpReceive; go 4] _))).
  vm_compute. reflexivity.
Defined.

(** X13 on the channel of a call that was answered. *)
Lemma Done_channel_holds_each_call_once_witness :
  (length (sent (mkChan 10 [0%nat]))
   ≤ length (users (world (run fmt_plain
                             (start (newClientCodec
                                       (codec.NewGobCodec
                                          (open_conn [codec.WHeader (hdr 1 "");
                                                      codec.WBody (VString "one")]))
                                       DefaultOption))
                             [go 1; OpReceive]))
               0))%nat.
Proof.
  refine (proj2 (proj2 (Done_channel_holds_each_call_once fmt_plain
                          (codec.NewGobCodec
                             (open_conn [codec.WHeader (hdr 1 "");
                                         codec.WBody (VString "one")]))
                          DefaultOption [go 1; OpReceive] 0 (mkChan 10 [0%nat]) _))).
  vm_compute. reflexivity.
Defined.

(** X14 on a run that ends after the connection has: the second call was signalled once. *)
Lemma no_call_is_lost_witness :
  completions (world (run fmt_plain
                        (start (newClientCodec (codec.NewGobCodec (open_conn []))
                                  DefaultOption))
                        [go 1; go 2; OpReceive; OpReceive; go 3])) 1 = 1%nat.
Proof.
  refine (proj2 (no_call_is_lost fmt_plain (codec.NewGobCodec (open_conn []))
                   DefaultOption [go 1; go 2; OpReceive; OpReceive; go 3] 1 _ _) _).
  - vm_compute. reflexivity.
  - vm_compute. lia.
  - vm_compute. reflexivity.
Defined.
